(** * The x86-64 page-table walker of arch/x86/page_tables/page_tables.cpp

    A shallow embedding of the recursive range operators of
    [X86PageTableBase] (map, unmap, re-protect, query), of the cache-line
    flusher and of the mapping cursor, followed by the properties of the
    specification that were checked against them.

    Machine words are [Z] with the 64-bit wrap-around written out
    ([wrap64]).  The page-table memory is modelled as the tree it forms:
    a table is the physical address of its frame and its entries, and an
    entry is the stored PTE word together with the table found at
    [X86_PHYS_TO_VIRT(pte & X86_PG_FRAME)] when the entry points at one.
    A null or dangling table pointer is [None]; dereferencing it is a
    fault, the [None] outcome of the state monad [M].  Debug-only
    assertions are compiled out, as in a release build. *)

From Stdlib Require Import ZArith Lia Bool.
From stdpp Require Import base list.

Open Scope Z_scope.

(** ** Machine words *)

Definition wrap64 (x : Z) : Z := x mod 2 ^ 64.

(** ** Level geometry and architectural constants

    Modelled from the spec: arch/x86/page_tables/constants.h is not part of
    the sources at hand; section 8 fixes PAGE_SIZE = 4096, four levels and
    N = 512 entries per table, and the masks are those of x86-64 4-level
    paging. *)

Inductive PageTableLevel := PT_L | PD_L | PDP_L | PML4_L.

Definition level_eqb (a b : PageTableLevel) : bool :=
  match a, b with
  | PT_L, PT_L | PD_L, PD_L | PDP_L, PDP_L | PML4_L, PML4_L => true
  | _, _ => false
  end.

Definition PAGE_SIZE : Z := 4096.
Definition NO_OF_PT_ENTRIES : Z := 512.
Definition ADDR_OFFSET : Z := 9.
Definition PT_SHIFT : Z := 12.
Definition PD_SHIFT : Z := 21.
Definition PDP_SHIFT : Z := 30.
Definition PML4_SHIFT : Z := 39.

Definition X86_MMU_PG_P : Z := 0x1.
Definition X86_MMU_PG_PS : Z := 0x80.
Definition X86_PG_FRAME : Z := 0x000ffffffffff000.
Definition X86_LARGE_PAGE_FRAME : Z := 0x000fffffffe00000.
Definition X86_HUGE_PAGE_FRAME : Z := 0x000fffffc0000000.
Definition X86_LARGE_FLAGS_MASK : Z := 0x8000000000001fff.
Definition PAGE_OFFSET_MASK_4KB : Z := 2 ^ PT_SHIFT - 1.
Definition PAGE_OFFSET_MASK_LARGE : Z := 2 ^ PD_SHIFT - 1.
Definition PAGE_OFFSET_MASK_HUGE : Z := 2 ^ PDP_SHIFT - 1.

Definition IS_PAGE_PRESENT (pte : Z) : bool := negb (Z.land pte X86_MMU_PG_P =? 0).
Definition IS_LARGE_PAGE (pte : Z) : bool := negb (Z.land pte X86_MMU_PG_PS =? 0).

Definition level_shift (level : PageTableLevel) : Z :=
  match level with
  | PT_L => PT_SHIFT
  | PD_L => PD_SHIFT
  | PDP_L => PDP_SHIFT
  | PML4_L => PML4_SHIFT
  end.

Definition page_size (level : PageTableLevel) : Z := Z.shiftl 1 (level_shift level).

Definition page_aligned (level : PageTableLevel) (vaddr : Z) : bool :=
  Z.land vaddr (page_size level - 1) =? 0.

Definition vaddr_to_index (level : PageTableLevel) (vaddr : Z) : Z :=
  Z.land (Z.shiftr vaddr (level_shift level)) (Z.shiftl 1 ADDR_OFFSET - 1).

(** [paddr_from_pte] panics at PML4_L: [None]. *)
Definition paddr_from_pte (level : PageTableLevel) (pte : Z) : option Z :=
  match level with
  | PDP_L => Some (Z.land pte X86_HUGE_PAGE_FRAME)
  | PD_L => Some (Z.land pte X86_LARGE_PAGE_FRAME)
  | PT_L => Some (Z.land pte X86_PG_FRAME)
  | PML4_L => None
  end.

(** [lower_level] is only called above PT_L (DEBUG_ASSERT(level != 0)). *)
Definition lower_level (level : PageTableLevel) : PageTableLevel :=
  match level with
  | PML4_L => PDP_L
  | PDP_L => PD_L
  | PD_L => PT_L
  | PT_L => PT_L
  end.

Inductive zx_status_t :=
  | ZX_OK
  | ZX_ERR_INVALID_ARGS
  | ZX_ERR_ALREADY_EXISTS
  | ZX_ERR_NO_MEMORY
  | ZX_ERR_NOT_FOUND.

Definition status_is_ok (s : zx_status_t) : bool :=
  match s with ZX_OK => true | _ => false end.

(** ** The trait bundle of an address space

    The virtual methods of [X86PageTableBase] that a concrete page table
    supplies, with the two machine parameters the walker reads:
    [x86_get_clflush_line_size()] and the base of the physmap behind
    [X86_PHYS_TO_VIRT]. *)

Class PageTableEnv := {
  top_level : PageTableLevel;
  allowed_flags : Z -> bool;
  check_paddr : Z -> bool;
  check_vaddr : Z -> bool;
  supports_page_size : PageTableLevel -> bool;
  intermediate_flags : Z;
  terminal_flags : PageTableLevel -> Z -> Z;
  split_flags : PageTableLevel -> Z -> Z;
  pt_flags_to_mmu_flags : Z -> PageTableLevel -> Z;
  needs_cache_flushes : bool;
  is_kernel_address : Z -> bool;
  clflush_line_size : Z;
  physmap_base : Z
}.

(** ** Page tables, events and the state threaded through a walk *)

Inductive Table : Type := MkTable { tbl_phys : Z; tbl_ents : list Entry }
with Entry : Type := MkEntry { pte_val : Z; pte_next : option Table }.

Inductive Event :=
  | EvStore (addr value : Z)
  | EvClflush (line : Z)
  | EvTlbInvalidate (level : PageTableLevel) (vaddr : Z) (is_global was_terminal : bool)
  | EvAlloc (page : option Z)
  | EvFree (paddr : Z)
  | EvLock
  | EvUnlock.

(** [pages_] is the counter of the address space, [pmm] the answers the
    physical allocator will give to the coming [pmm_alloc_kpage] calls
    ([None], or an exhausted list, is an allocation failure), [trace] the
    cache, TLB, allocator and lock events so far, oldest first. *)
Record Machine := {
  pages_ : Z;
  pmm : list (option Z);
  trace : list Event
}.

Record X86PageTableBase := {
  virt_ : option Table;
  mach : Machine
}.

Definition M (A : Type) : Type := Machine -> option (A * Machine).

Definition ret {A} (a : A) : M A := fun s => Some (a, s).

Definition bind {A B} (m : M A) (k : A -> M B) : M B :=
  fun s => match m s with Some (a, s') => k a s' | None => None end.

Definition fault {A} : M A := fun _ => None.

Notation "'let*' x ':=' m 'in' k" := (bind m (fun x => k))
  (at level 10, x pattern, m at level 100, k at level 200).
Notation "m ';;' k" := (bind m (fun _ => k))
  (at level 100, k at level 200, right associativity).

Definition emit (e : Event) : M unit :=
  fun s => Some (tt, {| pages_ := pages_ s; pmm := pmm s; trace := trace s ++ [e] |}).

(** [pages_++] and [pages_--]: [pages_ += d] on a 64-bit counter. *)
Definition add_pages (d : Z) : M unit :=
  fun s => Some (tt, {| pages_ := wrap64 (pages_ s + d); pmm := pmm s; trace := trace s |}).

Definition lift_option {A} (o : option A) : M A :=
  match o with Some a => ret a | None => fault end.

(** ** MappingCursor *)

Record MappingCursor := {
  paddr : Z;
  vaddr : Z;
  size : Z
}.

Definition SkipEntry (level : PageTableLevel) (c : MappingCursor) : MappingCursor :=
  let ps := page_size level in
  let skipped_size := wrap64 (ps - Z.land (vaddr c) (ps - 1)) in
  let _size := if size c >? skipped_size then skipped_size else size c in
  {| paddr := paddr c;
     vaddr := wrap64 (vaddr c + _size);
     size := wrap64 (size c - _size) |}.

(** The per-entry advance [vaddr += n; size -= n]. *)
Definition advance (n : Z) (c : MappingCursor) : MappingCursor :=
  {| paddr := paddr c; vaddr := wrap64 (vaddr c + n); size := wrap64 (size c - n) |}.

(** The advance of the mapping walk, which moves [paddr] as well. *)
Definition advance_mapped (n : Z) (c : MappingCursor) : MappingCursor :=
  {| paddr := wrap64 (paddr c + n);
     vaddr := wrap64 (vaddr c + n);
     size := wrap64 (size c - n) |}.

Section Walker.
Context {env : PageTableEnv}.

Definition X86_PHYS_TO_VIRT (pa : Z) : Z := wrap64 (pa + physmap_base).

(** The address of entry [index] of table [t]: [table + index]. *)
Definition entry_addr (t : Table) (index : Z) : Z :=
  wrap64 (X86_PHYS_TO_VIRT (tbl_phys t) + 8 * index).

(** ** CacheLineFlusher *)

Record CacheLineFlusher := {
  dirty_line_ : Z;
  perform_invalidations_ : bool
}.

Definition cl_mask_ : Z := wrap64 (Z.lnot (clflush_line_size - 1)).

Definition new_flusher (perform_invalidations : bool) : CacheLineFlusher :=
  {| dirty_line_ := 0; perform_invalidations_ := perform_invalidations |}.

Definition ForceFlush (clf : CacheLineFlusher) : M CacheLineFlusher :=
  if negb (dirty_line_ clf =? 0) && perform_invalidations_ clf then
    emit (EvClflush (dirty_line_ clf));;
    ret {| dirty_line_ := 0; perform_invalidations_ := perform_invalidations_ clf |}
  else ret clf.

Definition FlushPtEntry (clf : CacheLineFlusher) (entry : Z) : M CacheLineFlusher :=
  let entry_line := Z.land entry cl_mask_ in
  if negb (entry_line =? dirty_line_ clf) then
    let* clf := ForceFlush clf in
    ret {| dirty_line_ := entry_line; perform_invalidations_ := perform_invalidations_ clf |}
  else ret clf.

(** ** Access to the entries of a table *)

Definition deref_table (table : option Table) : M Table := lift_option table.

Definition read_entry (t : Table) (index : Z) : M Entry :=
  lift_option (tbl_ents t !! Z.to_nat index).

Definition write_entry (t : Table) (index : Z) (e : Entry) : Table :=
  {| tbl_phys := tbl_phys t; tbl_ents := <[Z.to_nat index := e]> (tbl_ents t) |}.

Definition TlbInvalidatePage (level : PageTableLevel) (vaddr : Z)
    (is_global was_terminal : bool) : M unit :=
  emit (EvTlbInvalidate level vaddr is_global was_terminal).

(** ** UpdateEntry and UnmapEntry

    [next] is the table that lives at [paddr] when the new entry is a
    pointer to one, [None] for a terminal entry. *)

Definition UpdateEntry (flusher : CacheLineFlusher) (level : PageTableLevel) (vaddr : Z)
    (t : Table) (index : Z) (paddr : Z) (next : option Table) (flags : Z)
    (was_terminal : bool) : M (CacheLineFlusher * Table) :=
  let* olde := read_entry t index in
  let value := Z.lor (Z.lor paddr flags) X86_MMU_PG_P in
  emit (EvStore (entry_addr t index) value);;
  let* flusher := FlushPtEntry flusher (entry_addr t index) in
  let t' := write_entry t index (MkEntry value next) in
  if IS_PAGE_PRESENT (pte_val olde) then
    let* flusher := ForceFlush flusher in
    TlbInvalidatePage level vaddr (is_kernel_address vaddr) was_terminal;;
    ret (flusher, t')
  else ret (flusher, t').

Definition UnmapEntry (flusher : CacheLineFlusher) (level : PageTableLevel) (vaddr : Z)
    (t : Table) (index : Z) (was_terminal : bool) : M (CacheLineFlusher * Table) :=
  let* olde := read_entry t index in
  emit (EvStore (entry_addr t index) 0);;
  let* flusher := FlushPtEntry flusher (entry_addr t index) in
  let t' := write_entry t index (MkEntry 0 None) in
  if IS_PAGE_PRESENT (pte_val olde) then
    let* flusher := ForceFlush flusher in
    TlbInvalidatePage level vaddr (is_kernel_address vaddr) was_terminal;;
    ret (flusher, t')
  else ret (flusher, t').

(** ** Frame allocation *)

Definition zero_table (pa : Z) : Table :=
  {| tbl_phys := pa; tbl_ents := replicate (Z.to_nat NO_OF_PT_ENTRIES) (MkEntry 0 None) |}.

Definition pmm_alloc_kpage : M (option Z) :=
  fun s =>
    let page := match pmm s with Some pa :: _ => Some pa | _ => None end in
    Some (page, {| pages_ := pages_ s; pmm := tail (pmm s);
                   trace := trace s ++ [EvAlloc page] |}).

Definition _map_alloc_page : M (option Table) :=
  let* page := pmm_alloc_kpage in
  match page with
  | Some pa => ret (Some (zero_table pa))
  | None => ret None
  end.

Definition pmm_free_page (pa : Z) : M unit := emit (EvFree pa).

(** ** SplitLargePage *)

Fixpoint split_fill (n : nat) (i : Z) (clf : CacheLineFlusher) (level : PageTableLevel)
    (m : Table) (new_vaddr new_paddr ps flags : Z) : M (CacheLineFlusher * Table) :=
  match n with
  | O => ret (clf, m)
  | S n' =>
      let* (clf, m) := UpdateEntry clf level new_vaddr m i new_paddr None flags false in
      split_fill n' (i + 1) clf level m (wrap64 (new_vaddr + ps)) (wrap64 (new_paddr + ps))
        ps flags
  end.

Definition SplitLargePage (level : PageTableLevel) (vaddr : Z) (t : Table) (index : Z)
    : M (zx_status_t * Table) :=
  let* e := read_entry t index in
  let* m := _map_alloc_page in
  match m with
  | None => ret (ZX_ERR_NO_MEMORY, t)
  | Some m =>
      let* paddr_base := lift_option (paddr_from_pte level (pte_val e)) in
      let flags := split_flags level (Z.land (pte_val e) X86_LARGE_FLAGS_MASK) in
      let clf := new_flusher needs_cache_flushes in
      let ps := page_size (lower_level level) in
      let* (clf, m) :=
        split_fill (Z.to_nat NO_OF_PT_ENTRIES) 0 clf (lower_level level) m vaddr paddr_base
          ps flags in
      let* (clf, t) :=
        UpdateEntry clf level vaddr t index (tbl_phys m) (Some m) intermediate_flags true in
      add_pages 1;;
      ForceFlush clf;;
      ret (ZX_OK, t)
  end.

(** ** get_next_table_from_entry *)

Definition get_next_table_from_entry (e : Entry) : option Table :=
  if negb (IS_PAGE_PRESENT (pte_val e)) || IS_LARGE_PAGE (pte_val e) then None
  else pte_next e.

(** Records in the parent entry the contents its lower table has after a
    recursive call went through it. *)
Definition link_next (t : Table) (index : Z) (next : option Table) : Table :=
  match tbl_ents t !! Z.to_nat index with
  | Some e =>
      match get_next_table_from_entry e with
      | Some _ => write_entry t index (MkEntry (pte_val e) next)
      | None => t
      end
  | None => t
  end.

(** ** GetMapping *)

Inductive Mapping :=
  | MappingFound (ret_level : PageTableLevel) (mapping : Z)
  | MappingNotFound.

Definition GetMappingL0 (table : option Table) (vaddr : Z) : M Mapping :=
  let* t := deref_table table in
  let index := vaddr_to_index PT_L vaddr in
  let* e := read_entry t index in
  if negb (IS_PAGE_PRESENT (pte_val e)) then ret MappingNotFound
  else ret (MappingFound PT_L (pte_val e)).

Definition GetMapping_at (lower : option Table -> Z -> M Mapping) (level : PageTableLevel)
    (table : option Table) (vaddr : Z) : M Mapping :=
  let* t := deref_table table in
  let index := vaddr_to_index level vaddr in
  let* e := read_entry t index in
  let pt_val := pte_val e in
  if negb (IS_PAGE_PRESENT pt_val) then ret MappingNotFound
  else if IS_LARGE_PAGE pt_val then ret (MappingFound level pt_val)
  else lower (get_next_table_from_entry e) vaddr.

Definition GetMapping (level : PageTableLevel) : option Table -> Z -> M Mapping :=
  match level with
  | PT_L => GetMappingL0
  | PD_L => GetMapping_at GetMappingL0 PD_L
  | PDP_L => GetMapping_at (GetMapping_at GetMappingL0 PD_L) PDP_L
  | PML4_L => GetMapping_at (GetMapping_at (GetMapping_at GetMappingL0 PD_L) PDP_L) PML4_L
  end.

(** ** The loop over the entries of one table

    [for (; index != NO_OF_PT_ENTRIES && new_cursor->size != 0; ++index)],
    with the locals of a walker frame as loop state.  [remaining] counts the
    entries from [index] to the end of the table; a body answers [inl] to go
    on with the next index and [inr] to return from the walker. *)

Record Frame := {
  fr_table : option Table;
  fr_cursor : MappingCursor;
  fr_clf : CacheLineFlusher;
  fr_unmapped : bool
}.

Definition new_frame (table : option Table) (start_cursor : MappingCursor) : Frame :=
  {| fr_table := table; fr_cursor := start_cursor;
     fr_clf := new_flusher needs_cache_flushes; fr_unmapped := false |}.

Fixpoint for_each_entry {R : Type} (remaining : nat) (body : Z -> Frame -> M (Frame + R))
    (fr : Frame) : M (Frame + R) :=
  match remaining with
  | O => ret (inl fr)
  | S n =>
      if size (fr_cursor fr) =? 0 then ret (inl fr)
      else
        let* r := body (NO_OF_PT_ENTRIES - Z.of_nat remaining) fr in
        match r with
        | inl fr' => for_each_entry n body fr'
        | inr x => ret (inr x)
        end
  end.

Definition entries_from (index : Z) : nat := Z.to_nat (NO_OF_PT_ENTRIES - index).

(** ** RemoveMapping *)

Definition RemoveWalk : Type := option Table -> MappingCursor -> M (bool * option Table * MappingCursor).

Definition RemoveMappingL0_body (index : Z) (fr : Frame) : M (Frame + unit) :=
  let* t := deref_table (fr_table fr) in
  let* e := read_entry t index in
  let* (clf, t, unmapped) :=
    if IS_PAGE_PRESENT (pte_val e) then
      let* (clf, t) := UnmapEntry (fr_clf fr) PT_L (vaddr (fr_cursor fr)) t index true in
      ret (clf, t, true)
    else ret (fr_clf fr, t, fr_unmapped fr) in
  ret (inl {| fr_table := Some t; fr_cursor := advance PAGE_SIZE (fr_cursor fr);
              fr_clf := clf; fr_unmapped := unmapped |}).

Definition RemoveMappingL0 : RemoveWalk := fun table start_cursor =>
  let index := vaddr_to_index PT_L (vaddr start_cursor) in
  let* r := for_each_entry (entries_from index) RemoveMappingL0_body
              (new_frame table start_cursor) in
  match r with
  | inl fr =>
      ForceFlush (fr_clf fr);;
      ret (fr_unmapped fr, fr_table fr, fr_cursor fr)
  | inr _ => fault
  end.

(** The large-page part of the loop body: [inl] is [continue], [inr] falls
    through to the recursion with the frame as the branch left it. *)
Definition RemoveMapping_large (level : PageTableLevel) (index : Z) (t : Table)
    (fr : Frame) : M (Frame + (Table * Frame)) :=
  let ps := page_size level in
  let c := fr_cursor fr in
  let vaddr_level_aligned := page_aligned level (vaddr c) in
  if vaddr_level_aligned && (size c >=? ps) then
    let* (clf, t) := UnmapEntry (fr_clf fr) level (vaddr c) t index true in
    ret (inl {| fr_table := Some t; fr_cursor := advance ps c;
                fr_clf := clf; fr_unmapped := true |})
  else
    let page_vaddr := Z.land (vaddr c) (wrap64 (Z.lnot (ps - 1))) in
    let* (status, t) := SplitLargePage level page_vaddr t index in
    if negb (status_is_ok status) then
      let* (clf, t) := UnmapEntry (fr_clf fr) level (vaddr c) t index true in
      ret (inr (t, {| fr_table := Some t; fr_cursor := SkipEntry level c;
                      fr_clf := clf; fr_unmapped := true |}))
    else
      ret (inr (t, {| fr_table := Some t; fr_cursor := c;
                      fr_clf := fr_clf fr; fr_unmapped := fr_unmapped fr |})).

(** The scan [for (lower_idx = 0; lower_idx < NO_OF_PT_ENTRIES; ++lower_idx)]
    for a present entry of the lower table. *)
Definition table_is_empty (next_table : option Table) : M bool :=
  let* nt := deref_table next_table in
  let* ents := lift_option
    (if NO_OF_PT_ENTRIES <=? Z.of_nat (length (tbl_ents nt))
     then Some (take (Z.to_nat NO_OF_PT_ENTRIES) (tbl_ents nt)) else None) in
  ret (forallb (fun e => negb (IS_PAGE_PRESENT (pte_val e))) ents).

(** The rest of the loop body, from [next_table] on: the recursion into the
    lower table of the entry and the decision to free that table. *)
Definition RemoveMapping_descend (lower : RemoveWalk) (level : PageTableLevel) (index : Z)
    (t : Table) (fr : Frame) : M (Frame + unit) :=
  let ps := page_size level in
  let* e := read_entry t index in
  let next_table := get_next_table_from_entry e in
  let* (lower_unmapped, next_table, cursor) := lower next_table (fr_cursor fr) in
  let t := link_next t index next_table in
  let unmap_page_table :=
    page_aligned level (vaddr (fr_cursor fr)) && (size (fr_cursor fr) >=? ps) in
  let* unmap_page_table :=
    if negb unmap_page_table && lower_unmapped then table_is_empty next_table
    else ret unmap_page_table in
  if unmap_page_table then
    let* nt := deref_table next_table in
    let ptable_phys := tbl_phys nt in
    let* (clf, t) := UnmapEntry (fr_clf fr) level (vaddr (fr_cursor fr)) t index false in
    pmm_free_page ptable_phys;;
    add_pages (-1);;
    ret (inl {| fr_table := Some t; fr_cursor := cursor;
                fr_clf := clf; fr_unmapped := true |})
  else
    ret (inl {| fr_table := Some t; fr_cursor := cursor;
                fr_clf := fr_clf fr; fr_unmapped := fr_unmapped fr |}).

Definition RemoveMapping_body (lower : RemoveWalk) (level : PageTableLevel) (index : Z)
    (fr : Frame) : M (Frame + unit) :=
  let* t := deref_table (fr_table fr) in
  let* e := read_entry t index in
  let pt_val := pte_val e in
  if negb (IS_PAGE_PRESENT pt_val) then
    ret (inl {| fr_table := Some t; fr_cursor := SkipEntry level (fr_cursor fr);
                fr_clf := fr_clf fr; fr_unmapped := fr_unmapped fr |})
  else
    let* lp :=
      if IS_LARGE_PAGE pt_val then RemoveMapping_large level index t fr
      else ret (inr (t, fr)) in
    match lp with
    | inl fr' => ret (inl fr')
    | inr (t, fr) => RemoveMapping_descend lower level index t fr
    end.

Definition RemoveMapping_at (lower : RemoveWalk) (level : PageTableLevel) : RemoveWalk :=
  fun table start_cursor =>
    let index := vaddr_to_index level (vaddr start_cursor) in
    let* r := for_each_entry (entries_from index) (RemoveMapping_body lower level)
                (new_frame table start_cursor) in
    match r with
    | inl fr =>
        ForceFlush (fr_clf fr);;
        ret (fr_unmapped fr, fr_table fr, fr_cursor fr)
    | inr _ => fault
    end.

Definition RemoveMapping (level : PageTableLevel) : RemoveWalk :=
  match level with
  | PT_L => RemoveMappingL0
  | PD_L => RemoveMapping_at RemoveMappingL0 PD_L
  | PDP_L => RemoveMapping_at (RemoveMapping_at RemoveMappingL0 PD_L) PDP_L
  | PML4_L =>
      RemoveMapping_at (RemoveMapping_at (RemoveMapping_at RemoveMappingL0 PD_L) PDP_L) PML4_L
  end.

(** ** AddMapping *)

Definition MapWalk : Type :=
  option Table -> Z -> MappingCursor -> M (zx_status_t * option Table * MappingCursor).

Definition with_table (fr : Frame) (t : Table) : Frame :=
  {| fr_table := Some t; fr_cursor := fr_cursor fr;
     fr_clf := fr_clf fr; fr_unmapped := fr_unmapped fr |}.

Definition AddMappingL0_body (mmu_flags : Z) (index : Z) (fr : Frame)
    : M (Frame + (zx_status_t * Frame)) :=
  let term_flags := terminal_flags PT_L mmu_flags in
  let c := fr_cursor fr in
  let* t := deref_table (fr_table fr) in
  let* e := read_entry t index in
  if IS_PAGE_PRESENT (pte_val e) then ret (inr (ZX_ERR_ALREADY_EXISTS, with_table fr t))
  else
    let* (clf, t) :=
      UpdateEntry (fr_clf fr) PT_L (vaddr c) t index (paddr c) None term_flags false in
    ret (inl {| fr_table := Some t; fr_cursor := advance_mapped PAGE_SIZE c;
                fr_clf := clf; fr_unmapped := fr_unmapped fr |}).

(** The end of a walker frame: the flusher goes out of scope. *)
Definition leave_frame (status : zx_status_t) (fr : Frame)
    : M (zx_status_t * option Table * MappingCursor) :=
  ForceFlush (fr_clf fr);;
  ret (status, fr_table fr, fr_cursor fr).

Definition AddMappingL0 : MapWalk := fun table mmu_flags start_cursor =>
  let index := vaddr_to_index PT_L (vaddr start_cursor) in
  let* r := for_each_entry (entries_from index) (AddMappingL0_body mmu_flags)
              (new_frame table start_cursor) in
  match r with
  | inl fr => leave_frame ZX_OK fr
  | inr (status, fr) => leave_frame status fr
  end.

Definition AddMapping_body (lower : MapWalk) (level : PageTableLevel) (mmu_flags : Z)
    (index : Z) (fr : Frame) : M (Frame + (zx_status_t * Frame)) :=
  let interm_flags := intermediate_flags in
  let term_flags := terminal_flags level mmu_flags in
  let ps := page_size level in
  let level_supports_large_pages := supports_page_size level in
  let c := fr_cursor fr in
  let* t := deref_table (fr_table fr) in
  let* e := read_entry t index in
  let pt_val := pte_val e in
  if IS_PAGE_PRESENT pt_val && IS_LARGE_PAGE pt_val then
    ret (inr (ZX_ERR_ALREADY_EXISTS, with_table fr t))
  else
    let level_valigned := page_aligned level (vaddr c) in
    let level_paligned := page_aligned level (paddr c) in
    if level_supports_large_pages && negb (IS_PAGE_PRESENT pt_val) && level_valigned
       && level_paligned && (size c >=? ps) then
      let* (clf, t) :=
        UpdateEntry (fr_clf fr) level (vaddr c) t index (paddr c) None
          (Z.lor term_flags X86_MMU_PG_PS) false in
      ret (inl {| fr_table := Some t; fr_cursor := advance_mapped ps c;
                  fr_clf := clf; fr_unmapped := fr_unmapped fr |})
    else
      let* created :=
        if negb (IS_PAGE_PRESENT pt_val) then
          let* m := _map_alloc_page in
          match m with
          | None => ret None
          | Some m =>
              let* (clf, t) :=
                UpdateEntry (fr_clf fr) level (vaddr c) t index (tbl_phys m) (Some m)
                  interm_flags false in
              add_pages 1;;
              ret (Some (clf, t))
          end
        else ret (Some (fr_clf fr, t)) in
      match created with
      | None => ret (inr (ZX_ERR_NO_MEMORY, with_table fr t))
      | Some (clf, t) =>
          let* e := read_entry t index in
          let* (status, next_table, cursor) :=
            lower (get_next_table_from_entry e) mmu_flags c in
          let t := link_next t index next_table in
          let fr' := {| fr_table := Some t; fr_cursor := cursor;
                        fr_clf := clf; fr_unmapped := fr_unmapped fr |} in
          if negb (status_is_ok status) then ret (inr (status, fr')) else ret (inl fr')
      end.

(** The [abort] auto-call of a frame above PT_L: it runs after the flusher
    of the frame is gone, and only when the walk did not reach
    [abort.cancel()]. *)
Definition AddMapping_abort (remove_here : RemoveWalk) (level : PageTableLevel)
    (start_cursor : MappingCursor) (table : option Table) (new_cursor : MappingCursor)
    : M (option Table) :=
  if level_eqb level top_level then
    let cursor := {| paddr := paddr start_cursor; vaddr := vaddr start_cursor;
                     size := wrap64 (size start_cursor - size new_cursor) |} in
    if size cursor >? 0 then
      let* (_, table, _) := remove_here table cursor in
      ret table
    else ret table
  else ret table.

Definition AddMapping_at (lower : MapWalk) (remove_here : RemoveWalk)
    (level : PageTableLevel) : MapWalk :=
  fun table mmu_flags start_cursor =>
    let index := vaddr_to_index level (vaddr start_cursor) in
    let* r := for_each_entry (entries_from index) (AddMapping_body lower level mmu_flags)
                (new_frame table start_cursor) in
    match r with
    | inl fr => leave_frame ZX_OK fr
    | inr (status, fr) =>
        let* (status, table, new_cursor) := leave_frame status fr in
        let* table := AddMapping_abort remove_here level start_cursor table new_cursor in
        ret (status, table, new_cursor)
    end.

Definition AddMapping (level : PageTableLevel) : MapWalk :=
  match level with
  | PT_L => AddMappingL0
  | PD_L => AddMapping_at AddMappingL0 (RemoveMapping PD_L) PD_L
  | PDP_L =>
      AddMapping_at (AddMapping_at AddMappingL0 (RemoveMapping PD_L) PD_L)
        (RemoveMapping PDP_L) PDP_L
  | PML4_L =>
      AddMapping_at
        (AddMapping_at (AddMapping_at AddMappingL0 (RemoveMapping PD_L) PD_L)
           (RemoveMapping PDP_L) PDP_L)
        (RemoveMapping PML4_L) PML4_L
  end.

(** ** UpdateMapping *)

Definition UpdateMappingL0_body (mmu_flags : Z) (index : Z) (fr : Frame)
    : M (Frame + unit) :=
  let term_flags := terminal_flags PT_L mmu_flags in
  let c := fr_cursor fr in
  let* t := deref_table (fr_table fr) in
  let* e := read_entry t index in
  let pt_val := pte_val e in
  let* (clf, t) :=
    if IS_PAGE_PRESENT pt_val then
      let* pa := lift_option (paddr_from_pte PT_L pt_val) in
      UpdateEntry (fr_clf fr) PT_L (vaddr c) t index pa None term_flags true
    else ret (fr_clf fr, t) in
  ret (inl {| fr_table := Some t; fr_cursor := advance PAGE_SIZE c;
              fr_clf := clf; fr_unmapped := fr_unmapped fr |}).

Definition UpdateMappingL0 : MapWalk := fun table mmu_flags start_cursor =>
  let index := vaddr_to_index PT_L (vaddr start_cursor) in
  let* r := for_each_entry (entries_from index) (UpdateMappingL0_body mmu_flags)
              (new_frame table start_cursor) in
  match r with
  | inl fr => leave_frame ZX_OK fr
  | inr _ => fault
  end.

Definition UpdateMapping_large (remove_here : RemoveWalk) (level : PageTableLevel)
    (mmu_flags : Z) (index : Z) (t : Table) (pt_val : Z) (fr : Frame)
    : M (Frame + Frame) :=
  let term_flags := terminal_flags level mmu_flags in
  let ps := page_size level in
  let c := fr_cursor fr in
  let vaddr_level_aligned := page_aligned level (vaddr c) in
  if vaddr_level_aligned && (size c >=? ps) then
    let* pa := lift_option (paddr_from_pte level pt_val) in
    let* (clf, t) :=
      UpdateEntry (fr_clf fr) level (vaddr c) t index pa None
        (Z.lor term_flags X86_MMU_PG_PS) true in
    ret (inl {| fr_table := Some t; fr_cursor := advance ps c;
                fr_clf := clf; fr_unmapped := fr_unmapped fr |})
  else
    let page_vaddr := Z.land (vaddr c) (wrap64 (Z.lnot (ps - 1))) in
    let* (status, t) := SplitLargePage level page_vaddr t index in
    if negb (status_is_ok status) then
      let cursor := {| paddr := 0; vaddr := vaddr c; size := ps |} in
      let* (_, table, _) := remove_here (Some t) cursor in
      ret (inr {| fr_table := table; fr_cursor := SkipEntry level c;
                  fr_clf := fr_clf fr; fr_unmapped := fr_unmapped fr |})
    else ret (inr (with_table fr t)).

Definition UpdateMapping_body (lower : MapWalk) (remove_here : RemoveWalk)
    (level : PageTableLevel) (mmu_flags : Z) (index : Z) (fr : Frame)
    : M (Frame + unit) :=
  let* t := deref_table (fr_table fr) in
  let* e := read_entry t index in
  let pt_val := pte_val e in
  if negb (IS_PAGE_PRESENT pt_val) then
    ret (inl {| fr_table := Some t; fr_cursor := SkipEntry level (fr_cursor fr);
                fr_clf := fr_clf fr; fr_unmapped := fr_unmapped fr |})
  else
    let* lp :=
      if IS_LARGE_PAGE pt_val
      then UpdateMapping_large remove_here level mmu_flags index t pt_val fr
      else ret (inr (with_table fr t)) in
    match lp with
    | inl fr' => ret (inl fr')
    | inr fr =>
        let* t := deref_table (fr_table fr) in
        let* e := read_entry t index in
        let* (status, next_table, cursor) :=
          lower (get_next_table_from_entry e) mmu_flags (fr_cursor fr) in
        let t := link_next t index next_table in
        if negb (status_is_ok status) then fault
        else
          ret (inl {| fr_table := Some t; fr_cursor := cursor;
                      fr_clf := fr_clf fr; fr_unmapped := fr_unmapped fr |})
    end.

Definition UpdateMapping_at (lower : MapWalk) (remove_here : RemoveWalk)
    (level : PageTableLevel) : MapWalk :=
  fun table mmu_flags start_cursor =>
    let index := vaddr_to_index level (vaddr start_cursor) in
    let* r := for_each_entry (entries_from index)
                (UpdateMapping_body lower remove_here level mmu_flags)
                (new_frame table start_cursor) in
    match r with
    | inl fr => leave_frame ZX_OK fr
    | inr _ => fault
    end.

Definition UpdateMapping (level : PageTableLevel) : MapWalk :=
  match level with
  | PT_L => UpdateMappingL0
  | PD_L => UpdateMapping_at UpdateMappingL0 (RemoveMapping PD_L) PD_L
  | PDP_L =>
      UpdateMapping_at (UpdateMapping_at UpdateMappingL0 (RemoveMapping PD_L) PD_L)
        (RemoveMapping PDP_L) PDP_L
  | PML4_L =>
      UpdateMapping_at
        (UpdateMapping_at (UpdateMapping_at UpdateMappingL0 (RemoveMapping PD_L) PD_L)
           (RemoveMapping PDP_L) PDP_L)
        (RemoveMapping PML4_L) PML4_L
  end.

(** ** The top-level API

    Each operation works on the root table [virt_]; [on_aspace] runs it on
    an address space.  The out-parameters [*mapped] and [*unmapped] carry
    [count] and are left out. *)

Definition Op : Type := option Table -> M (zx_status_t * option Table).

Definition on_aspace {A} (op : option Table -> M (A * option Table)) (pt : X86PageTableBase)
    : option (A * X86PageTableBase) :=
  match op (virt_ pt) (mach pt) with
  | Some ((a, table), m) => Some (a, {| virt_ := table; mach := m |})
  | None => None
  end.

Definition UnmapPages (vaddr count : Z) : Op := fun virt =>
  if negb (check_vaddr vaddr) then ret (ZX_ERR_INVALID_ARGS, virt)
  else if count =? 0 then ret (ZX_OK, virt)
  else
    emit EvLock;;
    let start := {| paddr := 0; vaddr := vaddr; size := wrap64 (count * PAGE_SIZE) |} in
    let* (_, virt, _) := RemoveMapping top_level virt start in
    emit EvUnlock;;
    ret (ZX_OK, virt).

(** [for (i = 0; i < count; ++i) if (!check_paddr(phys[i])) return ...]:
    [Some true] when every address passes, [None] when the array is read out
    of bounds. *)
Fixpoint check_paddrs (n : nat) (phys : list Z) : option bool :=
  match n with
  | O => Some true
  | S n' =>
      match phys with
      | p :: rest => if negb (check_paddr p) then Some false else check_paddrs n' rest
      | [] => None
      end
  end.

(** The mapping loop of MapPages from [idx]; it answers the status, the
    root and the value of [idx] when the loop was left. *)
Fixpoint MapPages_loop (n : nat) (idx : Z) (v : Z) (phys : list Z) (mmu_flags : Z)
    (virt : option Table) : M (zx_status_t * option Table * Z) :=
  match n with
  | O => ret (ZX_OK, virt, idx)
  | S n' =>
      let* p := lift_option (phys !! Z.to_nat idx) in
      let start := {| paddr := p; vaddr := v; size := PAGE_SIZE |} in
      let* (status, virt, _) := AddMapping top_level virt mmu_flags start in
      if negb (status_is_ok status) then ret (status, virt, idx)
      else MapPages_loop n' (idx + 1) (wrap64 (v + PAGE_SIZE)) phys mmu_flags virt
  end.

(** The [undo] auto-call of MapPages. *)
Definition MapPages_undo (vaddr idx : Z) (virt : option Table) : M (option Table) :=
  if idx >? 0 then
    let start := {| paddr := 0; vaddr := vaddr; size := wrap64 (idx * PAGE_SIZE) |} in
    let* (_, virt, _) := RemoveMapping top_level virt start in
    ret virt
  else ret virt.

Definition MapPages (vaddr : Z) (phys : list Z) (count : Z) (mmu_flags : Z) : Op :=
  fun virt =>
    if negb (check_vaddr vaddr) then ret (ZX_ERR_INVALID_ARGS, virt)
    else
      let* paddrs_ok := lift_option (check_paddrs (Z.to_nat count) phys) in
      if negb paddrs_ok then ret (ZX_ERR_INVALID_ARGS, virt)
      else if count =? 0 then ret (ZX_OK, virt)
      else if negb (allowed_flags mmu_flags) then ret (ZX_ERR_INVALID_ARGS, virt)
      else
        emit EvLock;;
        let* (status, virt, idx) :=
          MapPages_loop (Z.to_nat count) 0 vaddr phys mmu_flags virt in
        if negb (status_is_ok status) then
          let* virt := MapPages_undo vaddr idx virt in
          emit EvUnlock;;
          ret (status, virt)
        else
          emit EvUnlock;;
          ret (ZX_OK, virt).

Definition MapPagesContiguous (vaddr paddr count mmu_flags : Z) : Op := fun virt =>
  if negb (check_paddr paddr) then ret (ZX_ERR_INVALID_ARGS, virt)
  else if negb (check_vaddr vaddr) then ret (ZX_ERR_INVALID_ARGS, virt)
  else if count =? 0 then ret (ZX_OK, virt)
  else if negb (allowed_flags mmu_flags) then ret (ZX_ERR_INVALID_ARGS, virt)
  else
    emit EvLock;;
    let start := {| paddr := paddr; vaddr := vaddr; size := wrap64 (count * PAGE_SIZE) |} in
    let* (status, virt, _) := AddMapping top_level virt mmu_flags start in
    emit EvUnlock;;
    ret (status, virt).

Definition ProtectPages (vaddr count mmu_flags : Z) : Op := fun virt =>
  if negb (check_vaddr vaddr) then ret (ZX_ERR_INVALID_ARGS, virt)
  else if count =? 0 then ret (ZX_OK, virt)
  else if negb (allowed_flags mmu_flags) then ret (ZX_ERR_INVALID_ARGS, virt)
  else
    emit EvLock;;
    let start := {| paddr := 0; vaddr := vaddr; size := wrap64 (count * PAGE_SIZE) |} in
    let* (status, virt, _) := UpdateMapping top_level virt mmu_flags start in
    emit EvUnlock;;
    ret (status, virt).

(** QueryVaddr answers the status with [*paddr] and [*mmu_flags]; the
    [default:] of its switch panics. *)
Definition QueryVaddr (vaddr : Z)
    : option Table -> M (zx_status_t * Z * Z * option Table) := fun virt =>
  emit EvLock;;
  let* found := GetMapping top_level virt vaddr in
  match found with
  | MappingNotFound =>
      emit EvUnlock;;
      ret (ZX_ERR_NOT_FOUND, 0, 0, virt)
  | MappingFound ret_level last_valid_entry =>
      let* pa :=
        match ret_level with
        | PDP_L =>
            let* pa := lift_option (paddr_from_pte PDP_L last_valid_entry) in
            ret (Z.lor pa (Z.land vaddr PAGE_OFFSET_MASK_HUGE))
        | PD_L =>
            let* pa := lift_option (paddr_from_pte PD_L last_valid_entry) in
            ret (Z.lor pa (Z.land vaddr PAGE_OFFSET_MASK_LARGE))
        | PT_L =>
            let* pa := lift_option (paddr_from_pte PT_L last_valid_entry) in
            ret (Z.lor pa (Z.land vaddr PAGE_OFFSET_MASK_4KB))
        | PML4_L => fault
        end in
      let mmu_flags := pt_flags_to_mmu_flags last_valid_entry ret_level in
      emit EvUnlock;;
      ret (ZX_OK, pa, mmu_flags, virt)
  end.

End Walker.

(** ** A concrete address space for the examples

    An instance in the style of the regular x86 MMU page tables
    ([X86PageTableMmu]): four levels, large pages at PD_L and PDP_L,
    page-aligned canonical addresses, and the permission bits of
    arch/mmu.h.  [sample_env] keeps the cache-line flushes on. *)

Definition ARCH_MMU_FLAG_PERM_USER : Z := 4.
Definition ARCH_MMU_FLAG_PERM_READ : Z := 8.
Definition ARCH_MMU_FLAG_PERM_WRITE : Z := 16.
Definition ARCH_MMU_FLAG_PERM_EXECUTE : Z := 32.
Definition X86_MMU_PG_RW : Z := 0x2.
Definition X86_MMU_PG_U : Z := 0x4.
Definition X86_MMU_PG_NX : Z := 2 ^ 63.

Definition has_bits (x mask : Z) : bool := negb (Z.land x mask =? 0).

Definition sample_terminal_flags (level : PageTableLevel) (flags : Z) : Z :=
  Z.lor (Z.lor (if has_bits flags ARCH_MMU_FLAG_PERM_WRITE then X86_MMU_PG_RW else 0)
               (if has_bits flags ARCH_MMU_FLAG_PERM_USER then X86_MMU_PG_U else 0))
        (if has_bits flags ARCH_MMU_FLAG_PERM_EXECUTE then 0 else X86_MMU_PG_NX).

Definition sample_pt_flags_to_mmu_flags (flags : Z) (level : PageTableLevel) : Z :=
  Z.lor (Z.lor (Z.lor ARCH_MMU_FLAG_PERM_READ
                      (if has_bits flags X86_MMU_PG_RW then ARCH_MMU_FLAG_PERM_WRITE else 0))
               (if has_bits flags X86_MMU_PG_U then ARCH_MMU_FLAG_PERM_USER else 0))
        (if has_bits flags X86_MMU_PG_NX then 0 else ARCH_MMU_FLAG_PERM_EXECUTE).

Definition sample_env : PageTableEnv := {|
  top_level := PML4_L;
  allowed_flags f := has_bits f ARCH_MMU_FLAG_PERM_READ;
  check_paddr p := (Z.land p (PAGE_SIZE - 1) =? 0) && (p <? 2 ^ 52);
  check_vaddr v := (0 <=? v) && (v <? 2 ^ 64) && (Z.land v (PAGE_SIZE - 1) =? 0)
                   && ((v <? 2 ^ 47) || (2 ^ 64 - 2 ^ 47 <=? v));
  supports_page_size l := match l with PML4_L => false | _ => true end;
  intermediate_flags := Z.lor X86_MMU_PG_RW X86_MMU_PG_U;
  terminal_flags := sample_terminal_flags;
  split_flags l f := match l with PD_L => Z.land f (Z.lnot X86_MMU_PG_PS) | _ => f end;
  pt_flags_to_mmu_flags := sample_pt_flags_to_mmu_flags;
  needs_cache_flushes := true;
  is_kernel_address v := 2 ^ 64 - 2 ^ 39 <=? v;
  clflush_line_size := 64;
  physmap_base := 2 ^ 64 - 2 ^ 39
|}.

Definition RW : Z := Z.lor ARCH_MMU_FLAG_PERM_READ ARCH_MMU_FLAG_PERM_WRITE.

(** An address space with an empty root table at physical address 0x1000,
    [pages_] = 0 and the allocator answers [answers]. *)
Definition empty_aspace (answers : list (option Z)) : X86PageTableBase :=
  {| virt_ := Some (zero_table 0x1000);
     mach := {| pages_ := 0; pmm := answers; trace := [] |} |}.

(** Twenty free frames from 0x100000 on. *)
Definition sample_frames : list (option Z) :=
  map (fun i => Some (0x100000 + PAGE_SIZE * Z.of_nat i)) (seq 0 20).

(** ** Vocabulary of the properties *)

Definition is_clflush (e : Event) : bool :=
  match e with EvClflush _ => true | _ => false end.

Definition is_tlb_invalidate (e : Event) : bool :=
  match e with EvTlbInvalidate _ _ _ _ => true | _ => false end.

Definition is_lock_event (e : Event) : bool :=
  match e with EvLock | EvUnlock => true | _ => false end.

Definition is_alloc (e : Event) : bool :=
  match e with EvAlloc _ => true | _ => false end.

(** A flusher holds a line whose clflush is still due. *)
Definition flush_pending `{PageTableEnv} (clf : CacheLineFlusher) : bool :=
  negb (dirty_line_ clf =? 0) && perform_invalidations_ clf.

(** The two stores to a PTE: [UpdateEntry] with its arguments, and
    [UnmapEntry]. *)
Inductive PteStore :=
  | StoreUpdate (paddr : Z) (next : option Table) (flags : Z)
  | StoreUnmap.

Definition stored_value (op : PteStore) : Z :=
  match op with
  | StoreUpdate paddr _ flags => Z.lor (Z.lor paddr flags) X86_MMU_PG_P
  | StoreUnmap => 0
  end.

Definition pte_store `{PageTableEnv} (op : PteStore) (flusher : CacheLineFlusher)
    (level : PageTableLevel) (vaddr : Z) (t : Table) (index : Z) (was_terminal : bool)
    : M (CacheLineFlusher * Table) :=
  match op with
  | StoreUpdate paddr next flags =>
      UpdateEntry flusher level vaddr t index paddr next flags was_terminal
  | StoreUnmap => UnmapEntry flusher level vaddr t index was_terminal
  end.

(** What a store to entry [index] of [t] adds to the trace.  Over a present
    entry: the store, then cache-line flushes only, the last of them the
    flush of the line of the entry when flushes are performed, then the one
    invalidation of ([level], [vaddr]), with no flush left pending.  Over an
    absent entry: the store and cache-line flushes, no invalidation. *)
Definition store_ordered `{PageTableEnv} (op : PteStore) (flusher : CacheLineFlusher)
    (level : PageTableLevel) (vaddr : Z) (t : Table) (index : Z) (was_terminal : bool)
    (s s' : Machine) (flusher' : CacheLineFlusher) : Prop :=
  exists olde flushes,
    tbl_ents t !! Z.to_nat index = Some olde /\
    forallb is_clflush flushes = true /\
    let line := Z.land (entry_addr t index) cl_mask_ in
    if IS_PAGE_PRESENT (pte_val olde) then
      trace s' = trace s ++ EvStore (entry_addr t index) (stored_value op) :: flushes ++
                   [EvTlbInvalidate level vaddr (is_kernel_address vaddr) was_terminal] /\
      flush_pending flusher' = false /\
      (perform_invalidations_ flusher = true -> line <> 0 ->
       last flushes = Some (EvClflush line))
    else
      trace s' = trace s ++ EvStore (entry_addr t index) (stored_value op) :: flushes.

(** The new events of [s'] over [s] are walker events: no lock event. *)
Definition walk_ext (s s' : Machine) : Prop :=
  exists evs, trace s' = trace s ++ evs /\
              forallb (fun e => negb (is_lock_event e)) evs = true.

(** The lock was taken first and released last, once. *)
Definition lock_held_across (s s' : Machine) : Prop :=
  exists evs, trace s' = trace s ++ EvLock :: evs ++ [EvUnlock] /\
              forallb (fun e => negb (is_lock_event e)) evs = true.

(** An operation answers [status] at once: the tables and the machine are
    left as they were, and the lock is not taken. *)
Definition answers_at_once {A} (m : M (A * option Table)) (status : A)
    (virt : option Table) (s : Machine) : Prop :=
  m s = Some ((status, virt), s).

(** ** Running sequences of calls on the sample address space *)

Definition and_then {A B} (r : option (A * X86PageTableBase))
    (f : X86PageTableBase -> option (B * X86PageTableBase)) : option (B * X86PageTableBase) :=
  match r with Some (_, pt) => f pt | None => None end.

(** The status of a call and the value of [pages_] after it. *)
Definition outcome (r : option (zx_status_t * X86PageTableBase)) : option (zx_status_t * Z) :=
  option_map (fun x => (fst x, pages_ (mach (snd x)))) r.

(** Scenario 2 of the specification: the 2 MiB range at 0x200000 mapped
    by one large page, here with an allocator that has two frames only. *)
Definition one_large_page (answers : list (option Z))
    : option (zx_status_t * X86PageTableBase) :=
  on_aspace (MapPagesContiguous (env := sample_env) 0x200000 0x800000 512 RW)
    (empty_aspace answers).

(** A PD table whose entry 1 points at an empty PT table. *)
Definition pd_with_empty_pt : Table :=
  write_entry (zero_table 0x2000) 1 (MkEntry 0x3007 (Some (zero_table 0x3000))).

(** The end of the range has not moved and the size has not grown. *)
Definition cursor_within (start c : MappingCursor) : Prop :=
  wrap64 (vaddr c + size c) = wrap64 (vaddr start + size start) /\ size c <= size start.

(** A computation keeps the relation [R] between the machine it starts
    from and the machine it returns. *)
Definition preserved (R : Machine -> Machine -> Prop) {A} (m : M A) : Prop :=
  forall s a s', m s = Some (a, s') -> R s s'.

(** ** Cursors of a walk *)

(** A cursor as the top-level API builds it: 64-bit fields, a page-aligned
    vaddr and a size that is a multiple of PAGE_SIZE. *)
Definition cursor_ok (c : MappingCursor) : Prop :=
  0 <= vaddr c < 2 ^ 64 /\ 0 <= size c < 2 ^ 64 /\
  vaddr c mod PAGE_SIZE = 0 /\ size c mod PAGE_SIZE = 0.

(** Two cursors at the same place of the range. *)
Definition same_pos (c c' : MappingCursor) : Prop :=
  vaddr c = vaddr c' /\ size c = size c'.

(** The cursor moved to the next multiple of [span], or to the end of its
    range when that comes first. *)
Definition reach (span : Z) (c : MappingCursor) : MappingCursor :=
  let k := Z.min (size c) (span - vaddr c mod span) in
  {| paddr := paddr c; vaddr := wrap64 (vaddr c + k); size := size c - k |}.

(** The bytes one table of [level] spans. *)
Definition table_span (level : PageTableLevel) : Z := NO_OF_PT_ENTRIES * page_size level.

(** The frames a loop holds between iterations, from [fr] on. *)
Inductive loop_reaches {R : Type} (body : Z -> Frame -> M (Frame + R))
    : nat -> Frame -> Machine -> nat -> Frame -> Machine -> Prop :=
  | reaches_here n fr s : loop_reaches body n fr s n fr s
  | reaches_next n fr s fr1 s1 n' fr' s' :
      size (fr_cursor fr) <> 0 ->
      body (NO_OF_PT_ENTRIES - Z.of_nat (S n)) fr s = Some (inl fr1, s1) ->
      loop_reaches body n fr1 s1 n' fr' s' ->
      loop_reaches body (S n) fr s n' fr' s'.

(** The loop body of each walker at each level. *)
Definition RemoveMapping_loop `{PageTableEnv} (level : PageTableLevel)
    : Z -> Frame -> M (Frame + unit) :=
  match level with
  | PT_L => RemoveMappingL0_body
  | _ => RemoveMapping_body (RemoveMapping (lower_level level)) level
  end.

Definition AddMapping_loop `{PageTableEnv} (level : PageTableLevel) (mmu_flags : Z)
    : Z -> Frame -> M (Frame + (zx_status_t * Frame)) :=
  match level with
  | PT_L => AddMappingL0_body mmu_flags
  | _ => AddMapping_body (AddMapping (lower_level level)) level mmu_flags
  end.

Definition UpdateMapping_loop `{PageTableEnv} (level : PageTableLevel) (mmu_flags : Z)
    : Z -> Frame -> M (Frame + unit) :=
  match level with
  | PT_L => UpdateMappingL0_body mmu_flags
  | _ => UpdateMapping_body (UpdateMapping (lower_level level)) (RemoveMapping level)
           level mmu_flags
  end.

(** The cursor of an early return of the mapping walk. *)
Definition status_cursor (x : zx_status_t * Frame) : MappingCursor := fr_cursor (snd x).

(** Every step of a loop body, and every walk, takes a well-formed cursor to
    a well-formed cursor within it. *)
Definition steps_ok `{PageTableEnv} {R} (cur : R -> MappingCursor) (body : Z -> Frame -> M (Frame + R)) : Prop :=
  forall i fr s r s', body i fr s = Some (r, s') ->
    cursor_ok (fr_cursor fr) -> size (fr_cursor fr) <> 0 ->
    let c' := match r with inl fr' => fr_cursor fr' | inr x => cur x end in
    cursor_ok c' /\ cursor_within (fr_cursor fr) c'.

Definition remove_ok `{PageTableEnv} (W : RemoveWalk) : Prop :=
  forall table c s b t c' s', W table c s = Some ((b, t, c'), s') -> cursor_ok c ->
    cursor_ok c' /\ cursor_within c c'.

Definition map_ok `{PageTableEnv} (W : MapWalk) : Prop :=
  forall table f c s st t c' s', W table f c s = Some ((st, t, c'), s') -> cursor_ok c ->
    cursor_ok c' /\ cursor_within c c'.


(** ** MapPages, page by page *)

(** The cursor of the [k]-th single-page call of MapPages. *)
Definition nth_page_cursor (vaddr : Z) (p : Z) (k : nat) : MappingCursor :=
  {| paddr := p; vaddr := wrap64 (vaddr + Z.of_nat k * PAGE_SIZE); size := PAGE_SIZE |}.

(** The first [k] pages of [phys] were mapped, each by one single-page
    AddMapping call at the top level that answered ZX_OK. *)
Inductive maps_first `{PageTableEnv} (vaddr : Z) (phys : list Z) (mmu_flags : Z)
    : nat -> option Table -> Machine -> option Table -> Machine -> Prop :=
  | maps_none virt s : maps_first vaddr phys mmu_flags 0 virt s virt s
  | maps_more k virt s virt1 s1 p c virt2 s2 :
      maps_first vaddr phys mmu_flags k virt s virt1 s1 ->
      phys !! k = Some p ->
      AddMapping top_level virt1 mmu_flags (nth_page_cursor vaddr p k) s1
        = Some ((ZX_OK, virt2, c), s2) ->
      maps_first vaddr phys mmu_flags (S k) virt s virt2 s2.

(** The machine after the lock was taken, and after it was released. *)
Definition locked (s : Machine) : Machine :=
  {| pages_ := pages_ s; pmm := pmm s; trace := trace s ++ [EvLock] |}.
Definition unlocked (s : Machine) : Machine :=
  {| pages_ := pages_ s; pmm := pmm s; trace := trace s ++ [EvUnlock] |}.

(** ** Mapping one page *)

(** The allocator hands out page-aligned frames. *)
Definition frames_aligned (answers : list (option Z)) : Prop :=
  Forall (fun o => forall pa, o = Some pa -> pa mod PAGE_SIZE = 0) answers.

(** The entry stored for a 4 KiB page at [p] with [mmu_flags]. *)
Definition leaf_pte `{PageTableEnv} (p mmu_flags : Z) : Z :=
  Z.lor (Z.lor p (terminal_flags PT_L mmu_flags)) X86_MMU_PG_P.

(** A mapping walk of one page that answers ZX_OK leaves the page where
    the lookup [G] finds it. *)
Definition maps_one `{PageTableEnv} (W : MapWalk) (G : option Table -> Z -> M Mapping) : Prop :=
  forall table f p v s t' c' s',
    W table f {| paddr := p; vaddr := v; size := PAGE_SIZE |} s = Some ((ZX_OK, t', c'), s') ->
    frames_aligned (pmm s) ->
    table <> None /\ size c' = 0 /\
    forall s2, G t' v s2 = Some (MappingFound PT_L (leaf_pte p f), s2).

(** ** The position of a cursor in its table *)

(** The cursor [c] of the loop of a walk at [level] that started at [c0],
    when [n] entries of the table are left: it is [c0] moved forward by
    some [k] bytes, and unless the range is exhausted it stands at the
    first byte of the entry of the loop index (or, before the first
    iteration, anywhere inside it). *)
Definition at_index (level : PageTableLevel) (c0 : MappingCursor) (n : nat)
    (c : MappingCursor) : Prop :=
  exists k,
    0 <= k <= Z.min (size c0) (table_span level - vaddr c0 mod table_span level) /\
    vaddr c = wrap64 (vaddr c0 + k) /\ size c = size c0 - k /\ cursor_ok c /\
    (size c = 0 \/
     vaddr c0 mod table_span level + k = (NO_OF_PT_ENTRIES - Z.of_nat n) * page_size level \/
     (k = 0 /\ NO_OF_PT_ENTRIES - Z.of_nat n = vaddr_to_index level (vaddr c0))).

(** A walk over a null table returns only when its range is empty, and
    then changes nothing. *)
Definition remove_none `{PageTableEnv} (W : RemoveWalk) : Prop :=
  forall c s r s', W None c s = Some (r, s') ->
    size c = 0 /\ r = (false, None, c) /\ s' = s.

(** An unmap walk of a table of [level] hands back its cursor moved to the
    end of the table, or to the end of the range when that comes first. *)
Definition remove_reach `{PageTableEnv} (level : PageTableLevel) (W : RemoveWalk) : Prop :=
  forall table c s b t c' s', W table c s = Some ((b, t, c'), s') -> cursor_ok c ->
    c' = reach (table_span level) c.

(** ** Unmapping twice *)

(** An unmap walk of a table hands back a table at the same frame. *)
Definition remove_some `{PageTableEnv} (W : RemoveWalk) : Prop :=
  forall t c s b t' c' s', W (Some t) c s = Some ((b, t', c'), s') -> cursor_ok c ->
    exists t1, t' = Some t1 /\ tbl_phys t1 = tbl_phys t.

(** Walking again over the table an unmap walk handed back, from the same
    cursor, changes nothing: no store, no event, nothing unmapped, the same
    cursor at the end. *)
Definition settled `{PageTableEnv} (W : RemoveWalk) : Prop :=
  forall table c s b t' c' s', W table c s = Some ((b, t', c'), s') -> cursor_ok c ->
    forall s2, W t' c s2 = Some ((false, t', c'), s2).

(** What an unmap walk leaves of an entry it went over with the cursor [c]:
    nothing, or a table that is not covered as a whole and on which the
    walk of the lower level has settled. *)
Definition quiet_entry `{PageTableEnv} (lower : RemoveWalk) (level : PageTableLevel)
    (e : Entry) (c c1 : MappingCursor) : Prop :=
  (IS_PAGE_PRESENT (pte_val e) = false /\ c1 = SkipEntry level c) \/
  (IS_PAGE_PRESENT (pte_val e) = true /\ IS_LARGE_PAGE (pte_val e) = false /\
   page_aligned level (vaddr c) && (size c >=? page_size level) = false /\
   exists sub, pte_next e = Some sub /\
               forall s2, lower (Some sub) c s2 = Some ((false, Some sub, c1), s2)).

(** What the walk of a last-level table leaves of an entry. *)
Definition quiet_leaf (e : Entry) (c c1 : MappingCursor) : Prop :=
  IS_PAGE_PRESENT (pte_val e) = false /\ c1 = advance PAGE_SIZE c.

(** [t'] is [t] with at most the entry [i] rewritten. *)
Definition touches_only (i : Z) (t t' : Table) : Prop :=
  tbl_phys t' = tbl_phys t /\
  forall j, j <> Z.to_nat i -> tbl_ents t' !! j = tbl_ents t !! j.

(** The two tables are at the same frame and agree on the entries below
    [i]. *)
Definition same_below (i : Z) (ot ot' : option Table) : Prop :=
  match ot, ot' with
  | Some t, Some t' =>
      tbl_phys t' = tbl_phys t /\
      forall j, Z.of_nat j < i -> tbl_ents t' !! j = tbl_ents t !! j
  | None, None => True
  | _, _ => False
  end.

(** The properties of an unmap walk of a table of [level] that the walk
    of the level above relies on. *)
Definition remove_good `{PageTableEnv} (level : PageTableLevel) (W : RemoveWalk) : Prop :=
  remove_ok W /\ remove_none W /\ remove_reach level W /\ remove_some W /\ settled W.

(** ** Counting the page tables *)

(** A present entry of a table of [level] that is not terminal: it points
    to a table of the level below. *)
Definition is_intermediate (level : PageTableLevel) (pt_val : Z) : bool :=
  negb (level_eqb level PT_L) && IS_PAGE_PRESENT pt_val && negb (IS_LARGE_PAGE pt_val).

(** The number of present non-terminal entries reachable from the table
    [t] of [level], through its [NO_OF_PT_ENTRIES] entries. *)
Fixpoint count_tables (level : PageTableLevel) (t : Table) {struct t} : Z :=
  match t with
  | MkTable _ ents =>
      (fix go (n : nat) (l : list Entry) {struct l} : Z :=
         match l, n with
         | e :: l', S n' =>
             match e with
             | MkEntry pt_val next =>
                 (if is_intermediate level pt_val then
                    1 + match next with
                        | Some sub => count_tables (lower_level level) sub
                        | None => 0
                        end
                  else 0) + go n' l'
             end
         | _, _ => 0
         end) (Z.to_nat NO_OF_PT_ENTRIES) ents
  end.

(** What one entry adds to the count. *)
Definition entry_tables (level : PageTableLevel) (e : Entry) : Z :=
  if is_intermediate level (pte_val e) then
    1 + match pte_next e with
        | Some sub => count_tables (lower_level level) sub
        | None => 0
        end
  else 0.

Definition sum_Z (l : list Z) : Z := foldr Z.add 0 l.

(** The count from a root that may be null. *)
Definition count_from (level : PageTableLevel) (table : option Table) : Z :=
  match table with Some t => count_tables level t | None => 0 end.

(** [pages_] minus the tables counted, as a 64-bit value: what a walk
    keeps. *)
Definition excess (level : PageTableLevel) (table : option Table) (s : Machine) : Z :=
  wrap64 (pages_ s - count_from level table).

(** The allocator keeps handing out page-aligned frames. *)
Definition aligned_kept (s s' : Machine) : Prop :=
  frames_aligned (pmm s) -> frames_aligned (pmm s').

(** A walk changes [pages_] by as much as the number of tables below its
    table. *)
Definition remove_counted `{PageTableEnv} (level : PageTableLevel) (W : RemoveWalk) : Prop :=
  forall table c s b t' c' s', W table c s = Some ((b, t', c'), s') ->
    cursor_ok c -> frames_aligned (pmm s) ->
    excess level t' s' = excess level table s /\ frames_aligned (pmm s').

Definition map_counted `{PageTableEnv} (level : PageTableLevel) (W : MapWalk) : Prop :=
  forall table f c s st t' c' s', W table f c s = Some ((st, t', c'), s') ->
    cursor_ok c -> frames_aligned (pmm s) ->
    excess level t' s' = excess level table s /\ frames_aligned (pmm s') /\
    (table = None -> t' = None).

(** The entries of the table a walk handed back are all absent. *)
Definition all_absent (table : option Table) : Prop :=
  exists t, table = Some t /\
    forall j, (j < Z.to_nat NO_OF_PT_ENTRIES)%nat ->
      exists e, tbl_ents t !! j = Some e /\ IS_PAGE_PRESENT (pte_val e) = false.

(** An unmap walk whose range covers the whole table leaves no entry. *)
Definition remove_clears `{PageTableEnv} (level : PageTableLevel) (W : RemoveWalk) : Prop :=
  forall t c s b t' c' s', W (Some t) c s = Some ((b, t', c'), s') ->
    cursor_ok c -> vaddr c mod table_span level = 0 -> table_span level <= size c ->
    all_absent t'.

(** [pages_] holds a 64-bit value. *)
Definition pages_in_range (s : Machine) : Prop := 0 <= pages_ s < 2 ^ 64.

Definition range_kept (s s' : Machine) : Prop := pages_in_range s -> pages_in_range s'.

(** The calls of the top-level API that change an address space. *)
Inductive Call :=
  | CallMapPages (vaddr : Z) (phys : list Z) (count : Z) (mmu_flags : Z)
  | CallMapPagesContiguous (vaddr paddr count mmu_flags : Z)
  | CallUnmapPages (vaddr count : Z)
  | CallProtectPages (vaddr count mmu_flags : Z).

Definition run_call `{PageTableEnv} (call : Call) : Op :=
  match call with
  | CallMapPages vaddr phys count mmu_flags => MapPages vaddr phys count mmu_flags
  | CallMapPagesContiguous vaddr paddr count mmu_flags =>
      MapPagesContiguous vaddr paddr count mmu_flags
  | CallUnmapPages vaddr count => UnmapPages vaddr count
  | CallProtectPages vaddr count mmu_flags => ProtectPages vaddr count mmu_flags
  end.

(** A sequence of calls on one address space, whatever each one answers. *)
Fixpoint run_calls `{PageTableEnv} (calls : list Call) (pt : X86PageTableBase)
    : option X86PageTableBase :=
  match calls with
  | [] => Some pt
  | call :: rest =>
      match on_aspace (run_call call) pt with
      | Some (_, pt') => run_calls rest pt'
      | None => None
      end
  end.

(** [pages_] is the number of present non-terminal entries reachable from
    the root. *)
Definition pages_counted `{PageTableEnv} (pt : X86PageTableBase) : Prop :=
  pages_ (mach pt) = count_from top_level (virt_ pt).

(** ** Walks that allocate nothing *)

Definition is_free (e : Event) : bool :=
  match e with EvFree _ => true | _ => false end.

(** The events of a store into a page table entry. *)
Definition is_entry_event (e : Event) : bool :=
  match e with
  | EvStore _ _ | EvClflush _ | EvTlbInvalidate _ _ _ _ => true
  | _ => false
  end.

(** Between [s] and [s'] the allocator and [pages_] were left alone, and
    only entries were stored. *)
Definition entries_only (s s' : Machine) : Prop :=
  pages_ s' = pages_ s /\ pmm s' = pmm s /\
  exists evs, trace s' = trace s ++ evs /\ forallb is_entry_event evs = true.

(** Unless an allocation was attempted between [s] and [s'], [pages_]
    and the allocator are as they were and no frame was freed. *)
Definition quiet_unless_alloc (s s' : Machine) : Prop :=
  exists evs, trace s' = trace s ++ evs /\
    (existsb is_alloc evs = false ->
     pages_ s' = pages_ s /\ pmm s' = pmm s /\ existsb is_free evs = false).

(** ** What an unmap walk leaves mapped *)

(** The lookup [G] finds nothing at the addresses the walk [W] went
    over. *)
Definition remove_unmaps `{PageTableEnv} (W : RemoveWalk)
    (G : option Table -> Z -> M Mapping) : Prop :=
  forall table c s b t' c' s', W table c s = Some ((b, t', c'), s') -> cursor_ok c ->
    forall a s2, vaddr c <= a < vaddr c + (size c - size c') ->
      G t' a s2 = Some (MappingNotFound, s2).

(** Where a mapping walk of a table of [level] stops: at the end of the
    table or of the range when it answers ZX_OK, and in any case not
    beyond the end of the table; and what it answers. *)
Definition map_moves `{PageTableEnv} (level : PageTableLevel) (W : MapWalk) : Prop :=
  forall table f c s st t c' s', W table f c s = Some ((st, t, c'), s') -> cursor_ok c ->
    (st = ZX_OK -> same_pos c' (reach (table_span level) c)) /\
    size c - size c' <= table_span level - vaddr c mod table_span level /\
    (st = ZX_OK \/ st = ZX_ERR_NO_MEMORY \/ st = ZX_ERR_ALREADY_EXISTS).

(** The frames the allocator handed out, and the frames given back, in a
    run of events. *)
Fixpoint allocated (evs : list Event) : Z :=
  match evs with
  | [] => 0
  | EvAlloc (Some _) :: rest => 1 + allocated rest
  | _ :: rest => allocated rest
  end.

Fixpoint freed (evs : list Event) : Z :=
  match evs with
  | [] => 0
  | EvFree _ :: rest => 1 + freed rest
  | _ :: rest => freed rest
  end.

(** Between [s] and [s'], [pages_] went up by the frames allocated and
    down by the frames freed, as a 64-bit counter. *)
Definition accounted (s s' : Machine) : Prop :=
  exists evs, trace s' = trace s ++ evs /\
    wrap64 (pages_ s') = wrap64 (pages_ s + allocated evs - freed evs).

(** * Part II: properties *)

Lemma bind_inv {A B} (m : M A) (k : A -> M B) s r :
  bind m k s = Some r -> exists a s1, m s = Some (a, s1) /\ k a s1 = Some r.
Proof.
  unfold bind. destruct (m s) as [[a s1]|]; [|discriminate]. eauto.
Qed.

Lemma lift_option_inv {A} (o : option A) s r :
  lift_option o s = Some r -> o = Some (fst r) /\ snd r = s.
Proof.
  destruct o; simpl; [|discriminate]. unfold ret. intros H; inv H. auto.
Qed.

(** One step of inversion of a monadic computation that returned. *)
Ltac minv1 :=
  match goal with
  | H : bind _ _ _ = Some _ |- _ =>
      apply bind_inv in H; destruct H as (? & ? & ? & H)
  | H : ret _ _ = Some _ |- _ => unfold ret in H; inv H
  | H : fault _ = Some _ |- _ => discriminate H
  | H : emit _ _ = Some _ |- _ => unfold emit in H; inv H
  | H : add_pages _ _ = Some _ |- _ => unfold add_pages in H; inv H
  | H : lift_option _ _ = Some _ |- _ =>
      apply lift_option_inv in H; cbn [fst snd] in H; destruct H as [H ?]; subst
  | H : (let (_, _) := ?x in _) _ = Some _ |- _ => destruct x
  | H : (match ?x with (_, _) => _ end) _ = Some _ |- _ => destruct x
  | H : (match ?x with Some _ => _ | None => _ end) _ = Some _ |- _ => destruct x eqn:?
  | H : (match ?x with inl _ => _ | inr _ => _ end) _ = Some _ |- _ => destruct x eqn:?
  | H : (if ?b then _ else _) _ = Some _ |- _ => destruct b eqn:?
  | H : Some _ = Some _ |- _ => inv H
  | H : None = Some _ |- _ => discriminate H
  | H : (_, _) = (_, _) |- _ => inv H
  end.

Ltac minv := repeat (minv1; cbn beta iota in * ).

Section Properties.
Context {env : PageTableEnv}.

(** *** The flusher *)

Lemma ForceFlush_spec clf s clf' s' :
  ForceFlush clf s = Some (clf', s') ->
  flush_pending clf' = false /\
  perform_invalidations_ clf' = perform_invalidations_ clf /\
  pages_ s' = pages_ s /\ pmm s' = pmm s /\
  trace s' = trace s ++ (if flush_pending clf then [EvClflush (dirty_line_ clf)] else []).
Proof.
  unfold ForceFlush, flush_pending. intros H.
  destruct (negb (dirty_line_ clf =? 0) && perform_invalidations_ clf) eqn:E; minv; simpl.
  - repeat split; auto.
  - rewrite E, app_nil_r. repeat split; auto; destruct s'; reflexivity.
Qed.

Lemma FlushPtEntry_spec clf entry s clf' s' :
  FlushPtEntry clf entry s = Some (clf', s') ->
  dirty_line_ clf' = Z.land entry cl_mask_ /\
  perform_invalidations_ clf' = perform_invalidations_ clf /\
  pages_ s' = pages_ s /\ pmm s' = pmm s /\
  exists evs, trace s' = trace s ++ evs /\ forallb is_clflush evs = true.
Proof.
  unfold FlushPtEntry. intros H.
  destruct (negb (Z.land entry cl_mask_ =? dirty_line_ clf)) eqn:E; minv; simpl.
  - match goal with H : ForceFlush _ _ = _ |- _ =>
      apply ForceFlush_spec in H; destruct H as (_ & Hp & Hpg & Hpm & Ht) end.
    repeat split; auto. eexists; split; [exact Ht|]. destruct (flush_pending clf); reflexivity.
  - apply negb_false_iff, Z.eqb_eq in E. repeat split; auto.
    exists []. rewrite app_nil_r. auto.
Qed.

Lemma flush_then_invalidate (v : Z) clf0 clf1 s0 s1 s2 level vaddr wt
    (r : CacheLineFlusher * Table) (t' : Table) :
  FlushPtEntry clf0 v s0 = Some (clf1, s1) ->
  (let* flusher := ForceFlush clf1 in
   TlbInvalidatePage level vaddr (is_kernel_address vaddr) wt;; ret (flusher, t')) s1
    = Some (r, s2) ->
  exists flushes,
    forallb is_clflush flushes = true /\
    trace s2 = trace s0 ++ flushes ++
                 [EvTlbInvalidate level vaddr (is_kernel_address vaddr) wt] /\
    flush_pending (fst r) = false /\
    (perform_invalidations_ clf0 = true -> Z.land v cl_mask_ <> 0 ->
     last flushes = Some (EvClflush (Z.land v cl_mask_))).
Proof.
  intros H1 H2. apply FlushPtEntry_spec in H1.
  destruct H1 as (Hd & Hp & _ & _ & evs & Ht & Hc).
  unfold TlbInvalidatePage in H2. minv.
  match goal with H : ForceFlush _ _ = _ |- _ =>
    apply ForceFlush_spec in H; destruct H as (Hpend & _ & _ & _ & Ht2) end.
  simpl. exists (evs ++ (if flush_pending clf1 then [EvClflush (dirty_line_ clf1)] else [])).
  split; [|split; [|split]].
  - rewrite forallb_app, Hc. destruct (flush_pending clf1); reflexivity.
  - rewrite Ht2, Ht, <- !app_assoc. reflexivity.
  - exact Hpend.
  - intros Hperf Hline. unfold flush_pending. rewrite Hd, Hp, Hperf.
    destruct (Z.land v cl_mask_ =? 0) eqn:E; [apply Z.eqb_eq in E; contradiction|].
    simpl. rewrite last_snoc. reflexivity.
Qed.

(** C1.  Every PTE store made through UpdateEntry or UnmapEntry: over a
    present old entry the cache-line flush is forced before the one TLB
    invalidation of (level, vaddr), which ends the store with no flush
    pending; over an absent old entry no TLB invalidation is issued. *)
Theorem C1_flush_precedes_invalidation (op : PteStore) flusher level vaddr t index
    was_terminal s flusher' t' s' :
  pte_store op flusher level vaddr t index was_terminal s = Some ((flusher', t'), s') ->
  store_ordered op flusher level vaddr t index was_terminal s s' flusher'.
Proof.
  intros H. unfold store_ordered.
  destruct op as [pa next flags|]; simpl in H; unfold UpdateEntry, UnmapEntry in H;
    apply bind_inv in H; destruct H as (olde & s1 & Hr & H);
    unfold read_entry in Hr; apply lift_option_inv in Hr; simpl in Hr;
    destruct Hr as [Hr ->];
    apply bind_inv in H; destruct H as ([] & s2 & He & H); unfold emit in He; inv He;
    apply bind_inv in H; destruct H as (clf1 & s3 & Hf & H);
    (destruct (IS_PAGE_PRESENT (pte_val olde)) eqn:Ep;
     [ destruct (flush_then_invalidate _ _ _ _ _ _ _ _ _ _ _ Hf H)
         as (flushes & Hc & Ht & Hpend & Hlast);
       exists olde, flushes; rewrite Ep; simpl in *;
       repeat split; auto; rewrite Ht, <- app_assoc; reflexivity
     | apply FlushPtEntry_spec in Hf; destruct Hf as (_ & _ & _ & _ & evs & Ht & Hc);
       minv; exists olde, evs; rewrite Ep; simpl in *;
       repeat split; auto; rewrite Ht, <- app_assoc; reflexivity ]).
Qed.

(** *** Relations between machine states that every walker preserves

    [R] is a preorder on machine states that holds across each primitive
    step of a walk: an event of the walker (never a lock event), a change
    of [pages_], a call of the allocator. *)

Section Preserved.
Variable R : Machine -> Machine -> Prop.
Hypothesis R_refl : forall s, R s s.
Hypothesis R_trans : forall s1 s2 s3, R s1 s2 -> R s2 s3 -> R s1 s3.
Hypothesis R_emit : forall e s,
  is_lock_event e = false -> is_alloc e = false ->
  R s {| pages_ := pages_ s; pmm := pmm s; trace := trace s ++ [e] |}.
Hypothesis R_pages : forall n s,
  R s {| pages_ := wrap64 (pages_ s + n); pmm := pmm s; trace := trace s |}.
Hypothesis R_alloc : forall s a s', pmm_alloc_kpage s = Some (a, s') -> R s s'.

Abbreviation preserves := (preserved R).

Lemma preserves_ret {A} (a : A) : preserves (ret a).
Proof. intros s a' s' H. minv. apply R_refl. Qed.

Lemma preserves_fault {A} : preserves (@fault A).
Proof. intros s a' s' H. discriminate. Qed.

Lemma preserves_bind {A B} (m : M A) (k : A -> M B) :
  preserves m -> (forall a, preserves (k a)) -> preserves (bind m k).
Proof.
  intros Hm Hk s b s' H. apply bind_inv in H. destruct H as (a & s1 & H1 & H2).
  eapply R_trans; [eapply Hm | eapply Hk]; eauto.
Qed.

Lemma preserves_lift {A} (o : option A) : preserves (lift_option o).
Proof. destruct o; [apply preserves_ret | apply preserves_fault]. Qed.

Lemma preserves_emit e :
  is_lock_event e = false -> is_alloc e = false -> preserves (emit e).
Proof. intros He Ha s a s' H. unfold emit in H. inv H. apply R_emit; auto. Qed.

Lemma preserves_add_pages (d : Z) : preserves (add_pages d).
Proof. intros s a s' H. unfold add_pages in H. inv H. apply R_pages. Qed.

Lemma preserves_alloc : preserves pmm_alloc_kpage.
Proof. intros s a s' H. eapply R_alloc; eauto. Qed.

(** Syntax-directed proof that a computation preserves [R]. *)
Ltac pres_step :=
  match goal with
  | |- preserves (ret _) => apply preserves_ret
  | |- preserves fault => apply preserves_fault
  | |- preserves (lift_option _) => apply preserves_lift
  | |- preserves (deref_table _) => apply preserves_lift
  | |- preserves (read_entry _ _) => apply preserves_lift
  | |- preserves (add_pages _) => apply preserves_add_pages
  | |- preserves pmm_alloc_kpage => apply preserves_alloc
  | |- preserves (emit _) => apply preserves_emit; reflexivity
  | |- preserves (TlbInvalidatePage _ _ _ _) => apply preserves_emit; reflexivity
  | |- preserves (pmm_free_page _) => apply preserves_emit; reflexivity
  | |- preserves (bind _ _) => apply preserves_bind; [| intros ?]
  | |- preserves (let (_, _) := ?x in _) => destruct x
  | |- preserves (match ?x with (_, _) => _ end) => destruct x
  | |- preserves (if ?b then _ else _) => destruct b
  | |- preserves (match ?x with Some _ => _ | None => _ end) => destruct x
  | |- preserves (match ?x with inl _ => _ | inr _ => _ end) => destruct x
  | H : forall _, preserves _ |- preserves _ => apply H
  | H : forall _ _, preserves _ |- preserves _ => apply H
  | H : forall _ _ _, preserves _ |- preserves _ => apply H
  | H : forall _ _ _ _ _ _ _ _, preserves _ |- preserves _ => apply H
  end.
Ltac pres := repeat pres_step.

Lemma preserves_ForceFlush clf : preserves (ForceFlush clf).
Proof. unfold ForceFlush. pres. Qed.

Lemma preserves_FlushPtEntry clf e : preserves (FlushPtEntry clf e).
Proof. unfold FlushPtEntry. pres. apply preserves_ForceFlush. Qed.

Lemma preserves_UpdateEntry clf level va t i pa next flags wt :
  preserves (UpdateEntry clf level va t i pa next flags wt).
Proof.
  unfold UpdateEntry, read_entry, TlbInvalidatePage. pres;
    first [apply preserves_FlushPtEntry | apply preserves_ForceFlush].
Qed.

Lemma preserves_UnmapEntry clf level va t i wt :
  preserves (UnmapEntry clf level va t i wt).
Proof.
  unfold UnmapEntry, read_entry, TlbInvalidatePage. pres;
    first [apply preserves_FlushPtEntry | apply preserves_ForceFlush].
Qed.

Lemma preserves_map_alloc : preserves _map_alloc_page.
Proof. unfold _map_alloc_page. pres. Qed.

Lemma preserves_split_fill n : forall i clf level m va pa ps flags,
  preserves (split_fill n i clf level m va pa ps flags).
Proof.
  induction n; intros; cbn [split_fill]; pres. apply preserves_UpdateEntry.
Qed.

Lemma preserves_SplitLargePage level va t i : preserves (SplitLargePage level va t i).
Proof.
  unfold SplitLargePage, read_entry. pres;
    first [ apply preserves_map_alloc | apply preserves_split_fill
          | apply preserves_UpdateEntry | apply preserves_ForceFlush ].
Qed.

Lemma preserves_loop {X} (body : Z -> Frame -> M (Frame + X)) :
  (forall i fr, preserves (body i fr)) ->
  forall n fr, preserves (for_each_entry n body fr).
Proof.
  intros Hb. induction n; intros fr; cbn [for_each_entry]; pres.
Qed.

Lemma preserves_leave_frame st fr : preserves (leave_frame st fr).
Proof. unfold leave_frame. pres. apply preserves_ForceFlush. Qed.

Lemma preserves_RemoveMappingL0 table c : preserves (RemoveMappingL0 table c).
Proof.
  unfold RemoveMappingL0. pres; [|apply preserves_ForceFlush].
  apply preserves_loop. intros. unfold RemoveMappingL0_body, deref_table, read_entry.
  pres. apply preserves_UnmapEntry.
Qed.

Lemma preserves_RemoveMapping_at (lower : RemoveWalk) level :
  (forall table c, preserves (lower table c)) ->
  forall table c, preserves (RemoveMapping_at lower level table c).
Proof.
  intros Hl table c. unfold RemoveMapping_at. pres; [|apply preserves_ForceFlush].
  apply preserves_loop. intros.
  unfold RemoveMapping_body, RemoveMapping_descend, RemoveMapping_large, table_is_empty, pmm_free_page,
    deref_table, read_entry.
  pres; first [apply preserves_UnmapEntry | apply preserves_SplitLargePage].
Qed.

Lemma preserves_RemoveMapping level table c : preserves (RemoveMapping level table c).
Proof.
  revert table c. destruct level; unfold RemoveMapping;
    repeat first [exact preserves_RemoveMappingL0 | refine (preserves_RemoveMapping_at _ _ _)].
Qed.

Lemma preserves_AddMappingL0 table f c : preserves (AddMappingL0 table f c).
Proof.
  unfold AddMappingL0. pres; try apply preserves_leave_frame.
  apply preserves_loop. intros. unfold AddMappingL0_body, deref_table, read_entry.
  pres. apply preserves_UpdateEntry.
Qed.

Lemma preserves_AddMapping_at (lower : MapWalk) (remove_here : RemoveWalk) level :
  (forall table f c, preserves (lower table f c)) ->
  (forall table c, preserves (remove_here table c)) ->
  forall table f c, preserves (AddMapping_at lower remove_here level table f c).
Proof.
  intros Hl Hr table f c. unfold AddMapping_at, AddMapping_abort.
  pres; try apply preserves_leave_frame.
  apply preserves_loop. intros. unfold AddMapping_body, deref_table, read_entry.
  pres; first [apply preserves_UpdateEntry | apply preserves_map_alloc].
Qed.

Lemma preserves_AddMapping level table f c : preserves (AddMapping level table f c).
Proof.
  revert table f c. destruct level; unfold AddMapping;
    repeat first [ exact preserves_AddMappingL0 | exact (preserves_RemoveMapping _)
                 | refine (preserves_AddMapping_at _ _ _ _ _) ].
Qed.

Lemma preserves_UpdateMappingL0 table f c : preserves (UpdateMappingL0 table f c).
Proof.
  unfold UpdateMappingL0. pres; try apply preserves_leave_frame.
  apply preserves_loop. intros. unfold UpdateMappingL0_body, deref_table, read_entry.
  pres. apply preserves_UpdateEntry.
Qed.

Lemma preserves_UpdateMapping_at (lower : MapWalk) (remove_here : RemoveWalk) level :
  (forall table f c, preserves (lower table f c)) ->
  (forall table c, preserves (remove_here table c)) ->
  forall table f c, preserves (UpdateMapping_at lower remove_here level table f c).
Proof.
  intros Hl Hr table f c. unfold UpdateMapping_at.
  pres; try apply preserves_leave_frame.
  apply preserves_loop. intros.
  unfold UpdateMapping_body, UpdateMapping_large, deref_table, read_entry.
  pres; first [apply preserves_UpdateEntry | apply preserves_SplitLargePage].
Qed.

Lemma preserves_UpdateMapping level table f c : preserves (UpdateMapping level table f c).
Proof.
  revert table f c. destruct level; unfold UpdateMapping;
    repeat first [ exact preserves_UpdateMappingL0 | exact (preserves_RemoveMapping _)
                 | refine (preserves_UpdateMapping_at _ _ _ _ _) ].
Qed.

End Preserved.

(** *** Walker events *)

Lemma walk_ext_refl s : walk_ext s s.
Proof. exists []. rewrite app_nil_r. auto. Qed.

Lemma walk_ext_trans s1 s2 s3 : walk_ext s1 s2 -> walk_ext s2 s3 -> walk_ext s1 s3.
Proof.
  intros (e1 & H1 & F1) (e2 & H2 & F2). exists (e1 ++ e2).
  rewrite H2, H1, <- app_assoc, forallb_app, F1, F2. auto.
Qed.

Lemma walk_ext_emit e s :
  is_lock_event e = false -> is_alloc e = false ->
  walk_ext s {| pages_ := pages_ s; pmm := pmm s; trace := trace s ++ [e] |}.
Proof. intros He _. exists [e]. simpl. rewrite He. auto. Qed.

Lemma walk_ext_pages n s :
  walk_ext s {| pages_ := wrap64 (pages_ s + n); pmm := pmm s; trace := trace s |}.
Proof. exists []. simpl. rewrite app_nil_r. auto. Qed.

Lemma walk_ext_alloc s a s' : pmm_alloc_kpage s = Some (a, s') -> walk_ext s s'.
Proof. unfold pmm_alloc_kpage. intros H. inv H. eexists [_]. simpl. auto. Qed.

Lemma RemoveMapping_walk_ext level table c s r s' :
  RemoveMapping level table c s = Some (r, s') -> walk_ext s s'.
Proof.
  apply (preserves_RemoveMapping walk_ext walk_ext_refl walk_ext_trans walk_ext_emit
           walk_ext_pages walk_ext_alloc).
Qed.

Lemma AddMapping_walk_ext level table f c s r s' :
  AddMapping level table f c s = Some (r, s') -> walk_ext s s'.
Proof.
  apply (preserves_AddMapping walk_ext walk_ext_refl walk_ext_trans walk_ext_emit
           walk_ext_pages walk_ext_alloc).
Qed.

Lemma UpdateMapping_walk_ext level table f c s r s' :
  UpdateMapping level table f c s = Some (r, s') -> walk_ext s s'.
Proof.
  apply (preserves_UpdateMapping walk_ext walk_ext_refl walk_ext_trans walk_ext_emit
           walk_ext_pages walk_ext_alloc).
Qed.

Lemma GetMappingL0_pure table v s r s' : GetMappingL0 table v s = Some (r, s') -> s' = s.
Proof. unfold GetMappingL0, deref_table, read_entry. intros H. minv; reflexivity. Qed.

Lemma GetMapping_at_pure (lower : option Table -> Z -> M Mapping) level :
  (forall table v s r s', lower table v s = Some (r, s') -> s' = s) ->
  forall table v s r s', GetMapping_at lower level table v s = Some (r, s') -> s' = s.
Proof.
  intros Hl table v s r s'. unfold GetMapping_at, deref_table, read_entry. intros H.
  minv; try reflexivity. eapply Hl; eauto.
Qed.

Lemma GetMapping_pure level table v s r s' :
  GetMapping level table v s = Some (r, s') -> s' = s.
Proof.
  revert table v s r s'. destruct level; unfold GetMapping;
    repeat first [exact GetMappingL0_pure | refine (GetMapping_at_pure _ _ _)].
Qed.

Lemma locked_walk s0 s1 s2 :
  walk_ext {| pages_ := pages_ s0; pmm := pmm s0; trace := trace s0 ++ [EvLock] |} s1 ->
  pages_ s2 = pages_ s1 -> pmm s2 = pmm s1 -> trace s2 = trace s1 ++ [EvUnlock] ->
  lock_held_across s0 s2.
Proof.
  intros (evs & Ht & Hf) _ _ H2. exists evs. simpl in Ht.
  rewrite H2, Ht, <- !app_assoc. auto.
Qed.

Lemma MapPages_loop_walk_ext n : forall idx v phys f virt s r s',
  MapPages_loop n idx v phys f virt s = Some (r, s') -> walk_ext s s'.
Proof.
  induction n; intros idx v phys f virt s r s' H; cbn [MapPages_loop] in H.
  - minv. apply walk_ext_refl.
  - apply bind_inv in H. destruct H as (p & s1 & Hp & H).
    apply lift_option_inv in Hp. destruct Hp as [_ Hs]. simpl in Hs. subst s1.
    apply bind_inv in H. destruct H as ([[st virt1] c1] & s2 & Ha & H).
    apply AddMapping_walk_ext in Ha.
    destruct (negb (status_is_ok st)).
    + minv. exact Ha.
    + eapply walk_ext_trans; [exact Ha | eapply IHn; eauto].
Qed.

Lemma MapPages_undo_walk_ext vaddr idx virt s r s' :
  MapPages_undo vaddr idx virt s = Some (r, s') -> walk_ext s s'.
Proof.
  unfold MapPages_undo. intros H. destruct (idx >? 0).
  - apply bind_inv in H. destruct H as ([[b t] c] & s1 & Hr & H).
    apply RemoveMapping_walk_ext in Hr. minv. exact Hr.
  - minv. apply walk_ext_refl.
Qed.

(** C8, amended.  What each top-level operation validates, in which order,
    and when it takes the lock: a bad vaddr (or paddr, for the two map
    operations) is InvalidArgs; then a call with count == 0 is Ok, whatever
    its mmu_flags; then disallowed mmu_flags are InvalidArgs for the map
    operations and ProtectPages (UnmapPages has none); all of these answer
    without taking the lock.  Only a call that passed takes the lock, once,
    around its walk.  QueryVaddr validates nothing and always takes the
    lock. *)
Theorem C8_validation_then_lock vaddr pa count mmu_flags (phys : list Z) virt s :
  (check_vaddr vaddr = false ->
     answers_at_once (UnmapPages vaddr count virt) ZX_ERR_INVALID_ARGS virt s /\
     answers_at_once (MapPages vaddr phys count mmu_flags virt) ZX_ERR_INVALID_ARGS virt s /\
     answers_at_once (MapPagesContiguous vaddr pa count mmu_flags virt)
       ZX_ERR_INVALID_ARGS virt s /\
     answers_at_once (ProtectPages vaddr count mmu_flags virt) ZX_ERR_INVALID_ARGS virt s) /\
  (check_paddr pa = false ->
     answers_at_once (MapPagesContiguous vaddr pa count mmu_flags virt)
       ZX_ERR_INVALID_ARGS virt s) /\
  (check_vaddr vaddr = true -> check_paddrs (Z.to_nat count) phys = Some false ->
     answers_at_once (MapPages vaddr phys count mmu_flags virt) ZX_ERR_INVALID_ARGS virt s) /\
  (check_vaddr vaddr = true ->
     answers_at_once (UnmapPages vaddr 0 virt) ZX_OK virt s /\
     answers_at_once (MapPages vaddr phys 0 mmu_flags virt) ZX_OK virt s /\
     (check_paddr pa = true ->
      answers_at_once (MapPagesContiguous vaddr pa 0 mmu_flags virt) ZX_OK virt s) /\
     answers_at_once (ProtectPages vaddr 0 mmu_flags virt) ZX_OK virt s) /\
  (check_vaddr vaddr = true -> count <> 0 -> allowed_flags mmu_flags = false ->
     (check_paddrs (Z.to_nat count) phys = Some true ->
      answers_at_once (MapPages vaddr phys count mmu_flags virt)
        ZX_ERR_INVALID_ARGS virt s) /\
     (check_paddr pa = true ->
      answers_at_once (MapPagesContiguous vaddr pa count mmu_flags virt)
        ZX_ERR_INVALID_ARGS virt s) /\
     answers_at_once (ProtectPages vaddr count mmu_flags virt) ZX_ERR_INVALID_ARGS virt s) /\
  (check_vaddr vaddr = true -> count <> 0 ->
     (forall r s', UnmapPages vaddr count virt s = Some (r, s') -> lock_held_across s s') /\
     (allowed_flags mmu_flags = true ->
        (forall r s', ProtectPages vaddr count mmu_flags virt s = Some (r, s') ->
                      lock_held_across s s') /\
        (check_paddr pa = true ->
         forall r s', MapPagesContiguous vaddr pa count mmu_flags virt s = Some (r, s') ->
                      lock_held_across s s') /\
        (check_paddrs (Z.to_nat count) phys = Some true ->
         forall r s', MapPages vaddr phys count mmu_flags virt s = Some (r, s') ->
                      lock_held_across s s'))) /\
  (forall r s', QueryVaddr vaddr virt s = Some (r, s') -> lock_held_across s s').
Proof.
  unfold answers_at_once.
  split; [|split; [|split; [|split; [|split; [|split]]]]].
  - intros Hv. unfold UnmapPages, MapPages, MapPagesContiguous, ProtectPages.
    rewrite Hv. repeat split; try reflexivity. destruct (check_paddr pa); reflexivity.
  - intros Hp. unfold MapPagesContiguous. rewrite Hp. reflexivity.
  - intros Hv Hp. unfold MapPages. rewrite Hv. cbn [negb]. unfold bind. rewrite Hp.
    reflexivity.
  - intros Hv. unfold UnmapPages, MapPages, MapPagesContiguous, ProtectPages.
    rewrite Hv. repeat split; try reflexivity. intros Hp. rewrite Hp. reflexivity.
  - intros Hv Hc Hf. apply Z.eqb_neq in Hc.
    unfold MapPages, MapPagesContiguous, ProtectPages. rewrite Hv, Hf, Hc. cbn [negb].
    split; [|split].
    + intros Hp. unfold bind. rewrite Hp. reflexivity.
    + intros Hp. rewrite Hp. reflexivity.
    + reflexivity.
  - intros Hv Hc. apply Z.eqb_neq in Hc. split; [|intros Hf; split; [|split]].
    + intros r s'. unfold UnmapPages. rewrite Hv, Hc. cbn [negb]. intros Hr.
      apply bind_inv in Hr. destruct Hr as ([] & s1 & He & Hr). unfold emit in He. inv He.
      apply bind_inv in Hr. destruct Hr as ([[b t] c] & s2 & Hw & Hr).
      apply RemoveMapping_walk_ext in Hw. minv. eapply locked_walk; eauto.
    + intros r s'. unfold ProtectPages. rewrite Hv, Hc, Hf. cbn [negb]. intros Hr.
      apply bind_inv in Hr. destruct Hr as ([] & s1 & He & Hr). unfold emit in He. inv He.
      apply bind_inv in Hr. destruct Hr as ([[b t] c] & s2 & Hw & Hr).
      apply UpdateMapping_walk_ext in Hw. minv. eapply locked_walk; eauto.
    + intros Hp r s'. unfold MapPagesContiguous. rewrite Hv, Hc, Hf, Hp. cbn [negb].
      intros Hr.
      apply bind_inv in Hr. destruct Hr as ([] & s1 & He & Hr). unfold emit in He. inv He.
      apply bind_inv in Hr. destruct Hr as ([[b t] c] & s2 & Hw & Hr).
      apply AddMapping_walk_ext in Hw. minv. eapply locked_walk; eauto.
    + intros Hp r s'. unfold MapPages. rewrite Hv, Hf. cbn [negb]. unfold bind at 1.
      rewrite Hp. cbn [lift_option ret negb]. rewrite Hc. intros Hr.
      apply bind_inv in Hr. destruct Hr as ([] & s1 & He & Hr). unfold emit in He. inv He.
      apply bind_inv in Hr. destruct Hr as ([[st t] idx] & s2 & Hw & Hr).
      apply MapPages_loop_walk_ext in Hw.
      destruct (negb (status_is_ok st)).
      * apply bind_inv in Hr. destruct Hr as (t2 & s3 & Hu & Hr).
        apply MapPages_undo_walk_ext in Hu. minv.
        eapply locked_walk; [eapply walk_ext_trans; eauto | | |]; reflexivity.
      * minv. eapply locked_walk; eauto.
  - intros r s'. unfold QueryVaddr. intros Hr.
    apply bind_inv in Hr. destruct Hr as ([] & s1 & He & Hr). unfold emit in He. inv He.
    apply bind_inv in Hr. destruct Hr as (found & s2 & Hg & Hr).
    apply GetMapping_pure in Hg. subst s2.
    assert (Hend : trace s' = (trace s ++ [EvLock]) ++ [EvUnlock]).
    { destruct found as [lvl pte|]; [destruct lvl|]; minv; reflexivity. }
    exists []. rewrite Hend, <- app_assoc. auto.
Qed.

(** *** Arithmetic of levels and cursors *)

Lemma page_size_cases l :
  page_size l = 4096 \/ page_size l = 2097152 \/ page_size l = 1073741824 \/
  page_size l = 549755813888.
Proof. destruct l; vm_compute; auto. Qed.

Lemma land_page_mask l v : Z.land v (page_size l - 1) = v mod page_size l.
Proof.
  unfold page_size. rewrite Z.shiftl_1_l.
  change (2 ^ level_shift l - 1) with (Z.pred (2 ^ level_shift l)).
  rewrite <- Z.ones_equiv. apply Z.land_ones. destruct l; vm_compute; discriminate.
Qed.

Lemma page_aligned_mod l v : page_aligned l v = true <-> v mod page_size l = 0.
Proof. unfold page_aligned. rewrite land_page_mask. apply Z.eqb_eq. Qed.

Ltac zc := change (2 ^ 64) with 18446744073709551616 in *;
           change PAGE_SIZE with 4096 in *.

Lemma wrap64_small x : 0 <= x < 2 ^ 64 -> wrap64 x = x.
Proof. intros. unfold wrap64. apply Z.mod_small. auto. Qed.

Lemma wrap64_range x : 0 <= wrap64 x < 2 ^ 64.
Proof. unfold wrap64. apply Z.mod_pos_bound. reflexivity. Qed.

Lemma SkipEntry_reach l c : cursor_ok c -> SkipEntry l c = reach (page_size l) c.
Proof.
  intros (Hv & Hs & Hva & Hsa). unfold SkipEntry, reach.
  rewrite land_page_mask.
  assert (Hps : 0 < page_size l <= 549755813888) by (destruct (page_size_cases l) as [->|[->|[->| ->]]]; lia).
  pose proof (Z.mod_pos_bound (vaddr c) (page_size l) ltac:(lia)) as Hm.
  rewrite (wrap64_small (page_size l - _)) by (zc; lia).
  destruct (Z.gtb_spec (size c) (page_size l - vaddr c mod page_size l)).
  - rewrite Z.min_r by lia. f_equal. apply wrap64_small. zc. lia.
  - rewrite Z.min_l by lia. f_equal. apply wrap64_small. zc. lia.
Qed.

Lemma reach_ok span c :
  cursor_ok c -> 0 < span -> span mod PAGE_SIZE = 0 -> 
  cursor_ok (reach span c) /\ cursor_within c (reach span c).
Proof.
  intros (Hv & Hs & Hva & Hsa) Hsp Hspa. unfold cursor_ok, cursor_within, reach, wrap64. cbn [vaddr size].
  zc.
  pose proof (Z.mod_pos_bound (vaddr c) span ltac:(lia)) as Hm.
  assert (Hk : (Z.min (size c) (span - vaddr c mod span)) mod 4096 = 0).
  { destruct (Z.min_spec (size c) (span - vaddr c mod span)) as [[_ ->]|[_ ->]]; auto.
    Z.to_euclidean_division_equations. lia. }
  set (k := Z.min (size c) (span - vaddr c mod span)) in *.
  assert (0 <= k <= size c) by (unfold k; lia).
  repeat split; try lia.
  - apply Z.mod_pos_bound. lia.
  - apply Z.mod_pos_bound. lia.
  - Z.to_euclidean_division_equations. lia.
  - Z.to_euclidean_division_equations. lia.
  - Z.to_euclidean_division_equations. lia.
Qed.

Lemma for_each_entry_reaches {R} (body : Z -> Frame -> M (Frame + R)) n : forall fr s r s',
  for_each_entry n body fr s = Some (r, s') ->
  match r with
  | inl fr' => exists n', loop_reaches body n fr s n' fr' s' /\
                          (n' = 0%nat \/ size (fr_cursor fr') = 0)
  | inr x => exists n' fr1 s1, loop_reaches body n fr s (S n') fr1 s1 /\
                               size (fr_cursor fr1) <> 0 /\
                               body (NO_OF_PT_ENTRIES - Z.of_nat (S n')) fr1 s1 = Some (inr x, s')
  end.
Proof.
  induction n; intros fr s r s' H; cbn [for_each_entry] in H.
  - minv. exists 0%nat. split; [constructor | auto].
  - destruct (size (fr_cursor fr) =? 0) eqn:E.
    + minv. exists (S n). split; [constructor|]. right. apply Z.eqb_eq. auto.
    + apply Z.eqb_neq in E. apply bind_inv in H. destruct H as (r1 & s1 & Hb & H).
      destruct r1 as [fr1|x].
      * apply IHn in H. destruct r as [fr'|x].
        -- destruct H as (n' & Hr & Hn). exists n'. split; auto. econstructor; eauto.
        -- destruct H as (n' & fr2 & s2 & Hr & Hsz & Hb2). exists n', fr2, s2.
           split; auto. econstructor; eauto.
      * minv. exists n, fr, s. split; [constructor | auto].
Qed.

Lemma loop_reaches_inv {R} (body : Z -> Frame -> M (Frame + R))
    (I : nat -> Frame -> Machine -> Prop) :
  (forall n fr s fr' s', I (S n) fr s -> size (fr_cursor fr) <> 0 ->
     body (NO_OF_PT_ENTRIES - Z.of_nat (S n)) fr s = Some (inl fr', s') -> I n fr' s') ->
  forall n fr s n' fr' s', loop_reaches body n fr s n' fr' s' -> I n fr s -> I n' fr' s'.
Proof.
  intros Hstep n fr s n' fr' s' Hr. induction Hr; intros HI; auto.
  apply IHHr. eapply Hstep; eauto.
Qed.

Lemma cursor_within_refl c : cursor_within c c.
Proof. split; [reflexivity | lia]. Qed.

Lemma cursor_within_trans a b c : cursor_within a b -> cursor_within b c -> cursor_within a c.
Proof. intros [H1 H2] [H3 H4]. split; [congruence | lia]. Qed.

Lemma advance_ok n c :
  cursor_ok c -> n mod PAGE_SIZE = 0 -> 0 < n <= size c ->
  cursor_ok (advance n c) /\ cursor_within c (advance n c).
Proof.
  intros (Hv & Hs & Hva & Hsa) Hn Hle. unfold cursor_ok, cursor_within, advance, wrap64.
  cbn [vaddr size]. zc.
  repeat split; try (apply Z.mod_pos_bound; lia); Z.to_euclidean_division_equations; lia.
Qed.

Lemma advance_mapped_ok n c :
  cursor_ok c -> n mod PAGE_SIZE = 0 -> 0 < n <= size c ->
  cursor_ok (advance_mapped n c) /\ cursor_within c (advance_mapped n c).
Proof.
  intros (Hv & Hs & Hva & Hsa) Hn Hle. unfold cursor_ok, cursor_within, advance_mapped, wrap64.
  cbn [vaddr size]. zc.
  repeat split; try (apply Z.mod_pos_bound; lia); Z.to_euclidean_division_equations; lia.
Qed.

Lemma page_size_aligned l : page_size l mod PAGE_SIZE = 0 /\ 0 < page_size l.
Proof. destruct l; vm_compute; auto. Qed.

Lemma SkipEntry_ok l c : cursor_ok c ->
  cursor_ok (SkipEntry l c) /\ cursor_within c (SkipEntry l c).
Proof.
  intros H. rewrite SkipEntry_reach by auto. destruct (page_size_aligned l).
  apply reach_ok; auto.
Qed.

Lemma cursor_ok_page c : cursor_ok c -> size c <> 0 -> 0 < PAGE_SIZE <= size c.
Proof. intros (Hv & Hs & Hva & Hsa) Hn. zc. Z.to_euclidean_division_equations. lia. Qed.



Lemma guard_size (b : bool) l c :
  b && (size c >=? page_size l) = true -> 0 < page_size l <= size c.
Proof.
  intros H. apply andb_true_iff in H. destruct H as [_ H]. apply Z.geb_le in H.
  destruct (page_size_aligned l). lia.
Qed.

Lemma ok_then (c0 c1 c2 : MappingCursor) :
  cursor_ok c1 /\ cursor_within c0 c1 ->
  (cursor_ok c1 -> cursor_ok c2 /\ cursor_within c1 c2) ->
  cursor_ok c2 /\ cursor_within c0 c2.
Proof.
  intros [H1 H2] H. destruct (H H1). split; auto. eapply cursor_within_trans; eauto.
Qed.

Ltac cur_step :=
  match goal with
  | |- cursor_ok ?c /\ cursor_within ?c ?c => split; [assumption | apply cursor_within_refl]
  | |- cursor_ok (SkipEntry _ _) /\ _ => apply SkipEntry_ok; assumption
  | |- cursor_ok (advance PAGE_SIZE _) /\ _ =>
      apply advance_ok; [assumption | reflexivity | apply cursor_ok_page; assumption]
  | |- cursor_ok (advance_mapped PAGE_SIZE _) /\ _ =>
      apply advance_mapped_ok; [assumption | reflexivity | apply cursor_ok_page; assumption]
  | H : _ && (size _ >=? page_size ?l) = true |- cursor_ok (advance (page_size ?l) _) /\ _ =>
      apply advance_ok; [assumption | apply page_size_aligned | exact (guard_size _ _ _ H)]
  | H : _ && (size _ >=? page_size ?l) = true |- cursor_ok (advance_mapped (page_size ?l) _) /\ _ =>
      apply advance_mapped_ok; [assumption | apply page_size_aligned | exact (guard_size _ _ _ H)]
  end.

Lemma steps_ok_loop {R} (cur : R -> MappingCursor) (body : Z -> Frame -> M (Frame + R)) :
  steps_ok cur body ->
  forall n fr s n' fr' s', loop_reaches body n fr s n' fr' s' ->
    cursor_ok (fr_cursor fr) ->
    cursor_ok (fr_cursor fr') /\ cursor_within (fr_cursor fr) (fr_cursor fr').
Proof.
  intros Hb n fr s n' fr' s' Hr Hok.
  apply (loop_reaches_inv body
           (fun _ f _ => cursor_ok (fr_cursor f) /\ cursor_within (fr_cursor fr) (fr_cursor f)))
    with (1 := fun n fr0 s0 fr1 s1 HI Hsz Hbody =>
                 ok_then _ _ _ HI (fun Hok1 => Hb _ _ _ (inl fr1) _ Hbody Hok1 Hsz))
         (2 := Hr).
  split; [assumption | apply cursor_within_refl].
Qed.

Lemma steps_ok_result {R} (cur : R -> MappingCursor) (body : Z -> Frame -> M (Frame + R)) :
  steps_ok cur body ->
  forall n fr s r s', for_each_entry n body fr s = Some (r, s') ->
    cursor_ok (fr_cursor fr) ->
    let c' := match r with inl fr' => fr_cursor fr' | inr x => cur x end in
    cursor_ok c' /\ cursor_within (fr_cursor fr) c'.
Proof.
  intros Hb n fr s r s' H Hok. apply for_each_entry_reaches in H. destruct r as [fr'|x].
  - destruct H as (n' & Hr & _). eapply steps_ok_loop; eauto.
  - destruct H as (n' & fr1 & s1 & Hr & Hsz & Hbody). cbn zeta.
    eapply ok_then; [eapply steps_ok_loop; eauto|].
    intros Hok1. exact (Hb _ _ _ (inr x) _ Hbody Hok1 Hsz).
Qed.

Lemma RemoveMappingL0_body_ok : steps_ok (fun _ : unit => Build_MappingCursor 0 0 0) RemoveMappingL0_body.
Proof.
  intros i fr s r s' H Hok Hsz. unfold RemoveMappingL0_body, deref_table, read_entry in H.
  minv; cbn [fr_cursor]; cur_step.
Qed.

Lemma RemoveMappingL0_ok : remove_ok RemoveMappingL0.
Proof.
  intros table c s b t c' s' H Hok. unfold RemoveMappingL0 in H.
  apply bind_inv in H. destruct H as (r & s1 & Hl & H).
  apply (steps_ok_result _ _ RemoveMappingL0_body_ok) in Hl; [|exact Hok].
  destruct r; [|discriminate]. minv. exact Hl.
Qed.

Lemma RemoveMapping_body_ok lower level :
  remove_ok lower -> steps_ok (fun _ : unit => Build_MappingCursor 0 0 0) (RemoveMapping_body lower level).
Proof.
  intros Hl i fr s r s' H Hok Hsz.
  unfold RemoveMapping_body, RemoveMapping_descend, RemoveMapping_large, table_is_empty, deref_table, read_entry in H.
  minv; cbn [fr_cursor] in *; try cur_step;
    match goal with
    | H : lower _ _ _ = Some (_, _, ?m, _) |- cursor_ok ?m /\ _ =>
        eapply ok_then; [| intros Hc1; eapply Hl; [exact H | exact Hc1]]; cur_step
    end.
Qed.

Lemma RemoveMapping_at_ok lower level : remove_ok lower -> remove_ok (RemoveMapping_at lower level).
Proof.
  intros Hlow table c s b t c' s' H Hok. unfold RemoveMapping_at in H.
  apply bind_inv in H. destruct H as (r & s1 & Hl & H).
  apply (steps_ok_result _ _ (RemoveMapping_body_ok lower level Hlow)) in Hl; [|exact Hok].
  destruct r; [|discriminate]. minv. exact Hl.
Qed.

Lemma RemoveMapping_ok level : remove_ok (RemoveMapping level).
Proof.
  destruct level; unfold RemoveMapping;
    repeat first [exact RemoveMappingL0_ok | refine (RemoveMapping_at_ok _ _ _)].
Qed.

Lemma AddMappingL0_body_ok f : steps_ok status_cursor (AddMappingL0_body f).
Proof.
  intros i fr s r s' H Hok Hsz. unfold AddMappingL0_body, deref_table, read_entry in H.
  minv; cbn [fr_cursor status_cursor snd with_table]; cur_step.
Qed.

Lemma leave_frame_inv st fr s r s' :
  leave_frame st fr s = Some (r, s') -> r = (st, fr_table fr, fr_cursor fr).
Proof. unfold leave_frame. intros H. minv. reflexivity. Qed.

Lemma AddMappingL0_ok : map_ok AddMappingL0.
Proof.
  intros table f c s st t c' s' H Hok. unfold AddMappingL0 in H.
  apply bind_inv in H. destruct H as (r & s1 & Hl & H).
  apply (steps_ok_result _ _ (AddMappingL0_body_ok f)) in Hl; [|exact Hok].
  destruct r as [fr|[st1 fr]]; apply leave_frame_inv in H; inv H; exact Hl.
Qed.

Lemma AddMapping_body_ok lower level f :
  map_ok lower -> steps_ok status_cursor (AddMapping_body lower level f).
Proof.
  intros Hl i fr s r s' H Hok Hsz.
  unfold AddMapping_body, deref_table, read_entry in H.
  minv; cbn [fr_cursor status_cursor snd with_table] in *; try cur_step;
    try match goal with
    | H : lower _ _ _ _ = Some (_, _, ?m, _) |- cursor_ok ?m /\ _ =>
        eapply ok_then; [| intros Hc1; eapply Hl; [exact H | exact Hc1]]; cur_step
    end.
Qed.

Lemma AddMapping_at_ok lower remove_here level :
  map_ok lower -> map_ok (AddMapping_at lower remove_here level).
Proof.
  intros Hlow table f c s st t c' s' H Hok. unfold AddMapping_at in H.
  apply bind_inv in H. destruct H as (r & s1 & Hl & H).
  apply (steps_ok_result _ _ (AddMapping_body_ok lower level f Hlow)) in Hl; [|exact Hok].
  destruct r as [fr|[st1 fr]].
  - apply leave_frame_inv in H; inv H; exact Hl.
  - apply bind_inv in H. destruct H as ([[st2 t2] c2] & s2 & Hlf & H).
    apply leave_frame_inv in Hlf. inv Hlf. minv. exact Hl.
Qed.

Lemma AddMapping_ok level : map_ok (AddMapping level).
Proof.
  destruct level; unfold AddMapping;
    repeat first [exact AddMappingL0_ok | refine (AddMapping_at_ok _ _ _ _)].
Qed.

Lemma UpdateMappingL0_body_ok f :
  steps_ok (fun _ : unit => Build_MappingCursor 0 0 0) (UpdateMappingL0_body f).
Proof.
  intros i fr s r s' H Hok Hsz. unfold UpdateMappingL0_body, deref_table, read_entry in H.
  minv; cbn [fr_cursor]; cur_step.
Qed.

Lemma UpdateMappingL0_ok : map_ok UpdateMappingL0.
Proof.
  intros table f c s st t c' s' H Hok. unfold UpdateMappingL0 in H.
  apply bind_inv in H. destruct H as (r & s1 & Hl & H).
  apply (steps_ok_result _ _ (UpdateMappingL0_body_ok f)) in Hl; [|exact Hok].
  destruct r as [fr|]; [|discriminate]. apply leave_frame_inv in H; inv H; exact Hl.
Qed.

Lemma UpdateMapping_body_ok lower remove_here level f :
  map_ok lower ->
  steps_ok (fun _ : unit => Build_MappingCursor 0 0 0)
    (UpdateMapping_body lower remove_here level f).
Proof.
  intros Hl i fr s r s' H Hok Hsz.
  unfold UpdateMapping_body, UpdateMapping_large, deref_table, read_entry in H.
  minv; cbn [fr_cursor fr_table with_table] in *; try cur_step;
    match goal with
    | H : lower _ _ _ _ = Some (_, _, ?m, _) |- cursor_ok ?m /\ _ =>
        eapply ok_then; [| intros Hc1; eapply Hl; [exact H | exact Hc1]]; cur_step
    end.
Qed.

Lemma UpdateMapping_at_ok lower remove_here level :
  map_ok lower -> map_ok (UpdateMapping_at lower remove_here level).
Proof.
  intros Hlow table f c s st t c' s' H Hok. unfold UpdateMapping_at in H.
  apply bind_inv in H. destruct H as (r & s1 & Hl & H).
  apply (steps_ok_result _ _ (UpdateMapping_body_ok lower remove_here level f Hlow)) in Hl;
    [|exact Hok].
  destruct r as [fr|]; [|discriminate]. apply leave_frame_inv in H; inv H; exact Hl.
Qed.

Lemma UpdateMapping_ok level : map_ok (UpdateMapping level).
Proof.
  destruct level; unfold UpdateMapping;
    repeat first [exact UpdateMappingL0_ok | refine (UpdateMapping_at_ok _ _ _ _)].
Qed.

Lemma RemoveMapping_loop_ok level :
  steps_ok (fun _ : unit => Build_MappingCursor 0 0 0) (RemoveMapping_loop level).
Proof.
  destruct level; unfold RemoveMapping_loop;
    first [exact RemoveMappingL0_body_ok
          | exact (RemoveMapping_body_ok _ _ (RemoveMapping_ok _))].
Qed.

Lemma AddMapping_loop_ok level f : steps_ok status_cursor (AddMapping_loop level f).
Proof.
  destruct level; unfold AddMapping_loop;
    first [exact (AddMappingL0_body_ok f)
          | exact (AddMapping_body_ok _ _ _ (AddMapping_ok _))].
Qed.

Lemma UpdateMapping_loop_ok level f :
  steps_ok (fun _ : unit => Build_MappingCursor 0 0 0) (UpdateMapping_loop level f).
Proof.
  destruct level; unfold UpdateMapping_loop;
    first [exact (UpdateMappingL0_body_ok f)
          | exact (UpdateMapping_body_ok _ _ _ _ (UpdateMapping_ok _))].
Qed.

(** C10.  For each recursive walk (RemoveMapping, AddMapping,
    UpdateMapping, at every level) started with a cursor whose size is a
    multiple of PAGE_SIZE and whose vaddr is page-aligned, as check_vaddr
    has it for every public call and as each walker asserts on entry, every
    cursor the loop of the walk holds between iterations, and the cursor the
    walk hands back, satisfies vaddr + size = start.vaddr + start.size (in
    64-bit arithmetic) and size <= start.size. *)
Theorem C10_cursor_stays_within level mmu_flags table start s :
  cursor_ok start ->
  let n := entries_from (vaddr_to_index level (vaddr start)) in
  let fr0 := new_frame table start in
  (forall n' fr s', loop_reaches (RemoveMapping_loop level) n fr0 s n' fr s' ->
                    cursor_within start (fr_cursor fr)) /\
  (forall n' fr s', loop_reaches (AddMapping_loop level mmu_flags) n fr0 s n' fr s' ->
                    cursor_within start (fr_cursor fr)) /\
  (forall n' fr s', loop_reaches (UpdateMapping_loop level mmu_flags) n fr0 s n' fr s' ->
                    cursor_within start (fr_cursor fr)) /\
  (forall b t c s', RemoveMapping level table start s = Some ((b, t, c), s') ->
                    cursor_within start c) /\
  (forall st t c s', AddMapping level table mmu_flags start s = Some ((st, t, c), s') ->
                     cursor_within start c) /\
  (forall st t c s', UpdateMapping level table mmu_flags start s = Some ((st, t, c), s') ->
                     cursor_within start c).
Proof.
  intros Hok n fr0. split; [|split; [|split; [|split; [|split]]]].
  - intros n' fr s' Hr. eapply steps_ok_loop in Hr; [apply Hr | apply RemoveMapping_loop_ok | exact Hok].
  - intros n' fr s' Hr. eapply steps_ok_loop in Hr; [apply Hr | apply AddMapping_loop_ok | exact Hok].
  - intros n' fr s' Hr. eapply steps_ok_loop in Hr; [apply Hr | apply UpdateMapping_loop_ok | exact Hok].
  - intros b t c s' H. eapply RemoveMapping_ok; eauto.
  - intros st t c s' H. eapply AddMapping_ok; eauto.
  - intros st t c s' H. eapply UpdateMapping_ok; eauto.
Qed.

(** *** MapPages *)

Lemma wrap64_add_l a b : wrap64 (wrap64 a + b) = wrap64 (a + b).
Proof. unfold wrap64. rewrite Zplus_mod_idemp_l. reflexivity. Qed.

Lemma MapPages_loop_prefix vaddr phys f k virt s virt_k s_k :
  0 <= vaddr < 2 ^ 64 ->
  maps_first vaddr phys f k virt s virt_k s_k ->
  forall n, (k <= n)%nat ->
    MapPages_loop n 0 vaddr phys f virt s
    = MapPages_loop (n - k) (Z.of_nat k) (wrap64 (vaddr + Z.of_nat k * PAGE_SIZE)) phys f
        virt_k s_k.
Proof.
  intros Hv Hm. induction Hm; intros n Hn.
  - rewrite Nat.sub_0_r. cbn [Z.of_nat]. rewrite Z.mul_0_l, Z.add_0_r.
    rewrite wrap64_small by exact Hv. reflexivity.
  - rewrite IHHm by lia. destruct (n - k)%nat as [|m] eqn:E; [lia|].
    replace (n - S k)%nat with m by lia. cbn [MapPages_loop]. unfold bind at 1.
    rewrite Nat2Z.id, H. cbn [lift_option ret]. unfold bind at 1.
    unfold nth_page_cursor in H0. rewrite H0. cbn [status_is_ok negb].
    rewrite wrap64_add_l. f_equal; [lia | f_equal; lia].
Qed.

Lemma MapPages_checked vaddr phys count f virt s :
  check_vaddr vaddr = true -> check_paddrs (Z.to_nat count) phys = Some true ->
  0 < count -> allowed_flags f = true ->
  MapPages vaddr phys count f virt s =
  (let* (status, virt, idx) := MapPages_loop (Z.to_nat count) 0 vaddr phys f virt in
   if negb (status_is_ok status) then
     let* virt := MapPages_undo vaddr idx virt in
     emit EvUnlock;; ret (status, virt)
   else emit EvUnlock;; ret (ZX_OK, virt)) (locked s).
Proof.
  intros Hv Hp Hc Hf. unfold MapPages. rewrite Hv, Hf. cbn [negb]. unfold bind at 1.
  rewrite Hp. cbn [lift_option ret negb].
  destruct (Z.eqb_spec count 0) as [->|_]; [lia|]. reflexivity.
Qed.

Lemma MapPages_locked vaddr phys count f virt s r s' :
  check_vaddr vaddr = true -> check_paddrs (Z.to_nat count) phys = Some true ->
  0 < count -> allowed_flags f = true ->
  MapPages vaddr phys count f virt s = Some (r, s') -> lock_held_across s s'.
Proof.
  intros Hv Hp Hc Hf Hr. rewrite MapPages_checked in Hr by assumption.
  apply bind_inv in Hr. destruct Hr as ([[st t] idx] & s2 & Hw & Hr).
  apply MapPages_loop_walk_ext in Hw.
  destruct (negb (status_is_ok st)).
  - apply bind_inv in Hr. destruct Hr as (t2 & s3 & Hu & Hr).
    apply MapPages_undo_walk_ext in Hu. minv.
    eapply locked_walk; [eapply walk_ext_trans; eauto | | |]; reflexivity.
  - minv. eapply locked_walk; eauto.
Qed.


(** *** Mapping one page and looking it up *)

Lemma vaddr_to_index_range l v : 0 <= vaddr_to_index l v < NO_OF_PT_ENTRIES.
Proof.
  unfold vaddr_to_index.
  change (Z.shiftl 1 ADDR_OFFSET - 1) with (Z.ones 9). rewrite Z.land_ones by lia.
  change NO_OF_PT_ENTRIES with (2 ^ 9). apply Z.mod_pos_bound. reflexivity.
Qed.

Lemma entries_from_S idx : 0 <= idx < NO_OF_PT_ENTRIES ->
  exists n, entries_from idx = S n /\ NO_OF_PT_ENTRIES - Z.of_nat (S n) = idx.
Proof.
  intros H. unfold entries_from. exists (Z.to_nat (NO_OF_PT_ENTRIES - idx - 1)).
  split; lia.
Qed.

Lemma loop_one {R} (body : Z -> Frame -> M (Frame + R)) idx fr s :
  0 <= idx < NO_OF_PT_ENTRIES -> size (fr_cursor fr) <> 0 ->
  for_each_entry (entries_from idx) body fr s =
  (let* r := body idx fr in
   match r with
   | inl fr' => for_each_entry (Nat.pred (entries_from idx)) body fr'
   | inr x => ret (inr x)
   end) s.
Proof.
  intros Hi Hs. destruct (entries_from_S idx Hi) as (n & -> & Hn).
  cbn [for_each_entry Nat.pred]. apply Z.eqb_neq in Hs. rewrite Hs, Hn. reflexivity.
Qed.

Lemma loop_done {R} (body : Z -> Frame -> M (Frame + R)) n fr s :
  size (fr_cursor fr) = 0 -> for_each_entry n body fr s = Some (inl fr, s).
Proof. intros H. destruct n; cbn [for_each_entry]; [|rewrite H]; reflexivity. Qed.

Lemma UpdateEntry_table clf level va t i pa next flags wt s clf' t' s' :
  UpdateEntry clf level va t i pa next flags wt s = Some ((clf', t'), s') ->
  t' = write_entry t i (MkEntry (Z.lor (Z.lor pa flags) X86_MMU_PG_P) next) /\
  (exists olde, tbl_ents t !! Z.to_nat i = Some olde) /\
  pmm s' = pmm s /\ pages_ s' = pages_ s.
Proof.
  unfold UpdateEntry, read_entry, TlbInvalidatePage. intros H. minv;
    repeat match goal with
    | H : FlushPtEntry _ _ _ = Some _ |- _ =>
        apply FlushPtEntry_spec in H; destruct H as (_ & _ & ? & ? & _)
    | H : ForceFlush _ _ = Some _ |- _ =>
        apply ForceFlush_spec in H; destruct H as (_ & _ & ? & ? & _)
    end; cbn [pmm pages_] in *; repeat split; eauto; congruence.
Qed.

Lemma read_write_entry t i e olde :
  0 <= i -> tbl_ents t !! Z.to_nat i = Some olde ->
  tbl_ents (write_entry t i e) !! Z.to_nat i = Some e.
Proof.
  intros Hi H. unfold write_entry. cbn [tbl_ents].
  apply list_lookup_insert_eq. eapply lookup_lt_Some; eauto.
Qed.

Lemma present_lor_P x : IS_PAGE_PRESENT (Z.lor x X86_MMU_PG_P) = true.
Proof.
  unfold IS_PAGE_PRESENT. rewrite Z.land_lor_distr_l.
  change (Z.land X86_MMU_PG_P X86_MMU_PG_P) with 1.
  destruct (Z.eqb_spec (Z.lor (Z.land x X86_MMU_PG_P) 1) 0) as [E|]; [|reflexivity].
  apply Z.lor_eq_0_iff in E. destruct E. discriminate.
Qed.

Lemma aligned_no_PS pa : pa mod PAGE_SIZE = 0 -> Z.land pa X86_MMU_PG_PS = 0.
Proof.
  intros H. change PAGE_SIZE with (2 ^ 12) in H. rewrite <- Z.land_ones in H by lia.
  change X86_MMU_PG_PS with (Z.land (Z.ones 12) X86_MMU_PG_PS).
  rewrite Z.land_assoc, H. reflexivity.
Qed.

Lemma intermediate_not_large pa :
  pa mod PAGE_SIZE = 0 -> Z.land intermediate_flags X86_MMU_PG_PS = 0 ->
  IS_LARGE_PAGE (Z.lor (Z.lor pa intermediate_flags) X86_MMU_PG_P) = false.
Proof.
  intros Hpa Hf. unfold IS_LARGE_PAGE. rewrite !Z.land_lor_distr_l.
  rewrite (aligned_no_PS _ Hpa), Hf. reflexivity.
Qed.

Lemma map_alloc_inv s m s' :
  _map_alloc_page s = Some (m, s') ->
  pages_ s' = pages_ s /\ pmm s' = tail (pmm s) /\
  match m with
  | Some t => exists pa, pmm s = Some pa :: pmm s' /\ t = zero_table pa
  | None => True
  end.
Proof.
  unfold _map_alloc_page, pmm_alloc_kpage, bind. intros H.
  destruct (pmm s) as [|[pa|] rest] eqn:E; inv H; cbn [pmm pages_ tail]; repeat split; eauto.
Qed.

Lemma AddMappingL0_maps_one : maps_one AddMappingL0 GetMappingL0.
Proof.
  intros table f p v s t' c' s' H _. unfold AddMappingL0 in H. cbn [vaddr] in H.
  pose proof (vaddr_to_index_range PT_L v) as Hi.
  apply bind_inv in H. destruct H as (r & s1 & Hl & H).
  rewrite loop_one in Hl by (auto; cbn; discriminate).
  apply bind_inv in Hl. destruct Hl as (r1 & s2 & Hb & Hl).
  unfold AddMappingL0_body, deref_table, read_entry, new_frame in Hb.
  cbn [fr_table fr_cursor fr_clf fr_unmapped vaddr paddr] in Hb.
  minv; try (rewrite loop_done in Hl by reflexivity; inv Hl);
    match goal with H : leave_frame _ _ _ = Some _ |- _ =>
      apply leave_frame_inv in H; inv H end.
  cbn [fr_table fr_cursor].
  split; [discriminate|]. split; [reflexivity|]. intros s2.
  match goal with H : UpdateEntry _ _ _ _ _ _ _ _ _ _ = Some _ |- _ =>
    apply UpdateEntry_table in H; destruct H as (-> & _ & _) end.
  unfold GetMappingL0, deref_table, read_entry, bind. cbn [lift_option ret].
  erewrite read_write_entry by (try apply Hi; eauto). cbn [lift_option ret pte_val].
  unfold leaf_pte. rewrite present_lor_P. reflexivity.
Qed.

Lemma link_found (G : option Table -> Z -> M Mapping) level t v e nt o found s0 :
  tbl_ents t !! Z.to_nat (vaddr_to_index level v) = Some e ->
  IS_PAGE_PRESENT (pte_val e) = true -> IS_LARGE_PAGE (pte_val e) = false ->
  pte_next e = Some nt ->
  G o v s0 = Some (found, s0) ->
  GetMapping_at G level (Some (link_next t (vaddr_to_index level v) o)) v s0
  = Some (found, s0).
Proof.
  intros He Hp Hl Hn HG. pose proof (vaddr_to_index_range level v) as Hi.
  unfold GetMapping_at, deref_table, read_entry, bind. cbn [lift_option ret].
  unfold link_next. rewrite He. unfold get_next_table_from_entry at 1.
  rewrite Hp, Hl, Hn. cbn [negb orb].
  erewrite read_write_entry by (try apply Hi; eauto). cbn [lift_option ret pte_val].
  rewrite Hp, Hl. cbn [negb]. unfold get_next_table_from_entry. cbn [pte_val pte_next].
  rewrite Hp, Hl. cbn [negb orb]. exact HG.
Qed.

Lemma AddMapping_body_one lower level G table f p v clf um s r s' :
  level <> PT_L ->
  Z.land intermediate_flags X86_MMU_PG_PS = 0 ->
  maps_one lower G ->
  frames_aligned (pmm s) ->
  AddMapping_body lower level f (vaddr_to_index level v)
    {| fr_table := table; fr_cursor := {| paddr := p; vaddr := v; size := PAGE_SIZE |};
       fr_clf := clf; fr_unmapped := um |} s = Some (r, s') ->
  match r with
  | inl fr' =>
      table <> None /\ size (fr_cursor fr') = 0 /\
      forall s0, GetMapping_at G level (fr_table fr') v s0
                 = Some (MappingFound PT_L (leaf_pte p f), s0)
  | inr (st, _) => st <> ZX_OK
  end.
Proof.
  intros Hlev Hif Hlow Hpmm Hb.
  pose proof (vaddr_to_index_range level v) as Hi.
  unfold AddMapping_body, deref_table, read_entry in Hb.
  cbn [fr_table fr_cursor fr_clf fr_unmapped vaddr paddr size] in Hb.
  minv; try discriminate;
    try (exfalso;
         match goal with H : _ && (PAGE_SIZE >=? page_size level) = true |- _ =>
           apply andb_true_iff in H; destruct H as [_ Hge];
           destruct level; try contradiction; vm_compute in Hge; discriminate
         end).
  - destruct z; discriminate.
  - destruct z; discriminate.
  - destruct z; try discriminate.
    apply map_alloc_inv in H3. destruct H3 as (_ & Htl & pa & Hpa & ->).
    assert (Hal : pa mod PAGE_SIZE = 0).
    { unfold frames_aligned in Hpmm. rewrite Hpa in Hpmm. inv Hpmm. eauto. }
    apply UpdateEntry_table in H4. destruct H4 as (-> & _ & Hpm & _).
    erewrite read_write_entry in H1 by (try apply Hi; eauto). inv H1.
    assert (Hnext : get_next_table_from_entry
              (MkEntry (Z.lor (Z.lor pa intermediate_flags) X86_MMU_PG_P)
                 (Some (zero_table pa))) = Some (zero_table pa)).
    { unfold get_next_table_from_entry. cbn [pte_val pte_next].
      rewrite present_lor_P, intermediate_not_large by assumption. reflexivity. }
    cbn [tbl_phys zero_table] in H2. rewrite Hnext in H2.
    assert (Hpm' : frames_aligned (pmm x6)).
    { rewrite Hpm. unfold frames_aligned in *. rewrite Hpa in Hpmm.
      apply Forall_cons in Hpmm. apply Hpmm. }
    destruct (Hlow _ _ _ _ _ _ _ _ H2 Hpm') as (_ & Hsz & HG).
    cbn [fr_cursor fr_table].
    split; [discriminate|]. split; [exact Hsz|]. intros s0.
    eapply link_found; [ eapply read_write_entry; try apply Hi; eauto | | | | apply HG ].
    + cbn [pte_val]. apply present_lor_P.
    + cbn [pte_val tbl_phys zero_table]. apply intermediate_not_large; assumption.
    + reflexivity.
  - destruct z; try discriminate.
    apply negb_false_iff in Heqb2. rewrite Heqb2 in Heqb. cbn [andb] in Heqb.
    destruct (pte_next x1) as [nt|] eqn:Hn.
    2:{ exfalso. unfold get_next_table_from_entry in H2. rewrite Heqb2, Heqb, Hn in H2.
        destruct (Hlow _ _ _ _ _ _ _ _ H2 Hpmm) as (Hne & _). contradiction. }
    destruct (Hlow _ _ _ _ _ _ _ _ H2 Hpmm) as (_ & Hsz & HG).
    cbn [fr_cursor fr_table].
    split; [discriminate|]. split; [exact Hsz|]. intros s0.
    eapply link_found; eauto.
Qed.

Lemma AddMapping_at_maps_one lower remove_here level G :
  level <> PT_L ->
  Z.land intermediate_flags X86_MMU_PG_PS = 0 ->
  maps_one lower G ->
  maps_one (AddMapping_at lower remove_here level) (GetMapping_at G level).
Proof.
  intros Hlev Hif Hlow table f p v s t' c' s' H Hpmm. unfold AddMapping_at in H.
  cbn [vaddr] in H.
  pose proof (vaddr_to_index_range level v) as Hi.
  apply bind_inv in H. destruct H as (r & s1 & Hl & H).
  rewrite loop_one in Hl by (auto; cbn; discriminate).
  apply bind_inv in Hl. destruct Hl as (r1 & s2 & Hb & Hl).
  unfold new_frame in Hb.
  apply (AddMapping_body_one _ _ G) in Hb; try assumption.
  destruct r1 as [fr1|[st1 fr1]].
  - destruct Hb as (Hne & Hsz & HG). rewrite loop_done in Hl by exact Hsz. inv Hl.
    apply leave_frame_inv in H. inv H. auto.
  - unfold ret in Hl. inv Hl.
    apply bind_inv in H. destruct H as ([[st2 t2] c2] & s3 & Hlf & H).
    apply leave_frame_inv in Hlf. inv Hlf. minv; contradiction.
Qed.

Lemma AddMapping_maps_one level :
  Z.land intermediate_flags X86_MMU_PG_PS = 0 ->
  maps_one (AddMapping level) (GetMapping level).
Proof.
  intros Hif. destruct level; unfold AddMapping, GetMapping;
    repeat first [ exact AddMappingL0_maps_one
                 | refine (AddMapping_at_maps_one _ _ _ _ _ Hif _); [discriminate|] ].
Qed.

Lemma frame_of_leaf p flags :
  Z.land p X86_PG_FRAME = p -> Z.land flags X86_PG_FRAME = 0 ->
  Z.land (Z.lor (Z.lor p flags) X86_MMU_PG_P) X86_PG_FRAME = p.
Proof.
  intros Hp Hf. rewrite !Z.land_lor_distr_l, Hp, Hf.
  change (Z.land X86_MMU_PG_P X86_PG_FRAME) with 0. rewrite !Z.lor_0_r. reflexivity.
Qed.

Lemma QueryVaddr_leaf v virt pte s :
  GetMapping top_level virt v (locked s) = Some (MappingFound PT_L pte, locked s) ->
  QueryVaddr v virt s =
  Some ((ZX_OK, Z.lor (Z.land pte X86_PG_FRAME) (Z.land v PAGE_OFFSET_MASK_4KB),
         pt_flags_to_mmu_flags pte PT_L, virt), unlocked (locked s)).
Proof.
  intros H. unfold QueryVaddr. unfold bind at 1. cbn [emit].
  unfold bind at 1. fold (locked s). rewrite H. reflexivity.
Qed.

(** C5.  After MapPages or MapPagesContiguous of one page (v, p, flags)
    answered Ok, QueryVaddr(v) answers Ok at the leaf level with
    paddr = frame(PT_L, pte) | (v & (PAGE_SIZE - 1)) and
    mmu_flags = pt_flags_to_mmu_flags(pte, PT_L), where
    pte = p | terminal_flags(PT_L, flags) | P is the entry the mapping
    stored: paddr is p with the in-page offset of v when p is a frame
    address that the terminal flags leave alone, and mmu_flags is the
    decoding of terminal_flags(PT_L, flags) when the decoder reads neither
    the frame nor the present bit. *)
Theorem C5_query_after_map v p f virt s virt' s' s2 :
  Z.land intermediate_flags X86_MMU_PG_PS = 0 ->
  frames_aligned (pmm s) ->
  MapPages v [p] 1 f virt s = Some ((ZX_OK, virt'), s') \/
  MapPagesContiguous v p 1 f virt s = Some ((ZX_OK, virt'), s') ->
  exists pa mmu,
    QueryVaddr v virt' s2 = Some ((ZX_OK, pa, mmu, virt'), unlocked (locked s2)) /\
    pa = Z.lor (Z.land (leaf_pte p f) X86_PG_FRAME) (Z.land v PAGE_OFFSET_MASK_4KB) /\
    mmu = pt_flags_to_mmu_flags (leaf_pte p f) PT_L /\
    (Z.land p X86_PG_FRAME = p -> Z.land (terminal_flags PT_L f) X86_PG_FRAME = 0 ->
     pa = Z.lor p (Z.land v PAGE_OFFSET_MASK_4KB)) /\
    ((forall fl, pt_flags_to_mmu_flags (Z.lor (Z.lor p fl) X86_MMU_PG_P) PT_L
                 = pt_flags_to_mmu_flags fl PT_L) ->
     mmu = pt_flags_to_mmu_flags (terminal_flags PT_L f) PT_L).
Proof.
  intros Hif Hpmm Hmap.
  assert (Hadd : exists c sa sb, frames_aligned (pmm sa) /\
            AddMapping top_level virt f {| paddr := p; vaddr := v; size := PAGE_SIZE |} sa
            = Some ((ZX_OK, virt', c), sb)).
  { destruct Hmap as [H|H].
    - unfold MapPages in H. change (Z.to_nat 1) with 1%nat in H.
      cbn [check_paddrs MapPages_loop] in H. unfold MapPages_undo in H.
      change (Z.to_nat 0) with 0%nat in H. cbn [lookup list_lookup] in H.
      minv; try discriminate.
      + destruct z0; try discriminate.
      + destruct z1; try discriminate. eexists _, _, _. split; [|exact H4]. exact Hpmm.
    - unfold MapPagesContiguous in H. change (wrap64 (1 * PAGE_SIZE)) with PAGE_SIZE in H.
      minv. eexists _, _, _; split; [|eassumption]. exact Hpmm. }
  destruct Hadd as (c & sa & sb & Ha & Hadd).
  destruct (AddMapping_maps_one top_level Hif _ _ _ _ _ _ _ _ Hadd Ha) as (_ & _ & HG).
  eexists _, _. split; [apply QueryVaddr_leaf, HG|].
  split; [reflexivity|]. split; [reflexivity|]. split.
  - intros Hp Hf. unfold leaf_pte. rewrite frame_of_leaf by assumption. reflexivity.
  - intros Hdec. unfold leaf_pte. apply Hdec.
Qed.

(** *** Where the cursor of an unmap walk ends *)

Lemma vaddr_to_index_div level v :
  vaddr_to_index level v = (v / page_size level) mod NO_OF_PT_ENTRIES.
Proof.
  unfold vaddr_to_index, page_size.
  change (Z.shiftl 1 ADDR_OFFSET - 1) with (Z.ones 9). rewrite Z.land_ones by lia.
  rewrite Z.shiftr_div_pow2 by (destruct level; vm_compute; discriminate).
  rewrite Z.shiftl_1_l. reflexivity.
Qed.

Ltac level_consts level :=
  destruct level;
  change (table_span PT_L) with 2097152 in *;
  change (table_span PD_L) with 1073741824 in *;
  change (table_span PDP_L) with 549755813888 in *;
  change (table_span PML4_L) with 281474976710656 in *;
  change (page_size PT_L) with 4096 in *;
  change (page_size PD_L) with 2097152 in *;
  change (page_size PDP_L) with 1073741824 in *;
  change (page_size PML4_L) with 549755813888 in *;
  change NO_OF_PT_ENTRIES with 512 in *;
  change PAGE_SIZE with 4096 in *;
  change (2 ^ 64) with 18446744073709551616 in *.

Lemma at_index_start level c0 :
  cursor_ok c0 ->
  at_index level c0 (entries_from (vaddr_to_index level (vaddr c0))) c0.
Proof.
  intros Hok. pose proof (vaddr_to_index_range level (vaddr c0)) as Hi.
  exists 0. destruct Hok as (Hv & Hs & Hva & Hsa).
  rewrite Z.add_0_r, Z.sub_0_r, (wrap64_small _ Hv).
  assert (Hsp : 0 < table_span level) by (destruct level; reflexivity).
  pose proof (Z.mod_pos_bound (vaddr c0) (table_span level) Hsp).
  repeat split; try lia; try assumption.
  right. right. split; [reflexivity|]. unfold entries_from. lia.
Qed.

Lemma at_index_step level c0 n c c' :
  cursor_ok c0 ->
  at_index level c0 (S n) c -> size c <> 0 ->
  same_pos c' (reach (page_size level) c) ->
  at_index level c0 n c'.
Proof.
  intros Hok0 (k & Hk & Hv & Hs & Hok & Hpos) Hsz [Hv' Hs'].
  assert (Hok' : cursor_ok c').
  { destruct (page_size_aligned level). destruct (reach_ok (page_size level) c Hok) as [H1 _]; auto.
    unfold cursor_ok in *. rewrite Hv', Hs'. exact H1. }
  unfold reach in Hv', Hs'. cbn [vaddr size] in Hv', Hs'.
  exists (k + Z.min (size c) (page_size level - vaddr c mod page_size level)).
  assert (Hidx : vaddr_to_index level (vaddr c0) = (vaddr c0 / page_size level) mod 512)
    by apply vaddr_to_index_div.
  destruct Hok0 as (Hv0 & Hs0 & Hva0 & Hsa0). destruct Hok as (Hvc & Hsc & Hvac & Hsac).
  (split; [|split; [|split; [|split; [exact Hok'|]]]]);
    rewrite ?Hv', ?Hs'; clear Hv' Hs' Hok'; rewrite Hv, Hs in *; clear Hv Hs;
    unfold wrap64 in *; rewrite Nat2Z.inj_succ in Hpos;
    level_consts level; Z.to_euclidean_division_equations; lia.
Qed.

Lemma at_index_end level c0 n c :
  cursor_ok c0 ->
  at_index level c0 n c -> n = 0%nat \/ size c = 0 ->
  same_pos c (reach (table_span level) c0).
Proof.
  intros Hok0 (k & Hk & Hv & Hs & Hok & Hpos) Hend.
  unfold same_pos, reach. cbn [vaddr size]. rewrite Hv, Hs.
  assert (Hidx : vaddr_to_index level (vaddr c0) = (vaddr c0 / page_size level) mod 512)
    by apply vaddr_to_index_div.
  pose proof (vaddr_to_index_range level (vaddr c0)) as Hir.
  destruct Hok0 as (Hv0 & Hs0 & Hva0 & Hsa0).
  assert (Hkk : k = Z.min (size c0) (table_span level - vaddr c0 mod table_span level)).
  { rewrite Hs in *. clear Hv Hs Hok.
    destruct Hend as [-> | Hz].
    - cbn [Z.of_nat] in Hpos. level_consts level; Z.to_euclidean_division_equations; lia.
    - level_consts level; Z.to_euclidean_division_equations; lia. }
  rewrite <- Hkk. auto.
Qed.

Lemma at_index_sync level c0 n c :
  cursor_ok c0 ->
  at_index level c0 (S n) c -> size c <> 0 ->
  vaddr_to_index level (vaddr c) = NO_OF_PT_ENTRIES - Z.of_nat (S n).
Proof.
  intros Hok0 (k & Hk & Hv & Hs & Hok & Hpos) Hsz.
  rewrite vaddr_to_index_div. rewrite vaddr_to_index_div in Hpos.
  destruct Hok0 as (Hv0 & Hs0 & Hva0 & Hsa0). destruct Hok as (Hvc & Hsc & Hvac & Hsac).
  rewrite Hv, Hs in *. clear Hv Hs. unfold wrap64 in *.
  rewrite Nat2Z.inj_succ in *.
  level_consts level; Z.to_euclidean_division_equations; lia.
Qed.

Lemma cursor_eq c c' : same_pos c c' -> paddr c = paddr c' -> c = c'.
Proof. destruct c, c'. unfold same_pos. cbn. intros [-> ->] ->. reflexivity. Qed.

Lemma loop_reach level {R} (body : Z -> Frame -> M (Frame + R)) :
  (forall i fr s fr' s', body i fr s = Some (inl fr', s') ->
     cursor_ok (fr_cursor fr) -> size (fr_cursor fr) <> 0 ->
     i = vaddr_to_index level (vaddr (fr_cursor fr)) ->
     fr_cursor fr' = reach (page_size level) (fr_cursor fr)) ->
  forall table c s fr' s',
    for_each_entry (entries_from (vaddr_to_index level (vaddr c))) body (new_frame table c) s
      = Some (inl fr', s') ->
    cursor_ok c ->
    fr_cursor fr' = reach (table_span level) c.
Proof.
  intros Hstep table c s fr' s' H Hok.
  change c with (fr_cursor (new_frame table c)) in Hok |- *.
  change (vaddr c) with (vaddr (fr_cursor (new_frame table c))) in H.
  generalize dependent (new_frame table c). intros fr0 H Hok.
  apply for_each_entry_reaches in H. destruct H as (n' & Hr & Hend).
  assert (HI : at_index level (fr_cursor fr0) n' (fr_cursor fr') /\
               paddr (fr_cursor fr') = paddr (fr_cursor fr0)).
  { apply (loop_reaches_inv body
             (fun n f _ => at_index level (fr_cursor fr0) n (fr_cursor f) /\
                           paddr (fr_cursor f) = paddr (fr_cursor fr0)))
      with (2 := Hr).
    - intros n fr1 s1 fr2 s2 [Hat Hp] Hsz Hb.
      assert (Hok1 : cursor_ok (fr_cursor fr1)) by (destruct Hat as (k & _ & _ & _ & Hc & _); exact Hc).
      pose proof (at_index_sync _ _ _ _ Hok Hat Hsz) as Hsync.
      pose proof (Hstep _ _ _ _ _ Hb Hok1 Hsz (eq_sym Hsync)) as Hc. split.
      + eapply at_index_step; eauto. rewrite Hc. split; reflexivity.
      + rewrite Hc. cbn [reach paddr]. exact Hp.
    - split; [apply at_index_start; exact Hok | reflexivity]. }
  destruct HI as [Hat Hp]. apply cursor_eq.
  - eapply at_index_end; eauto.
  - rewrite Hp. reflexivity.
Qed.

Lemma loop_none {R} (body : Z -> Frame -> M (Frame + R)) idx c s r s' :
  0 <= idx < NO_OF_PT_ENTRIES ->
  (forall fr s1, fr_table fr = None -> body idx fr s1 = None) ->
  for_each_entry (entries_from idx) body (new_frame None c) s = Some (r, s') ->
  size c = 0 /\ r = inl (new_frame None c) /\ s' = s.
Proof.
  intros Hi Hb H. destruct (Z.eq_dec (size c) 0) as [Hz|Hnz].
  - rewrite loop_done in H by exact Hz. inv H. auto.
  - rewrite loop_one in H by auto. unfold bind in H. rewrite Hb in H by reflexivity.
    discriminate.
Qed.

Lemma ForceFlush_clean perform s :
  ForceFlush (new_flusher perform) s = Some (new_flusher perform, s).
Proof. reflexivity. Qed.

Lemma RemoveMappingL0_none : remove_none RemoveMappingL0.
Proof.
  intros c s r s' H. unfold RemoveMappingL0 in H.
  apply bind_inv in H. destruct H as (r1 & s1 & Hl & H).
  apply loop_none in Hl; [|apply vaddr_to_index_range|].
  - destruct Hl as (Hz & -> & ->). unfold new_frame in H. cbn [fr_clf] in H.
    unfold bind in H. rewrite ForceFlush_clean in H. cbn in H. inv H. auto.
  - intros fr s2 Hn. unfold RemoveMappingL0_body, deref_table, bind. rewrite Hn. reflexivity.
Qed.

Lemma RemoveMapping_at_none lower level : remove_none (RemoveMapping_at lower level).
Proof.
  intros c s r s' H. unfold RemoveMapping_at in H.
  apply bind_inv in H. destruct H as (r1 & s1 & Hl & H).
  apply loop_none in Hl; [|apply vaddr_to_index_range|].
  - destruct Hl as (Hz & -> & ->). unfold new_frame in H. cbn [fr_clf] in H.
    unfold bind in H. rewrite ForceFlush_clean in H. cbn in H. inv H. auto.
  - intros fr s2 Hn. unfold RemoveMapping_body, deref_table, bind. rewrite Hn. reflexivity.
Qed.

Lemma RemoveMapping_none level : remove_none (RemoveMapping level).
Proof.
  destruct level; unfold RemoveMapping;
    first [exact RemoveMappingL0_none | exact (RemoveMapping_at_none _ _)].
Qed.

Lemma advance_page_reach c :
  cursor_ok c -> size c <> 0 -> advance PAGE_SIZE c = reach (page_size PT_L) c.
Proof.
  intros Hok Hsz. pose proof (cursor_ok_page c Hok Hsz) as Hp.
  destruct Hok as (Hv & Hs & Hva & Hsa). unfold advance, reach.
  change (page_size PT_L) with PAGE_SIZE. rewrite Hva, Z.sub_0_r, Z.min_r by lia.
  f_equal. apply wrap64_small. change (2 ^ 64) with 18446744073709551616 in *. lia.
Qed.

Lemma advance_level_reach level c :
  cursor_ok c ->
  page_aligned level (vaddr c) && (size c >=? page_size level) = true ->
  advance (page_size level) c = reach (page_size level) c.
Proof.
  intros Hok Hg. pose proof (guard_size _ _ _ Hg) as Hp.
  apply andb_true_iff in Hg. destruct Hg as [Ha _]. apply page_aligned_mod in Ha.
  destruct Hok as (Hv & Hs & Hva & Hsa). unfold advance, reach.
  rewrite Ha, Z.sub_0_r, Z.min_r by lia.
  f_equal. apply wrap64_small. change (2 ^ 64) with 18446744073709551616 in *. lia.
Qed.

Lemma RemoveMappingL0_reach : remove_reach PT_L RemoveMappingL0.
Proof.
  intros table c s b t c' s' H Hok. unfold RemoveMappingL0 in H.
  apply bind_inv in H. destruct H as (r & s1 & Hl & H).
  destruct r as [fr|]; [|discriminate]. minv.
  refine (loop_reach PT_L _ _ _ _ _ _ _ Hl Hok).
  intros i fr1 s2 fr2 s3 Hb Hok1 Hsz _.
  unfold RemoveMappingL0_body, deref_table, read_entry in Hb.
  minv; cbn [fr_cursor]; apply advance_page_reach; assumption.
Qed.

Lemma UnmapEntry_table clf level va t i wt s clf' t' s' :
  UnmapEntry clf level va t i wt s = Some ((clf', t'), s') ->
  t' = write_entry t i (MkEntry 0 None) /\
  (exists olde, tbl_ents t !! Z.to_nat i = Some olde) /\
  pmm s' = pmm s /\ pages_ s' = pages_ s.
Proof.
  unfold UnmapEntry, read_entry, TlbInvalidatePage. intros H. minv;
    repeat match goal with
    | H : FlushPtEntry _ _ _ = Some _ |- _ =>
        apply FlushPtEntry_spec in H; destruct H as (_ & _ & ? & ? & _)
    | H : ForceFlush _ _ = Some _ |- _ =>
        apply ForceFlush_spec in H; destruct H as (_ & _ & ? & ? & _)
    end; cbn [pmm pages_] in *; repeat split; eauto; congruence.
Qed.

Lemma table_span_lower level : level <> PT_L -> table_span (lower_level level) = page_size level.
Proof. destruct level; try contradiction; reflexivity. Qed.

Lemma RemoveMapping_body_reach lower level :
  level <> PT_L -> remove_none lower -> remove_reach (lower_level level) lower ->
  forall i fr s fr' s', RemoveMapping_body lower level i fr s = Some (inl fr', s') ->
    cursor_ok (fr_cursor fr) -> size (fr_cursor fr) <> 0 -> 0 <= i ->
    fr_cursor fr' = reach (page_size level) (fr_cursor fr).
Proof.
  intros Hlev Hnone Hreach i fr s fr' s' H Hok Hsz Hi.
  unfold remove_reach in Hreach. rewrite table_span_lower in Hreach by assumption.
  unfold RemoveMapping_body, RemoveMapping_descend, RemoveMapping_large, table_is_empty, deref_table, read_entry in H.
  minv; cbn [fr_cursor] in *;
    try (apply SkipEntry_reach; assumption);
    try (eapply advance_level_reach; eassumption);
    try (eapply Hreach; eassumption).
  all: match goal with
       | H : UnmapEntry _ _ _ _ _ true _ = Some _ |- _ =>
           apply UnmapEntry_table in H; destruct H as (-> & (olde & Hold) & _ & _)
       end.
  all: match goal with
       | H : tbl_ents (write_entry _ _ _) !! _ = Some _ |- _ =>
           erewrite read_write_entry in H by eauto; inv H
       end.
  all: match goal with
       | H : _ (get_next_table_from_entry _) _ _ = Some _ |- _ =>
           change (get_next_table_from_entry (MkEntry 0 None)) with (@None Table) in H;
           apply Hnone in H; destruct H as (_ & H & _); inv H
       end.
  all: apply SkipEntry_reach; assumption.
Qed.

Lemma RemoveMapping_at_reach lower level :
  level <> PT_L -> remove_none lower -> remove_reach (lower_level level) lower ->
  remove_reach level (RemoveMapping_at lower level).
Proof.
  intros Hlev Hnone Hreach table c s b t c' s' H Hok. unfold RemoveMapping_at in H.
  apply bind_inv in H. destruct H as (r & s1 & Hl & H).
  destruct r as [fr|]; [|discriminate]. minv.
  refine (loop_reach level _ _ _ _ _ _ _ Hl Hok).
  intros i fr1 s2 fr2 s3 Hb Hok1 Hsz Hi.
  eapply RemoveMapping_body_reach; eauto.
  rewrite Hi. apply vaddr_to_index_range.
Qed.

Lemma RemoveMapping_reach level : remove_reach level (RemoveMapping level).
Proof.
  destruct level; unfold RemoveMapping.
  - exact RemoveMappingL0_reach.
  - refine (RemoveMapping_at_reach _ PD_L _ RemoveMappingL0_none RemoveMappingL0_reach).
    discriminate.
  - refine (RemoveMapping_at_reach _ PDP_L _ (RemoveMapping_at_none _ _)
              (RemoveMapping_at_reach _ PD_L _ RemoveMappingL0_none RemoveMappingL0_reach));
      discriminate.
  - refine (RemoveMapping_at_reach _ PML4_L _ (RemoveMapping_at_none _ _)
              (RemoveMapping_at_reach _ PDP_L _ (RemoveMapping_at_none _ _)
                 (RemoveMapping_at_reach _ PD_L _ RemoveMappingL0_none
                    RemoveMappingL0_reach)));
      discriminate.
Qed.

(** *** Unmapping twice *)

Lemma write_entry_same t i e :
  tbl_ents t !! Z.to_nat i = Some e -> write_entry t i e = t.
Proof.
  intros H. unfold write_entry. rewrite list_insert_id by exact H. destruct t; reflexivity.
Qed.

Lemma get_next_Some e t :
  get_next_table_from_entry e = Some t ->
  IS_PAGE_PRESENT (pte_val e) = true /\ IS_LARGE_PAGE (pte_val e) = false /\
  pte_next e = Some t.
Proof.
  unfold get_next_table_from_entry.
  destruct (IS_PAGE_PRESENT (pte_val e)), (IS_LARGE_PAGE (pte_val e)); cbn; intros H;
    try discriminate; auto.
Qed.

Lemma get_next_of e :
  IS_PAGE_PRESENT (pte_val e) = true -> IS_LARGE_PAGE (pte_val e) = false ->
  get_next_table_from_entry e = pte_next e.
Proof. unfold get_next_table_from_entry. intros -> ->. reflexivity. Qed.

Lemma settled_step lower level T i e c c1 clf um s2 :
  tbl_ents T !! Z.to_nat i = Some e ->
  quiet_entry lower level e c c1 ->
  RemoveMapping_body lower level i
    {| fr_table := Some T; fr_cursor := c; fr_clf := clf; fr_unmapped := um |} s2
  = Some (inl {| fr_table := Some T; fr_cursor := c1; fr_clf := clf; fr_unmapped := um |}, s2).
Proof.
  intros He [[Hp ->] | (Hp & Hl & Hg & sub & Hn & Hlow)];
    unfold RemoveMapping_body, RemoveMapping_descend, deref_table, read_entry, bind;
    cbn [fr_table fr_cursor fr_clf fr_unmapped lift_option ret]; rewrite He;
    cbn [lift_option ret]; rewrite Hp; cbn [negb].
  - reflexivity.
  - rewrite Hl. cbn [ret]. rewrite He. cbn [lift_option ret fr_cursor].
    rewrite get_next_of, Hn, Hlow by assumption.
    rewrite Hg. cbn [negb andb ret].
    unfold link_next. rewrite He, get_next_of, Hn by assumption.
    rewrite write_entry_same; [reflexivity|]. rewrite He. f_equal. destruct e; cbn in *.
    congruence.
Qed.

Lemma settled_leaf_step T i e c c1 clf um s2 :
  tbl_ents T !! Z.to_nat i = Some e ->
  quiet_leaf e c c1 ->
  RemoveMappingL0_body i
    {| fr_table := Some T; fr_cursor := c; fr_clf := clf; fr_unmapped := um |} s2
  = Some (inl {| fr_table := Some T; fr_cursor := c1; fr_clf := clf; fr_unmapped := um |}, s2).
Proof.
  intros He [Hp ->].
  unfold RemoveMappingL0_body, deref_table, read_entry, bind.
  cbn [fr_table fr_cursor fr_clf fr_unmapped lift_option ret]. rewrite He.
  cbn [lift_option ret]. rewrite Hp. reflexivity.
Qed.

Lemma touches_only_refl i t : touches_only i t t.
Proof. split; auto. Qed.

Lemma touches_only_trans i t1 t2 t3 :
  touches_only i t1 t2 -> touches_only i t2 t3 -> touches_only i t1 t3.
Proof.
  intros [H1 H2] [H3 H4]. split; [congruence|]. intros j Hj. rewrite H4, H2; auto.
Qed.

Lemma touches_only_write i t e : touches_only i t (write_entry t i e).
Proof.
  split; [reflexivity|]. intros j Hj. unfold write_entry. cbn [tbl_ents].
  apply list_lookup_insert_ne. auto.
Qed.

Lemma same_below_refl i ot : same_below i ot ot.
Proof. destruct ot; cbn; auto. Qed.

Lemma link_next_touches t i next : touches_only i t (link_next t i next).
Proof.
  unfold link_next. destruct (tbl_ents t !! Z.to_nat i); [|apply touches_only_refl].
  destruct (get_next_table_from_entry e);
    [apply touches_only_write | apply touches_only_refl].
Qed.

Ltac unmap_tbl :=
  match goal with
  | H : UnmapEntry _ _ _ _ _ _ _ = Some _ |- _ =>
      apply UnmapEntry_table in H; destruct H as (-> & (? & ?) & _ & _)
  end.

Lemma RemoveMappingL0_body_quiet i fr s fr1 s1 :
  RemoveMappingL0_body i fr s = Some (inl fr1, s1) -> 0 <= i ->
  exists t t1 e1, fr_table fr = Some t /\ fr_table fr1 = Some t1 /\ touches_only i t t1 /\
    tbl_ents t1 !! Z.to_nat i = Some e1 /\ quiet_leaf e1 (fr_cursor fr) (fr_cursor fr1).
Proof.
  intros H Hi. unfold RemoveMappingL0_body, deref_table, read_entry in H. minv.
  - unmap_tbl.
    eexists _, _, _. split; [eassumption|]. split; [reflexivity|].
    split; [apply touches_only_write|]. split; [eapply read_write_entry; eauto|].
    split; reflexivity.
  - eexists _, _, _. split; [eassumption|]. split; [reflexivity|].
    split; [apply touches_only_refl|]. split; [eassumption|].
    split; [assumption|reflexivity].
Qed.
Lemma SplitLargePage_table level va t i s st t' s' :
  SplitLargePage level va t i s = Some ((st, t'), s') ->
  (status_is_ok st = false /\ t' = t) \/
  (status_is_ok st = true /\ exists m,
     t' = write_entry t i (MkEntry (Z.lor (Z.lor (tbl_phys m) intermediate_flags) X86_MMU_PG_P)
                             (Some m))).
Proof.
  unfold SplitLargePage, read_entry. intros H. minv.
  - right. split; [reflexivity|].
    match goal with
    | H : UpdateEntry _ _ _ _ _ _ _ _ _ _ = Some _ |- _ =>
        apply UpdateEntry_table in H; destruct H as (-> & _)
    end. eauto.
  - left. auto.
Qed.

Lemma reach_done span c : cursor_ok c -> size c = 0 -> 0 < span -> reach span c = c.
Proof.
  intros (Hv & Hs & _) Hz Hsp. unfold reach.
  pose proof (Z.mod_pos_bound (vaddr c) span Hsp).
  rewrite Hz, Z.min_l, Z.add_0_r, Z.sub_0_r, wrap64_small by lia. destruct c; cbn in *.
  congruence.
Qed.

Lemma RemoveMapping_descend_quiet lower level :
  level <> PT_L -> remove_good (lower_level level) lower ->
  forall i t fr s fr' s' e,
    RemoveMapping_descend lower level i t fr s = Some (inl fr', s') ->
    cursor_ok (fr_cursor fr) -> 0 <= i ->
    tbl_ents t !! Z.to_nat i = Some e ->
    exists t' e', fr_table fr' = Some t' /\ touches_only i t t' /\
      tbl_ents t' !! Z.to_nat i = Some e' /\
      ((get_next_table_from_entry e = None /\ e' = e /\
        fr_cursor fr' = fr_cursor fr /\ size (fr_cursor fr) = 0) \/
       (get_next_table_from_entry e <> None /\
        quiet_entry lower level e' (fr_cursor fr) (fr_cursor fr'))).
Proof.
  intros Hlev (Hok & Hnone & Hreach & Hsome & Hset) i t fr s fr' s' e H Hc Hi He.
  unfold remove_reach in Hreach. rewrite table_span_lower in Hreach by assumption.
  unfold RemoveMapping_descend, read_entry in H.
  apply bind_inv in H. destruct H as (e0 & s0 & Hr & H).
  apply lift_option_inv in Hr. cbn [fst snd] in Hr. destruct Hr as [Hr ->].
  rewrite He in Hr. inv Hr.
  apply bind_inv in H. destruct H as ([[b nt] c1] & s1 & Hlow & H).
  destruct (get_next_table_from_entry e0) as [sub|] eqn:Hn.
  - pose proof (Hreach _ _ _ _ _ _ _ Hlow Hc) as Hc1.
    pose proof (Hset _ _ _ _ _ _ _ Hlow Hc) as Hagain.
    destruct (Hsome _ _ _ _ _ _ _ Hlow Hc) as (sub' & -> & Hphys).
    destruct (get_next_Some _ _ Hn) as (Hp & Hl & Hnx).
    assert (Hlink : link_next t i (Some sub') = write_entry t i (MkEntry (pte_val e0) (Some sub'))).
    { unfold link_next. rewrite He, Hn. reflexivity. }
    rewrite Hlink in H. clear Hlink.
    apply bind_inv in H. destruct H as (u & s2 & Hu & H).
    destruct u.
    + unfold deref_table, pmm_free_page in H.
      minv; unmap_tbl; cbn [fr_table fr_cursor];
        (eexists _, _; split; [reflexivity|];
         split; [eapply touches_only_trans; apply touches_only_write|];
         split; [eapply read_write_entry; [exact Hi|eassumption]|];
         right; split; [discriminate|]; left; split; [reflexivity|];
         rewrite SkipEntry_reach by assumption; reflexivity).
    + destruct (page_aligned level (vaddr (fr_cursor fr)) &&
                (size (fr_cursor fr) >=? page_size level)) eqn:Hg.
      { cbn [negb andb] in Hu. unfold ret in Hu. inv Hu. }
      unfold ret in H. inv H. cbn [fr_table fr_cursor].
      eexists _, _. split; [reflexivity|]. split; [apply touches_only_write|].
      split; [eapply read_write_entry; [exact Hi|eassumption]|].
      right. split; [discriminate|]. right. cbn [pte_val pte_next].
      split; [assumption|]. split; [assumption|]. split; [exact Hg|].
      exists sub'. split; [reflexivity|]. exact Hagain.
  - apply Hnone in Hlow. destruct Hlow as (Hz & Hr & ->). inv Hr.
    assert (Hlink : link_next t i None = t).
    { unfold link_next. rewrite He, Hn. reflexivity. }
    rewrite Hlink in H. clear Hlink.
    assert (Hg : page_aligned level (vaddr (fr_cursor fr)) &&
                 (size (fr_cursor fr) >=? page_size level) = false).
    { destruct (page_aligned level (vaddr (fr_cursor fr)) &&
                (size (fr_cursor fr) >=? page_size level)) eqn:Hg; [|reflexivity].
      apply guard_size in Hg. lia. }
    rewrite Hg in H. cbn [negb andb] in H. unfold bind, ret in H. inv H.
    cbn [fr_table fr_cursor].
    eexists _, _. split; [reflexivity|]. split; [apply touches_only_refl|].
    split; [eassumption|]. left. auto.
Qed.

Lemma RemoveMapping_body_quiet lower level :
  level <> PT_L -> remove_good (lower_level level) lower ->
  forall i fr s fr1 s1, RemoveMapping_body lower level i fr s = Some (inl fr1, s1) ->
    cursor_ok (fr_cursor fr) -> size (fr_cursor fr) <> 0 -> 0 <= i ->
    exists t t1 e1, fr_table fr = Some t /\ fr_table fr1 = Some t1 /\ touches_only i t t1 /\
      tbl_ents t1 !! Z.to_nat i = Some e1 /\
      quiet_entry lower level e1 (fr_cursor fr) (fr_cursor fr1).
Proof.
  intros Hlev Hgood i fr s fr1 s1 H Hc Hsz Hi.
  unfold RemoveMapping_body, RemoveMapping_large, deref_table, read_entry in H.
  assert (Hps : 0 < page_size level) by (destruct (page_size_aligned level); lia).
  minv.
  - (* absent entry *)
    eexists _, _, _. split; [eassumption|]. split; [reflexivity|].
    split; [apply touches_only_refl|]. split; [eassumption|].
    left. split; [|reflexivity].
    destruct (IS_PAGE_PRESENT (pte_val x1)); [discriminate|reflexivity].
  - (* large page, covered as a whole *)
    unmap_tbl.
    eexists _, _, _. split; [eassumption|]. split; [reflexivity|].
    split; [apply touches_only_write|]. split; [eapply read_write_entry; eauto|].
    left. split; [reflexivity|]. cbn [fr_cursor].
    rewrite SkipEntry_reach by assumption. apply advance_level_reach; assumption.
  - (* large page, the split failed *)
    match goal with
    | H : SplitLargePage _ _ _ _ _ = Some _ |- _ =>
        apply SplitLargePage_table in H; destruct H as [[_ ->] | [Hs _]]
    end; [|rewrite Hs in *; discriminate].
    unmap_tbl.
    match goal with
    | H : RemoveMapping_descend _ _ _ _ _ _ = Some _ |- _ =>
        eapply (RemoveMapping_descend_quiet lower level Hlev Hgood) with
          (e := MkEntry 0 None) in H;
          [ | apply SkipEntry_ok; assumption | exact Hi | eapply read_write_entry; eauto ]
    end.
    destruct H as (t' & e' & Ht' & Hto & He' & [(_ & -> & Hcur & _) | (Hne & _)]);
      [|exfalso; apply Hne; reflexivity].
    cbn [fr_cursor] in Hcur.
    eexists _, _, _. split; [eassumption|]. split; [eassumption|].
    split; [eapply touches_only_trans; [apply touches_only_write | exact Hto]|].
    split; [exact He'|]. left. split; [reflexivity | exact Hcur].
  - (* large page, split *)
    match goal with
    | H : SplitLargePage _ _ _ _ _ = Some _ |- _ =>
        apply SplitLargePage_table in H; destruct H as [[Hs _] | [_ (m & ->)]]
    end; [rewrite Hs in *; discriminate|].
    match goal with
    | H : RemoveMapping_descend _ _ _ _ _ _ = Some _ |- _ =>
        eapply (RemoveMapping_descend_quiet lower level Hlev Hgood) in H;
          [ | exact Hc | exact Hi | eapply read_write_entry; eauto ]
    end.
    destruct H as (t' & e' & Ht' & Hto & He' & [(_ & _ & _ & Hz) | (_ & Hq)]);
      [cbn [fr_cursor] in Hz; contradiction|].
    eexists _, _, _. split; [eassumption|]. split; [eassumption|].
    split; [eapply touches_only_trans; [apply touches_only_write | exact Hto]|].
    split; [exact He' | exact Hq].
  - (* a table *)
    match goal with
    | H : RemoveMapping_descend _ _ _ _ _ _ = Some _ |- _ =>
        eapply (RemoveMapping_descend_quiet lower level Hlev Hgood) in H;
          [ | exact Hc | exact Hi | eassumption ]
    end.
    destruct H as (t' & e' & Ht' & Hto & He' & [(_ & _ & _ & Hz) | (_ & Hq)]);
      [contradiction|].
    eexists _, _, _. split; [eassumption|]. split; [eassumption|].
    split; [exact Hto|]. split; [exact He' | exact Hq].
Qed.

Section Settle.
Context {R : Type} (body : Z -> Frame -> M (Frame + R)).
Variable Q : Entry -> MappingCursor -> MappingCursor -> Prop.
Hypothesis first_run : forall i fr s fr1 s1,
  body i fr s = Some (inl fr1, s1) ->
  cursor_ok (fr_cursor fr) -> size (fr_cursor fr) <> 0 -> 0 <= i ->
  cursor_ok (fr_cursor fr1) /\
  exists t t1 e1, fr_table fr = Some t /\ fr_table fr1 = Some t1 /\ touches_only i t t1 /\
    tbl_ents t1 !! Z.to_nat i = Some e1 /\ Q e1 (fr_cursor fr) (fr_cursor fr1).
Hypothesis second_run : forall i t e c c1 clf um s2,
  tbl_ents t !! Z.to_nat i = Some e -> Q e c c1 ->
  body i {| fr_table := Some t; fr_cursor := c; fr_clf := clf; fr_unmapped := um |} s2
  = Some (inl {| fr_table := Some t; fr_cursor := c1; fr_clf := clf; fr_unmapped := um |}, s2).

Lemma settled_loop n : forall fr s fr' s',
  for_each_entry n body fr s = Some (inl fr', s') ->
  cursor_ok (fr_cursor fr) -> Z.of_nat n <= NO_OF_PT_ENTRIES ->
  same_below (NO_OF_PT_ENTRIES - Z.of_nat n) (fr_table fr) (fr_table fr') /\
  forall clf um s2,
    for_each_entry n body
      {| fr_table := fr_table fr'; fr_cursor := fr_cursor fr; fr_clf := clf;
         fr_unmapped := um |} s2
    = Some (inl {| fr_table := fr_table fr'; fr_cursor := fr_cursor fr'; fr_clf := clf;
                   fr_unmapped := um |}, s2).
Proof.
  induction n as [|n IH]; intros fr s fr' s' H Hc Hn.
  - cbn [for_each_entry] in H. unfold ret in H. inv H.
    split; [apply same_below_refl | reflexivity].
  - cbn [for_each_entry] in H. cbn [for_each_entry fr_cursor].
    destruct (size (fr_cursor fr) =? 0) eqn:Hz.
    + unfold ret in H. inv H. split; [apply same_below_refl | reflexivity].
    + apply Z.eqb_neq in Hz. apply bind_inv in H. destruct H as (r & s1 & Hb & H).
      destruct r as [fr1|x]; [|unfold ret in H; inv H].
      destruct (first_run _ _ _ _ _ Hb Hc Hz ltac:(lia))
        as (Hc1 & t & t1 & e1 & Ht & Ht1 & [Hph Hto] & He1 & HQ).
      destruct (IH _ _ _ _ H Hc1 ltac:(lia)) as (Hsb & Hagain).
      rewrite Ht1 in Hsb. rewrite Ht. unfold same_below in Hsb |- *.
      destruct (fr_table fr') as [t'|] eqn:Ht'; [|contradiction].
      destruct Hsb as [Hph' Hlow]. split.
      * split; [congruence|]. intros j Hj. rewrite Hlow by lia. apply Hto. lia.
      * intros clf um s2. unfold bind.
        rewrite (second_run _ t' e1 _ (fr_cursor fr1)); [apply Hagain | | exact HQ].
        rewrite Hlow by lia. exact He1.
Qed.

Lemma settled_walk level table c s b t' c' s' :
  (let* r := for_each_entry (entries_from (vaddr_to_index level (vaddr c))) body
               (new_frame table c) in
   match r with
   | inl fr => ForceFlush (fr_clf fr);; ret (fr_unmapped fr, fr_table fr, fr_cursor fr)
   | inr _ => fault
   end) s = Some ((b, t', c'), s') ->
  cursor_ok c ->
  same_below 0 table t' /\
  forall s2,
    (let* r := for_each_entry (entries_from (vaddr_to_index level (vaddr c))) body
                 (new_frame t' c) in
     match r with
     | inl fr => ForceFlush (fr_clf fr);; ret (fr_unmapped fr, fr_table fr, fr_cursor fr)
     | inr _ => fault
     end) s2 = Some ((false, t', c'), s2).
Proof.
  intros H Hc. apply bind_inv in H. destruct H as (r & s1 & Hl & H).
  destruct r as [fr|]; [|discriminate]. minv.
  pose proof (vaddr_to_index_range level (vaddr c)) as Hi.
  apply settled_loop in Hl; [|exact Hc|unfold entries_from; lia].
  destruct Hl as [Hsb Hagain]. cbn [new_frame fr_table fr_cursor] in *. split.
  - destruct table as [t|], (fr_table fr) as [t1|]; cbn in Hsb |- *; try tauto.
    destruct Hsb as [Hph _]. split; [exact Hph|]. intros j Hj. lia.
  - intros s2. unfold bind, new_frame. rewrite Hagain. cbn [fr_clf fr_unmapped fr_table fr_cursor].
    rewrite ForceFlush_clean. reflexivity.
Qed.
End Settle.

Lemma same_below_some i t ot' :
  same_below i (Some t) ot' -> exists t1, ot' = Some t1 /\ tbl_phys t1 = tbl_phys t.
Proof. destruct ot' as [t1|]; cbn; [|contradiction]. intros [H _]. eauto. Qed.

Lemma RemoveMappingL0_good : remove_good PT_L RemoveMappingL0.
Proof.
  assert (Hw : forall table c s b t' c' s',
             RemoveMappingL0 table c s = Some ((b, t', c'), s') -> cursor_ok c ->
             same_below 0 table t' /\
             forall s2, RemoveMappingL0 t' c s2 = Some ((false, t', c'), s2)).
  { intros table c s b t' c' s'.
    refine (settled_walk RemoveMappingL0_body quiet_leaf _ _ PT_L table c s b t' c' s').
    - intros i fr s0 fr1 s1 Hb Hc Hsz Hi. split.
      + exact (proj1 (RemoveMappingL0_body_ok _ _ _ (inl fr1) _ Hb Hc Hsz)).
      + eapply RemoveMappingL0_body_quiet; eauto.
    - intros. eapply settled_leaf_step; eassumption. }
  split; [exact RemoveMappingL0_ok|]. split; [exact RemoveMappingL0_none|].
  split; [exact RemoveMappingL0_reach|]. split.
  - intros t c s b t' c' s' H Hc. eapply same_below_some. eapply Hw; eauto.
  - intros table c s b t' c' s' H Hc. eapply Hw; eauto.
Qed.

Lemma RemoveMapping_at_good lower level :
  level <> PT_L -> remove_good (lower_level level) lower ->
  remove_good level (RemoveMapping_at lower level).
Proof.
  intros Hlev Hgood.
  assert (Hw : forall table c s b t' c' s',
             RemoveMapping_at lower level table c s = Some ((b, t', c'), s') -> cursor_ok c ->
             same_below 0 table t' /\
             forall s2, RemoveMapping_at lower level t' c s2 = Some ((false, t', c'), s2)).
  { intros table c s b t' c' s'.
    refine (settled_walk (RemoveMapping_body lower level) (quiet_entry lower level) _ _
              level table c s b t' c' s').
    - intros i fr s0 fr1 s1 Hb Hc Hsz Hi. split.
      + destruct Hgood as (Hok & _).
        exact (proj1 (RemoveMapping_body_ok lower level Hok _ _ _ (inl fr1) _ Hb Hc Hsz)).
      + eapply RemoveMapping_body_quiet; eauto.
    - intros. eapply settled_step; eassumption. }
  destruct Hgood as (Hok & Hnone & Hreach & Hsome & Hset).
  split; [exact (RemoveMapping_at_ok _ _ Hok)|]. split; [exact (RemoveMapping_at_none _ _)|].
  split; [exact (RemoveMapping_at_reach _ _ Hlev Hnone Hreach)|]. split.
  - intros t c s b t' c' s' H Hc. eapply same_below_some. eapply Hw; eauto.
  - intros table c s b t' c' s' H Hc. eapply Hw; eauto.
Qed.

Lemma RemoveMapping_good level : remove_good level (RemoveMapping level).
Proof.
  destruct level; unfold RemoveMapping.
  - exact RemoveMappingL0_good.
  - refine (RemoveMapping_at_good _ PD_L _ RemoveMappingL0_good). discriminate.
  - refine (RemoveMapping_at_good _ PDP_L _
              (RemoveMapping_at_good _ PD_L _ RemoveMappingL0_good)); discriminate.
  - refine (RemoveMapping_at_good _ PML4_L _
              (RemoveMapping_at_good _ PDP_L _
                 (RemoveMapping_at_good _ PD_L _ RemoveMappingL0_good))); discriminate.
Qed.

(** C6.  UnmapPages(v, n) twice, for a valid page-aligned 64-bit [vaddr]:
    when the first call returns, the second call on the address space it
    left returns ZX_OK and leaves the same tables, the same [pages_] and
    the same allocator; all it adds to the trace is the lock and its
    release (none when [count] is 0), so it stores into no entry, flushes
    nothing, frees nothing and issues no TLB invalidation. *)
Theorem C6_unmap_twice v n virt s r virt1 s1 :
  check_vaddr v = true -> 0 <= v < 2 ^ 64 -> v mod PAGE_SIZE = 0 ->
  UnmapPages v n virt s = Some ((r, virt1), s1) ->
  r = ZX_OK /\
  exists s2,
    UnmapPages v n virt1 s1 = Some ((ZX_OK, virt1), s2) /\
    pages_ s2 = pages_ s1 /\ pmm s2 = pmm s1 /\
    trace s2 = trace s1 ++ (if n =? 0 then [] else [EvLock; EvUnlock]).
Proof.
  intros Hchk Hv Hal H. unfold UnmapPages in H |- *. rewrite Hchk in H |- *.
  cbn [negb] in H |- *. destruct (n =? 0).
  - unfold ret in H. inv H. split; [reflexivity|]. exists s1.
    rewrite app_nil_r. auto.
  - apply bind_inv in H. destruct H as ([] & s0 & Hlock & H).
    apply bind_inv in H. destruct H as ([[b t] c'] & s3 & Hw & H).
    unfold emit in Hlock. inv Hlock. minv. split; [reflexivity|].
    destruct (RemoveMapping_good top_level) as (_ & _ & _ & _ & Hset).
    assert (Hc : cursor_ok {| paddr := 0; vaddr := v; size := wrap64 (n * PAGE_SIZE) |}).
    { unfold cursor_ok. cbn [vaddr size]. split; [exact Hv|].
      split; [apply wrap64_range|]. split; [exact Hal|].
      unfold wrap64. change PAGE_SIZE with 4096.
      change (2 ^ 64) with 18446744073709551616.
      Z.to_euclidean_division_equations; lia. }
    eexists. unfold bind, emit. rewrite (Hset _ _ _ _ _ _ _ Hw Hc).
    split; [reflexivity|]. cbn [pages_ pmm trace]. rewrite <- !app_assoc. auto.
Qed.

(** *** [pages_] counts the tables *)

Lemma count_tables_sum level t :
  count_tables level t =
  sum_Z (map (entry_tables level) (take (Z.to_nat NO_OF_PT_ENTRIES) (tbl_ents t))).
Proof.
  destruct t as [pa ents]. cbn [count_tables tbl_ents].
  generalize (Z.to_nat NO_OF_PT_ENTRIES). induction ents as [|[v nx] l IH]; intros n.
  - rewrite take_nil. reflexivity.
  - destruct n as [|n]; [reflexivity|]. cbn [take map sum_Z foldr]. rewrite <- IH.
    reflexivity.
Qed.

Lemma sum_Z_insert {A} (f : A -> Z) l i e e' :
  l !! i = Some e ->
  sum_Z (map f (<[i:=e']> l)) = sum_Z (map f l) - f e + f e'.
Proof.
  unfold sum_Z. revert i. induction l as [|x l IH]; intros i H; [discriminate|].
  destruct i as [|i]; cbn in H |- *.
  - inv H. lia.
  - transitivity (f x + (foldr Z.add 0 (map f l) - f e + f e')); [|lia].
    f_equal. apply IH, H.
Qed.

Lemma count_tables_write level t i e e' :
  0 <= i < NO_OF_PT_ENTRIES -> tbl_ents t !! Z.to_nat i = Some e ->
  count_tables level (write_entry t i e') =
  count_tables level t - entry_tables level e + entry_tables level e'.
Proof.
  intros Hi He. rewrite !count_tables_sum. unfold write_entry. cbn [tbl_ents].
  rewrite take_insert_lt by lia. apply sum_Z_insert.
  rewrite lookup_take_lt by lia. exact He.
Qed.

Lemma count_tables_PT t : count_tables PT_L t = 0.
Proof.
  rewrite count_tables_sum. generalize (take (Z.to_nat NO_OF_PT_ENTRIES) (tbl_ents t)).
  intros l. induction l as [|e l IH]; [reflexivity|]. cbn [map sum_Z foldr].
  change (foldr Z.add 0 (map (entry_tables PT_L) l)) with (sum_Z (map (entry_tables PT_L) l)).
  rewrite IH. reflexivity.
Qed.

Lemma sum_Z_zero {A} (f : A -> Z) l :
  Forall (fun x => f x = 0) l -> sum_Z (map f l) = 0.
Proof.
  induction 1 as [|x l Hx _ IH]; [reflexivity|]. cbn [map sum_Z foldr].
  change (foldr Z.add 0 (map f l)) with (sum_Z (map f l)). lia.
Qed.

Lemma entry_tables_absent level e :
  IS_PAGE_PRESENT (pte_val e) = false -> entry_tables level e = 0.
Proof.
  intros H. unfold entry_tables, is_intermediate. rewrite H, andb_false_r. reflexivity.
Qed.

Lemma entry_tables_large level e :
  IS_LARGE_PAGE (pte_val e) = true -> entry_tables level e = 0.
Proof.
  intros H. unfold entry_tables, is_intermediate. rewrite H, andb_false_r. reflexivity.
Qed.

Lemma entry_tables_table level e :
  level <> PT_L -> IS_PAGE_PRESENT (pte_val e) = true -> IS_LARGE_PAGE (pte_val e) = false ->
  entry_tables level e = 1 + count_from (lower_level level) (pte_next e).
Proof.
  intros Hl Hp Hg. unfold entry_tables, is_intermediate. rewrite Hp, Hg.
  destruct level; try contradiction; reflexivity.
Qed.

Lemma count_tables_empty level t :
  forallb (fun e => negb (IS_PAGE_PRESENT (pte_val e)))
    (take (Z.to_nat NO_OF_PT_ENTRIES) (tbl_ents t)) = true ->
  count_tables level t = 0.
Proof.
  intros H. rewrite count_tables_sum. apply sum_Z_zero.
  induction (take (Z.to_nat NO_OF_PT_ENTRIES) (tbl_ents t)) as [|e l IH]; [constructor|].
  cbn [forallb] in H. apply andb_true_iff in H. destruct H as [He Hl].
  constructor; [|auto]. apply entry_tables_absent. apply negb_true_iff. exact He.
Qed.

Lemma count_tables_zero level pa : count_tables level (zero_table pa) = 0.
Proof.
  apply count_tables_empty. unfold zero_table. cbn [tbl_ents].
  rewrite take_replicate. generalize (Z.to_nat NO_OF_PT_ENTRIES `min` Z.to_nat NO_OF_PT_ENTRIES)%nat.
  intros n. induction n; [reflexivity|]. cbn [replicate forallb]. rewrite IHn. reflexivity.
Qed.

(** The number of tables below a table of each level is bounded. *)
Lemma count_tables_bound level t :
  0 <= count_tables level t <=
  match level with
  | PT_L => 0
  | PD_L => 512
  | PDP_L => 512 * 513
  | PML4_L => 512 * (1 + 512 * 513)
  end.
Proof.
  assert (Hsum : forall (f : Entry -> Z) b l, 0 <= b ->
            (forall e, 0 <= f e <= b) -> 0 <= sum_Z (map f l) <= Z.of_nat (length l) * b).
  { intros f b l Hb Hf. induction l as [|e l IH]; [cbn; lia|].
    cbn [map sum_Z foldr length].
    change (foldr Z.add 0 (map f l)) with (sum_Z (map f l)).
    specialize (Hf e). rewrite Nat2Z.inj_succ. nia. }
  assert (Hstep : forall lv b, 0 <= b ->
            (forall t', 0 <= count_tables (lower_level lv) t' <= b) ->
            forall t', 0 <= count_tables lv t' <= 512 * (1 + b)).
  { intros lv b Hb Hlow t'. rewrite count_tables_sum.
    pose proof (Hsum (entry_tables lv) (1 + b)
                  (take (Z.to_nat NO_OF_PT_ENTRIES) (tbl_ents t')) ltac:(lia)) as H.
    assert (He : forall e, 0 <= entry_tables lv e <= 1 + b).
    { intros e. unfold entry_tables. destruct (is_intermediate lv (pte_val e)); [|lia].
      destruct (pte_next e) as [sub|]; [specialize (Hlow sub)|]; lia. }
    specialize (H He). pose proof (length_take (tbl_ents t') (Z.to_nat NO_OF_PT_ENTRIES)) as Hlen.
    change (Z.to_nat NO_OF_PT_ENTRIES) with 512%nat in *. nia. }
  assert (H0 : forall t', 0 <= count_tables PT_L t' <= 0)
    by (intros t'; rewrite count_tables_PT; lia).
  pose proof (Hstep PD_L 0 ltac:(lia) H0) as H1.
  pose proof (Hstep PDP_L 512 ltac:(lia) H1) as H2.
  pose proof (Hstep PML4_L (512 * 513) ltac:(lia) H2) as H3.
  destruct level; [apply H0 | apply H1 | apply H2 | apply H3].
Qed.

Lemma aligned_kept_refl s : aligned_kept s s.
Proof. intros H. exact H. Qed.

Lemma aligned_kept_trans s1 s2 s3 :
  aligned_kept s1 s2 -> aligned_kept s2 s3 -> aligned_kept s1 s3.
Proof. unfold aligned_kept. auto. Qed.

Lemma aligned_kept_emit e s :
  is_lock_event e = false -> is_alloc e = false ->
  aligned_kept s {| pages_ := pages_ s; pmm := pmm s; trace := trace s ++ [e] |}.
Proof. intros _ _ H. exact H. Qed.

Lemma aligned_kept_pages n s :
  aligned_kept s {| pages_ := wrap64 (pages_ s + n); pmm := pmm s; trace := trace s |}.
Proof. intros H. exact H. Qed.

Lemma aligned_kept_alloc s a s' : pmm_alloc_kpage s = Some (a, s') -> aligned_kept s s'.
Proof.
  unfold pmm_alloc_kpage. intros H. inv H. unfold aligned_kept, frames_aligned. cbn [pmm].
  destruct (pmm s); cbn [tail]; [auto|]. intros Hf. inv Hf. assumption.
Qed.

Lemma all_absent_count level table : all_absent table -> count_from level table = 0.
Proof.
  intros (t & -> & H). cbn [count_from]. rewrite count_tables_sum. apply sum_Z_zero.
  apply Forall_lookup_2. intros j e Hj. apply lookup_take_Some in Hj. destruct Hj as [Hj Hlt].
  destruct (H j Hlt) as (e' & He' & Hp). rewrite Hj in He'. inv He'.
  apply entry_tables_absent. exact Hp.
Qed.

Lemma table_is_empty_inv t s b s' :
  table_is_empty (Some t) s = Some (b, s') ->
  s' = s /\ (b = true -> forall level, count_tables level t = 0).
Proof.
  unfold table_is_empty, deref_table. intros H. minv. split; [reflexivity|].
  intros Hb level. apply count_tables_empty.
  destruct (NO_OF_PT_ENTRIES <=? Z.of_nat (length (tbl_ents x))); [|discriminate].
  congruence.
Qed.

(** Arithmetic of the 64-bit counter. *)
Lemma wrap64_shift a b k : wrap64 a = wrap64 b -> wrap64 (a + k) = wrap64 (b + k).
Proof.
  unfold wrap64. intros H. rewrite <- (Zplus_mod_idemp_l a), <- (Zplus_mod_idemp_l b), H.
  reflexivity.
Qed.

Lemma wrap64_idem_l a b : wrap64 (wrap64 a + b) = wrap64 (a + b).
Proof. unfold wrap64. apply Zplus_mod_idemp_l. Qed.

Lemma excess_step level t s t' s' d :
  pages_ s' = wrap64 (pages_ s + d) ->
  count_from level t' = count_from level t + d ->
  excess level t' s' = excess level t s.
Proof.
  intros Hp Hc. unfold excess. rewrite Hp, Hc.
  replace (wrap64 (pages_ s + d) - (count_from level t + d))
    with (wrap64 (pages_ s + d) + (- (count_from level t + d))) by lia.
  rewrite wrap64_idem_l. f_equal. lia.
Qed.

Lemma excess_same level t s t' s' :
  pages_ s' = pages_ s -> count_from level t' = count_from level t ->
  excess level t' s' = excess level t s.
Proof. intros Hp Hc. unfold excess. rewrite Hp, Hc. reflexivity. Qed.

Lemma large_lor_P pa flags :
  IS_LARGE_PAGE flags = true ->
  IS_LARGE_PAGE (Z.lor (Z.lor pa flags) X86_MMU_PG_P) = true.
Proof.
  unfold IS_LARGE_PAGE. intros H. rewrite !Z.land_lor_distr_l.
  apply negb_true_iff, Z.eqb_neq. apply negb_true_iff, Z.eqb_neq in H.
  intros H0. apply Z.lor_eq_0_iff in H0. destruct H0 as [H0 _].
  apply Z.lor_eq_0_iff in H0. destruct H0 as [_ H0]. contradiction.
Qed.

Lemma large_flags_mask v :
  IS_LARGE_PAGE v = true -> IS_LARGE_PAGE (Z.land v X86_LARGE_FLAGS_MASK) = true.
Proof.
  unfold IS_LARGE_PAGE. intros H. rewrite <- Z.land_assoc.
  change (Z.land X86_LARGE_FLAGS_MASK X86_MMU_PG_PS) with X86_MMU_PG_PS. exact H.
Qed.

Lemma split_fill_count n : forall i clf level m va pa ps flags s clf' m' s',
  split_fill n i clf level m va pa ps flags s = Some ((clf', m'), s') ->
  0 <= i -> i + Z.of_nat n <= NO_OF_PT_ENTRIES ->
  level = PT_L \/ IS_LARGE_PAGE flags = true ->
  count_tables level m = 0 ->
  count_tables level m' = 0 /\ tbl_phys m' = tbl_phys m /\
  pages_ s' = pages_ s /\ pmm s' = pmm s.
Proof.
  induction n as [|n IH]; intros i clf level m va pa ps flags s clf' m' s' H Hi Hn Hl Hc.
  - cbn [split_fill] in H. unfold ret in H. inv H. auto.
  - cbn [split_fill] in H. apply bind_inv in H. destruct H as ([clf1 m1] & s1 & Hu & H).
    apply UpdateEntry_table in Hu. destruct Hu as (-> & (olde & Hold) & Hpm & Hpg).
    apply IH in H; [| lia | lia | exact Hl |].
    + destruct H as (H1 & H2 & H3 & H4). split; [exact H1|].
      split; [rewrite H2; reflexivity|]. split; congruence.
    + destruct Hl as [-> | Hl]; [apply count_tables_PT|].
      rewrite (count_tables_write _ _ _ olde) by (auto; lia).
      rewrite (entry_tables_large _ (MkEntry _ _)) by (apply large_lor_P; exact Hl).
      pose proof (count_tables_bound level (write_entry m i
        (MkEntry (Z.lor (Z.lor pa flags) X86_MMU_PG_P) None))) as Hb.
      rewrite (count_tables_write _ _ _ olde) in Hb by (auto; lia).
      rewrite (entry_tables_large _ (MkEntry _ _)) in Hb by (apply large_lor_P; exact Hl).
      assert (0 <= entry_tables level olde).
      { unfold entry_tables. destruct (is_intermediate level (pte_val olde)); [|lia].
        destruct (pte_next olde) as [sub|]; [|lia].
        pose proof (count_tables_bound (lower_level level) sub). lia. }
      lia.
Qed.

Section Counted.
Hypothesis H_int : Z.land intermediate_flags X86_MMU_PG_PS = 0.
Hypothesis H_split : forall f,
  IS_LARGE_PAGE f = true -> IS_LARGE_PAGE (split_flags PDP_L f) = true.

Lemma SplitLargePage_counted level va t i e s st t' s' :
  SplitLargePage level va t i s = Some ((st, t'), s') ->
  level <> PT_L -> 0 <= i < NO_OF_PT_ENTRIES ->
  tbl_ents t !! Z.to_nat i = Some e -> IS_LARGE_PAGE (pte_val e) = true ->
  frames_aligned (pmm s) ->
  excess level (Some t') s' = excess level (Some t) s /\ frames_aligned (pmm s') /\
  exists e', tbl_ents t' !! Z.to_nat i = Some e' /\
    (status_is_ok st = false -> e' = e).
Proof.
  intros H Hlev Hi He Hlarge Hfa. unfold SplitLargePage, read_entry in H.
  apply bind_inv in H. destruct H as (e0 & s0 & Hr & H).
  apply lift_option_inv in Hr. cbn [fst snd] in Hr. destruct Hr as [Hr ->].
  rewrite He in Hr. inv Hr.
  apply bind_inv in H. destruct H as (m & s1 & Ha & H).
  apply map_alloc_inv in Ha. destruct Ha as (Hpg & Hpm & Hm).
  assert (Hfa1 : frames_aligned (pmm s1)).
  { rewrite Hpm. unfold frames_aligned in *. destruct (pmm s); cbn [tail]; [auto|].
    inv Hfa. assumption. }
  destruct m as [m|].
  2:{ unfold ret in H. inv H. split; [apply excess_same; auto|]. split; [exact Hfa1|].
      exists e0. auto. }
  destruct Hm as (pa & Hpa & ->).
  assert (Hal : pa mod PAGE_SIZE = 0).
  { rewrite Hpa in Hfa. inv Hfa. auto. }
  apply bind_inv in H. destruct H as (pb & s2 & Hpb & H).
  apply lift_option_inv in Hpb. cbn [fst snd] in Hpb. destruct Hpb as [Hpb ->].
  apply bind_inv in H. destruct H as ([clf m'] & s3 & Hf & H).
  apply split_fill_count in Hf; [| lia | change NO_OF_PT_ENTRIES with 512; lia | |
                                 apply count_tables_zero].
  2:{ destruct level; try contradiction; [left; reflexivity | right | discriminate Hpb].
      apply H_split, large_flags_mask, Hlarge. }
  destruct Hf as (Hc0 & Hph & Hpg3 & Hpm3).
  apply bind_inv in H. destruct H as ([clf2 t2] & s4 & Hu & H).
  apply UpdateEntry_table in Hu. destruct Hu as (-> & _ & Hpm4 & Hpg4).
  unfold ForceFlush in H. minv;
    (split; [|split; [cbn [pmm]; congruence|]]);
    try (eexists; split; [eapply read_write_entry; [lia|eassumption]|]; cbn; discriminate).
  all: apply (excess_step _ _ _ _ _ 1); [cbn [pages_]; congruence|].
  all: cbn [count_from]; rewrite (count_tables_write _ _ _ e0) by (auto; lia).
  all: rewrite (entry_tables_large _ e0) by assumption.
  all: rewrite entry_tables_table;
    [ cbn [pte_next count_from]; rewrite Hc0; lia | exact Hlev
    | apply present_lor_P
    | cbn [pte_val]; rewrite Hph; apply intermediate_not_large; assumption ].
Qed.

(** *** A walk over a whole table leaves it empty *)

Section Clears.
Context {R : Type} (body : Z -> Frame -> M (Frame + R)).
Variable Q : Entry -> MappingCursor -> MappingCursor -> Prop.
Variable level : PageTableLevel.
Hypothesis first_run : forall i fr s fr1 s1,
  body i fr s = Some (inl fr1, s1) ->
  cursor_ok (fr_cursor fr) -> size (fr_cursor fr) <> 0 -> 0 <= i ->
  cursor_ok (fr_cursor fr1) /\
  exists t t1 e1, fr_table fr = Some t /\ fr_table fr1 = Some t1 /\ touches_only i t t1 /\
    tbl_ents t1 !! Z.to_nat i = Some e1 /\ Q e1 (fr_cursor fr) (fr_cursor fr1).
Hypothesis step_reach : forall i fr s fr1 s1,
  body i fr s = Some (inl fr1, s1) ->
  cursor_ok (fr_cursor fr) -> size (fr_cursor fr) <> 0 -> 0 <= i ->
  fr_cursor fr1 = reach (page_size level) (fr_cursor fr).
Hypothesis covered : forall e c c1,
  Q e c c1 -> page_aligned level (vaddr c) && (size c >=? page_size level) = true ->
  IS_PAGE_PRESENT (pte_val e) = false.

Lemma clears_loop t c s fr' s' :
  for_each_entry (entries_from (vaddr_to_index level (vaddr c))) body
    (new_frame (Some t) c) s = Some (inl fr', s') ->
  cursor_ok c -> vaddr c mod table_span level = 0 -> table_span level <= size c ->
  all_absent (fr_table fr').
Proof.
  intros H Hok Hal Hsz.
  assert (Hidx : vaddr_to_index level (vaddr c) = 0).
  { rewrite vaddr_to_index_div. clear H. destruct Hok as (Hv & _).
    level_consts level; Z.to_euclidean_division_equations; lia. }
  rewrite Hidx in H. apply for_each_entry_reaches in H. destruct H as (n' & Hr & Hend).
  set (I := fun (n : nat) (fr : Frame) (_ : Machine) =>
    cursor_ok (fr_cursor fr) /\
    vaddr (fr_cursor fr) = wrap64 (vaddr c + (NO_OF_PT_ENTRIES - Z.of_nat n) * page_size level) /\
    size (fr_cursor fr) = size c - (NO_OF_PT_ENTRIES - Z.of_nat n) * page_size level /\
    Z.of_nat n <= NO_OF_PT_ENTRIES /\
    exists t1, fr_table fr = Some t1 /\
      forall j, Z.of_nat j < NO_OF_PT_ENTRIES - Z.of_nat n ->
        exists e, tbl_ents t1 !! j = Some e /\ IS_PAGE_PRESENT (pte_val e) = false).
  assert (HI : I n' fr' s').
  { apply (loop_reaches_inv body I) with (2 := Hr).
    - intros n fr1 s1 fr2 s2 (Hc1 & Hv1 & Hs1 & Hn & t1 & Ht1 & Habs) Hnz Hb.
      assert (Hi : 0 <= NO_OF_PT_ENTRIES - Z.of_nat (S n)) by lia.
      pose proof (step_reach _ _ _ _ _ Hb Hc1 Hnz Hi) as Hc2.
      destruct (first_run _ _ _ _ _ Hb Hc1 Hnz Hi)
        as (Hok2 & t1' & t2 & e2 & Ht1' & Ht2 & [Hph Hto] & He2 & HQ).
      rewrite Ht1 in Ht1'. inv Ht1'.
      assert (Hg : page_aligned level (vaddr (fr_cursor fr1)) &&
                   (size (fr_cursor fr1) >=? page_size level) = true).
      { apply andb_true_iff. split.
        - apply page_aligned_mod. rewrite Hv1. clear - Hal Hn. unfold wrap64.
          rewrite Nat2Z.inj_succ in *.
          level_consts level; Z.to_euclidean_division_equations; lia.
        - apply Z.geb_le. rewrite Hs1. clear - Hsz Hn. rewrite Nat2Z.inj_succ in *.
          level_consts level; lia. }
      pose proof (covered _ _ _ HQ Hg) as Hp2.
      pose proof (guard_size _ _ _ Hg) as Hps.
      apply andb_true_iff in Hg. destruct Hg as [Hga _]. apply page_aligned_mod in Hga.
      unfold I. split; [exact Hok2|]. rewrite Hc2. unfold reach. cbn [vaddr size].
      rewrite Hga, Z.sub_0_r, Z.min_r by lia.
      split; [|split; [|split; [lia|]]].
      + rewrite Hv1. unfold wrap64. rewrite Zplus_mod_idemp_l. f_equal.
        rewrite !Nat2Z.inj_succ. lia.
      + rewrite Hs1. rewrite !Nat2Z.inj_succ. lia.
      + exists t2. split; [exact Ht2|]. intros j Hj.
        destruct (Nat.eq_dec j (Z.to_nat (NO_OF_PT_ENTRIES - Z.of_nat (S n)))) as [->|Hne].
        * eauto.
        * rewrite Hto by exact Hne. apply Habs. lia.
    - unfold I, entries_from, new_frame. cbn [fr_cursor fr_table].
      rewrite Z2Nat.id by (change NO_OF_PT_ENTRIES with 512; lia).
      replace (NO_OF_PT_ENTRIES - (NO_OF_PT_ENTRIES - 0)) with 0 by lia.
      rewrite Z.mul_0_l, Z.add_0_r, Z.sub_0_r.
      split; [exact Hok|]. destruct Hok as (Hv & _).
      split; [symmetry; apply wrap64_small; exact Hv|]. split; [reflexivity|].
      split; [lia|]. exists t. split; [reflexivity|]. intros j Hj. lia. }
  destruct HI as (Hc' & Hv' & Hs' & Hn' & t1 & Ht1 & Habs).
  exists t1. split; [exact Ht1|]. intros j Hj. apply Habs.
  assert (n' = 0%nat); [|subst n'; lia].
  destruct Hend as [->|Hz]; [reflexivity|]. rewrite Hz in Hs'.
  clear - Hs' Hsz Hn'. level_consts level; lia.
Qed.
End Clears.

Lemma RemoveMappingL0_clears : remove_clears PT_L RemoveMappingL0.
Proof.
  intros t c s b t' c' s' H Hok Hal Hsz. unfold RemoveMappingL0 in H.
  apply bind_inv in H. destruct H as (r & s1 & Hl & H).
  destruct r as [fr|]; [|discriminate]. minv.
  refine (clears_loop RemoveMappingL0_body quiet_leaf PT_L _ _ _ t c s fr _ Hl Hok Hal Hsz).
  - intros i fr0 s0 fr1 s2 Hb Hc Hnz Hi. split.
    + exact (proj1 (RemoveMappingL0_body_ok _ _ _ (inl fr1) _ Hb Hc Hnz)).
    + eapply RemoveMappingL0_body_quiet; eauto.
  - intros i fr0 s0 fr1 s2 Hb Hc Hnz Hi.
    unfold RemoveMappingL0_body, deref_table, read_entry in Hb.
    minv; cbn [fr_cursor]; apply advance_page_reach; assumption.
  - intros e c0 c1 [Hp _] _. exact Hp.
Qed.

Lemma RemoveMapping_at_clears lower level :
  level <> PT_L -> remove_good (lower_level level) lower ->
  remove_clears level (RemoveMapping_at lower level).
Proof.
  intros Hlev Hgood t c s b t' c' s' H Hok Hal Hsz. unfold RemoveMapping_at in H.
  apply bind_inv in H. destruct H as (r & s1 & Hl & H).
  destruct r as [fr|]; [|discriminate]. minv.
  refine (clears_loop (RemoveMapping_body lower level) (quiet_entry lower level) level
            _ _ _ t c s fr _ Hl Hok Hal Hsz).
  - intros i fr0 s0 fr1 s2 Hb Hc Hnz Hi. split.
    + destruct Hgood as (Hgok & _).
      exact (proj1 (RemoveMapping_body_ok lower level Hgok _ _ _ (inl fr1) _ Hb Hc Hnz)).
    + eapply RemoveMapping_body_quiet; eauto.
  - intros i fr0 s0 fr1 s2 Hb Hc Hnz Hi. destruct Hgood as (_ & Hnone & Hreach & _).
    eapply RemoveMapping_body_reach; eauto.
  - intros e c0 c1 [[Hp _] | (_ & _ & Hg & _)] Hg'; [exact Hp | congruence].
Qed.

Lemma RemoveMapping_clears level : remove_clears level (RemoveMapping level).
Proof.
  destruct level; unfold RemoveMapping.
  - exact RemoveMappingL0_clears.
  - refine (RemoveMapping_at_clears _ PD_L _ RemoveMappingL0_good). discriminate.
  - refine (RemoveMapping_at_clears _ PDP_L _ (RemoveMapping_good PD_L)). discriminate.
  - refine (RemoveMapping_at_clears _ PML4_L _ (RemoveMapping_good PDP_L)). discriminate.
Qed.

(** *** The unmap walk and the counter *)

Lemma UnmapEntry_counted clf level va t i wt e s clf' t' s' :
  UnmapEntry clf level va t i wt s = Some ((clf', t'), s') ->
  0 <= i < NO_OF_PT_ENTRIES -> tbl_ents t !! Z.to_nat i = Some e ->
  count_tables level t' = count_tables level t - entry_tables level e /\
  pages_ s' = pages_ s /\ pmm s' = pmm s /\
  t' = write_entry t i (MkEntry 0 None).
Proof.
  intros H Hi He. apply UnmapEntry_table in H. destruct H as (-> & _ & Hpm & Hpg).
  rewrite (count_tables_write _ _ _ e) by auto.
  rewrite (entry_tables_absent _ (MkEntry 0 None)) by reflexivity.
  repeat split; auto. lia.
Qed.

Lemma RemoveMapping_descend_counted lower level :
  level <> PT_L -> remove_good (lower_level level) lower ->
  remove_counted (lower_level level) lower -> remove_clears (lower_level level) lower ->
  forall i t fr s fr' s',
    RemoveMapping_descend lower level i t fr s = Some (inl fr', s') ->
    cursor_ok (fr_cursor fr) -> 0 <= i < NO_OF_PT_ENTRIES -> frames_aligned (pmm s) ->
    excess level (fr_table fr') s' = excess level (Some t) s /\ frames_aligned (pmm s').
Proof.
  intros Hlev (Hok & Hnone & Hreach & Hsome & Hset) Hcnt Hclr i t fr s fr' s' H Hc Hi Hfa.
  unfold RemoveMapping_descend, read_entry in H.
  apply bind_inv in H. destruct H as (e0 & s0 & Hr & H).
  apply lift_option_inv in Hr. cbn [fst snd] in Hr. destruct Hr as [He ->].
  apply bind_inv in H. destruct H as ([[b nt] c1] & s1 & Hlow & H).
  destruct (get_next_table_from_entry e0) as [sub|] eqn:Hn.
  - destruct (Hcnt _ _ _ _ _ _ _ Hlow Hc Hfa) as (Hex & Hfa1).
    destruct (Hsome _ _ _ _ _ _ _ Hlow Hc) as (sub' & -> & Hphys).
    destruct (get_next_Some _ _ Hn) as (Hp & Hl & Hnx).
    assert (Hlink : link_next t i (Some sub') = write_entry t i (MkEntry (pte_val e0) (Some sub'))).
    { unfold link_next. rewrite He, Hn. reflexivity. }
    rewrite Hlink in H. clear Hlink.
    assert (Hcl : count_tables level (write_entry t i (MkEntry (pte_val e0) (Some sub'))) =
                  count_tables level t - count_tables (lower_level level) sub
                  + count_tables (lower_level level) sub').
    { rewrite (count_tables_write _ _ _ e0) by auto.
      rewrite !entry_tables_table by assumption. rewrite Hnx. cbn [pte_next count_from]. lia. }
    assert (Hel : tbl_ents (write_entry t i (MkEntry (pte_val e0) (Some sub'))) !! Z.to_nat i
                  = Some (MkEntry (pte_val e0) (Some sub'))).
    { eapply read_write_entry; [lia | eassumption]. }
    unfold excess in Hex. cbn [count_from] in Hex.
    apply bind_inv in H. destruct H as (u & s2 & Hu & H).
    destruct u.
    + assert (Hz : count_tables (lower_level level) sub' = 0 /\ s2 = s1).
      { destruct (page_aligned level (vaddr (fr_cursor fr)) &&
                  (size (fr_cursor fr) >=? page_size level)) eqn:Hg; cbn [negb andb] in Hu.
        - unfold ret in Hu. inv Hu. split; [|reflexivity].
          apply (all_absent_count _ (Some sub')).
          pose proof (guard_size _ _ _ Hg) as Hps.
          apply andb_true_iff in Hg. destruct Hg as [Hga _]. apply page_aligned_mod in Hga.
          eapply Hclr; [exact Hlow | exact Hc | |];
            rewrite table_span_lower by assumption; [exact Hga | lia].
        - destruct b; [|unfold ret in Hu; inv Hu].
          apply table_is_empty_inv in Hu. destruct Hu as (-> & Hu). split; auto. }
      destruct Hz as (Hz & ->).
      unfold deref_table, pmm_free_page in H.
      apply bind_inv in H. destruct H as (nt & s3 & Hd & H).
      unfold lift_option, ret in Hd. injection Hd as <- <-.
      apply bind_inv in H. destruct H as ([clf t2] & s4 & Hun & H).
      apply (UnmapEntry_counted _ _ _ _ _ _ _ _ _ _ _) with (1 := Hun) in Hel; [|exact Hi].
      destruct Hel as (Hct & Hpg & Hpm & _).
      unfold bind, emit, add_pages, ret in H. injection H as <- <-.
      cbn [fr_table pmm]. split; [|congruence].
      unfold excess. cbn [count_from pages_]. rewrite Hct, Hcl, Hpg.
      rewrite entry_tables_table by (cbn [pte_val]; assumption).
      cbn [pte_next count_from]. rewrite Hz in *.
      replace (wrap64 (pages_ s1 + -1) -
               (count_tables level t - count_tables (lower_level level) sub + 0 - (1 + 0)))
        with (wrap64 (pages_ s1 + -1) +
              (- (count_tables level t - count_tables (lower_level level) sub - 1))) by lia.
      rewrite wrap64_idem_l.
      replace (pages_ s1 + -1 + - (count_tables level t - count_tables (lower_level level) sub - 1))
        with (pages_ s1 - 0 + (count_tables (lower_level level) sub - count_tables level t))
        by lia.
      rewrite (wrap64_shift _ _ _ Hex). f_equal. lia.
    + assert (Hs2 : s2 = s1).
      { destruct (negb _ && b).
        - apply table_is_empty_inv in Hu. tauto.
        - unfold ret in Hu. inv Hu. reflexivity. }
      subst s2. unfold ret in H. inv H. cbn [fr_table]. split; [|exact Hfa1].
      unfold excess. cbn [count_from]. rewrite Hcl.
      replace (pages_ s' -
               (count_tables level t - count_tables (lower_level level) sub +
                count_tables (lower_level level) sub'))
        with (pages_ s' - count_tables (lower_level level) sub' +
              (count_tables (lower_level level) sub - count_tables level t)) by lia.
      rewrite (wrap64_shift _ _ _ Hex). f_equal. lia.
  - apply Hnone in Hlow. destruct Hlow as (Hz & Hr & ->). inv Hr.
    assert (Hlink : link_next t i None = t).
    { unfold link_next. rewrite He, Hn. reflexivity. }
    rewrite Hlink in H. clear Hlink.
    assert (Hg : page_aligned level (vaddr (fr_cursor fr)) &&
                 (size (fr_cursor fr) >=? page_size level) = false).
    { destruct (page_aligned level (vaddr (fr_cursor fr)) &&
                (size (fr_cursor fr) >=? page_size level)) eqn:Hg; [|reflexivity].
      apply guard_size in Hg. lia. }
    rewrite Hg in H. cbn [negb andb] in H. unfold bind, ret in H. inv H.
    cbn [fr_table]. auto.
Qed.

Lemma frames_aligned_tail s s' :
  pmm s' = tail (pmm s) -> frames_aligned (pmm s) -> frames_aligned (pmm s').
Proof.
  intros -> H. unfold frames_aligned in *. destruct (pmm s); cbn [tail]; [auto|].
  inv H. assumption.
Qed.

Lemma RemoveMapping_body_counted lower level :
  level <> PT_L -> remove_good (lower_level level) lower ->
  remove_counted (lower_level level) lower -> remove_clears (lower_level level) lower ->
  forall i fr s fr' s',
    RemoveMapping_body lower level i fr s = Some (inl fr', s') ->
    cursor_ok (fr_cursor fr) -> 0 <= i < NO_OF_PT_ENTRIES -> frames_aligned (pmm s) ->
    excess level (fr_table fr') s' = excess level (fr_table fr) s /\ frames_aligned (pmm s').
Proof.
  intros Hlev Hgood Hcnt Hclr i fr s fr' s' H Hc Hi Hfa.
  pose proof (RemoveMapping_descend_counted lower level Hlev Hgood Hcnt Hclr) as Hdesc.
  unfold RemoveMapping_body, RemoveMapping_large, deref_table, read_entry in H.
  minv.
  - (* absent entry *)
    cbn [fr_table]. rewrite H0. auto.
  - (* large page, covered as a whole *)
    match goal with
    | H : UnmapEntry _ _ _ _ _ _ _ = Some _ |- _ =>
        eapply UnmapEntry_counted in H; [|exact Hi|eassumption];
        destruct H as (Hct & Hpg & Hpm & _)
    end.
    cbn [fr_table]. rewrite H0. split; [|congruence].
    apply excess_same; [exact Hpg|]. cbn [count_from]. rewrite Hct.
    rewrite entry_tables_large by assumption. lia.
  - (* large page, the split failed *)
    match goal with
    | H : SplitLargePage _ _ _ _ _ = Some _ |- _ =>
        eapply SplitLargePage_counted in H; [|exact Hlev|exact Hi|eassumption|assumption|exact Hfa];
        destruct H as (Hex & Hfa1 & e' & He' & Hsame)
    end.
    rewrite Hsame in He' by (apply negb_true_iff; assumption).
    match goal with
    | H : UnmapEntry _ _ _ _ _ _ _ = Some _ |- _ =>
        eapply UnmapEntry_counted in H; [|exact Hi|exact He'];
        destruct H as (Hct & Hpg & Hpm & _)
    end.
    match goal with
    | H : RemoveMapping_descend _ _ _ _ _ _ = Some _ |- _ =>
        apply Hdesc in H; [|apply SkipEntry_ok; exact Hc|exact Hi|congruence]
    end.
    destruct H as [-> Hfa']. split; [|exact Hfa']. rewrite H0, <- Hex.
    apply excess_same; [exact Hpg|]. cbn [count_from]. rewrite Hct.
    rewrite entry_tables_large by assumption. lia.
  - (* large page, split *)
    match goal with
    | H : SplitLargePage _ _ _ _ _ = Some _ |- _ =>
        eapply SplitLargePage_counted in H; [|exact Hlev|exact Hi|eassumption|assumption|exact Hfa];
        destruct H as (Hex & Hfa1 & _)
    end.
    match goal with
    | H : RemoveMapping_descend _ _ _ _ _ _ = Some _ |- _ =>
        apply Hdesc in H; [|exact Hc|exact Hi|exact Hfa1]
    end.
    destruct H as [-> Hfa']. split; [|exact Hfa']. rewrite H0. exact Hex.
  - (* a table *)
    match goal with
    | H : RemoveMapping_descend _ _ _ _ _ _ = Some _ |- _ =>
        apply Hdesc in H; [|exact Hc|exact Hi|exact Hfa]
    end.
    destruct H as [-> Hfa']. split; [|exact Hfa']. rewrite H0. reflexivity.
Qed.

Lemma RemoveMappingL0_body_counted i fr s fr' s' :
  RemoveMappingL0_body i fr s = Some (inl fr', s') -> frames_aligned (pmm s) ->
  excess PT_L (fr_table fr') s' = excess PT_L (fr_table fr) s /\ frames_aligned (pmm s').
Proof.
  intros H Hfa. unfold RemoveMappingL0_body, deref_table, read_entry in H. minv.
  - match goal with
    | H : UnmapEntry _ _ _ _ _ _ _ = Some _ |- _ =>
        apply UnmapEntry_table in H; destruct H as (-> & _ & Hpm & Hpg)
    end.
    match goal with H : fr_table fr = Some _ |- _ => rewrite H end.
    cbn [fr_table]. split; [|congruence].
    apply excess_same; [exact Hpg|]. cbn [count_from]. rewrite !count_tables_PT. reflexivity.
  - cbn [fr_table]. match goal with H : fr_table fr = Some _ |- _ => rewrite H end. auto.
Qed.

(** The frames a loop goes through keep the excess of [pages_]. *)
Lemma counted_loop {R} level (body : Z -> Frame -> M (Frame + R)) :
  (forall i fr s fr' s', body i fr s = Some (inl fr', s') ->
     cursor_ok (fr_cursor fr) -> size (fr_cursor fr) <> 0 -> 0 <= i < NO_OF_PT_ENTRIES ->
     frames_aligned (pmm s) ->
     cursor_ok (fr_cursor fr') /\
     excess level (fr_table fr') s' = excess level (fr_table fr) s /\
     frames_aligned (pmm s')) ->
  forall n fr s n' fr' s', loop_reaches body n fr s n' fr' s' ->
    Z.of_nat n <= NO_OF_PT_ENTRIES -> cursor_ok (fr_cursor fr) -> frames_aligned (pmm s) ->
    Z.of_nat n' <= NO_OF_PT_ENTRIES /\ cursor_ok (fr_cursor fr') /\
    excess level (fr_table fr') s' = excess level (fr_table fr) s /\
    frames_aligned (pmm s').
Proof.
  intros Hstep n fr s n' fr' s' Hr Hn Hc Hfa.
  apply (loop_reaches_inv body
           (fun m f st => Z.of_nat m <= NO_OF_PT_ENTRIES /\ cursor_ok (fr_cursor f) /\
                          excess level (fr_table f) st = excess level (fr_table fr) s /\
                          frames_aligned (pmm st))) with (2 := Hr).
  - intros m f1 s1 f2 s2 (Hm & Hc1 & Hex & Hfa1) Hnz Hb.
    destruct (Hstep _ _ _ _ _ Hb Hc1 Hnz ltac:(lia) Hfa1) as (Hc2 & Hex2 & Hfa2).
    split; [lia|]. split; [exact Hc2|]. split; [congruence | exact Hfa2].
  - auto.
Qed.

Lemma entries_from_le level v :
  Z.of_nat (entries_from (vaddr_to_index level v)) <= NO_OF_PT_ENTRIES.
Proof. pose proof (vaddr_to_index_range level v). unfold entries_from. lia. Qed.

Lemma RemoveMappingL0_counted : remove_counted PT_L RemoveMappingL0.
Proof.
  intros table c s b t' c' s' H Hc Hfa. unfold RemoveMappingL0 in H.
  apply bind_inv in H. destruct H as (r & s1 & Hl & H).
  destruct r as [fr|]; [|discriminate].
  apply for_each_entry_reaches in Hl. destruct Hl as (n' & Hr & _).
  apply (counted_loop PT_L) in Hr; [| |apply entries_from_le|exact Hc|exact Hfa].
  - destruct Hr as (_ & _ & Hex & Hfa1). cbn [new_frame fr_table] in Hex.
    apply bind_inv in H. destruct H as (clf & s2 & Hff & H).
    apply ForceFlush_spec in Hff. destruct Hff as (_ & _ & Hpg & Hpm & _).
    unfold ret in H. inv H. split; [|congruence]. rewrite <- Hex.
    apply excess_same; auto.
  - intros i fr0 s0 fr1 s2 Hb Hc0 Hnz Hi Hfa0. split.
    + exact (proj1 (RemoveMappingL0_body_ok _ _ _ (inl fr1) _ Hb Hc0 Hnz)).
    + eapply RemoveMappingL0_body_counted; eauto.
Qed.

Lemma RemoveMapping_at_counted lower level :
  level <> PT_L -> remove_good (lower_level level) lower ->
  remove_counted (lower_level level) lower -> remove_clears (lower_level level) lower ->
  remove_counted level (RemoveMapping_at lower level).
Proof.
  intros Hlev Hgood Hcnt Hclr table c s b t' c' s' H Hc Hfa. unfold RemoveMapping_at in H.
  apply bind_inv in H. destruct H as (r & s1 & Hl & H).
  destruct r as [fr|]; [|discriminate].
  apply for_each_entry_reaches in Hl. destruct Hl as (n' & Hr & _).
  apply (counted_loop level) in Hr; [| |apply entries_from_le|exact Hc|exact Hfa].
  - destruct Hr as (_ & _ & Hex & Hfa1). cbn [new_frame fr_table] in Hex.
    apply bind_inv in H. destruct H as (clf & s2 & Hff & H).
    apply ForceFlush_spec in Hff. destruct Hff as (_ & _ & Hpg & Hpm & _).
    unfold ret in H. inv H. split; [|congruence]. rewrite <- Hex.
    apply excess_same; auto.
  - intros i fr0 s0 fr1 s2 Hb Hc0 Hnz Hi Hfa0. split.
    + destruct Hgood as (Hgok & _).
      exact (proj1 (RemoveMapping_body_ok lower level Hgok _ _ _ (inl fr1) _ Hb Hc0 Hnz)).
    + eapply RemoveMapping_body_counted; eauto.
Qed.

Lemma RemoveMapping_counted level : remove_counted level (RemoveMapping level).
Proof.
  destruct level; unfold RemoveMapping.
  - exact RemoveMappingL0_counted.
  - refine (RemoveMapping_at_counted _ PD_L _ RemoveMappingL0_good RemoveMappingL0_counted
              RemoveMappingL0_clears). discriminate.
  - refine (RemoveMapping_at_counted _ PDP_L _ (RemoveMapping_good PD_L) _
              (RemoveMapping_clears PD_L)); [discriminate|].
    refine (RemoveMapping_at_counted _ PD_L _ RemoveMappingL0_good RemoveMappingL0_counted
              RemoveMappingL0_clears). discriminate.
  - refine (RemoveMapping_at_counted _ PML4_L _ (RemoveMapping_good PDP_L) _
              (RemoveMapping_clears PDP_L)); [discriminate|].
    refine (RemoveMapping_at_counted _ PDP_L _ (RemoveMapping_good PD_L) _
              (RemoveMapping_clears PD_L)); [discriminate|].
    refine (RemoveMapping_at_counted _ PD_L _ RemoveMappingL0_good RemoveMappingL0_counted
              RemoveMappingL0_clears). discriminate.
Qed.

(** *** The mapping walks and the counter *)

Lemma link_counted level t i e nt s s1 :
  level <> PT_L -> 0 <= i < NO_OF_PT_ENTRIES ->
  tbl_ents t !! Z.to_nat i = Some e ->
  excess (lower_level level) nt s1
    = excess (lower_level level) (get_next_table_from_entry e) s ->
  (get_next_table_from_entry e = None -> nt = None) ->
  excess level (Some (link_next t i nt)) s1 = excess level (Some t) s.
Proof.
  intros Hlev Hi He Hex Hnone. unfold link_next. rewrite He.
  destruct (get_next_table_from_entry e) as [sub|] eqn:Hn.
  - destruct (get_next_Some _ _ Hn) as (Hp & Hl & Hnx).
    unfold excess in *. cbn [count_from] in *.
    rewrite (count_tables_write _ _ _ e) by auto.
    rewrite !entry_tables_table by assumption. rewrite Hnx. cbn [pte_next count_from].
    replace (pages_ s1 - (count_tables level t - (1 + count_tables (lower_level level) sub) +
                          (1 + count_from (lower_level level) nt)))
      with (pages_ s1 - count_from (lower_level level) nt +
            (count_tables (lower_level level) sub - count_tables level t)) by lia.
    rewrite (wrap64_shift _ _ _ Hex). f_equal. lia.
  - rewrite (Hnone eq_refl) in Hex. unfold excess in *. cbn [count_from] in *.
    replace (pages_ s1 - count_tables level t)
      with (pages_ s1 - 0 + (- count_tables level t)) by lia.
    rewrite (wrap64_shift _ _ _ Hex). f_equal. lia.
Qed.

Lemma UpdateEntry_counted clf level va t i pa next flags wt e s clf' t' s' :
  UpdateEntry clf level va t i pa next flags wt s = Some ((clf', t'), s') ->
  0 <= i < NO_OF_PT_ENTRIES -> tbl_ents t !! Z.to_nat i = Some e ->
  count_tables level t' = count_tables level t - entry_tables level e
    + entry_tables level (MkEntry (Z.lor (Z.lor pa flags) X86_MMU_PG_P) next) /\
  pages_ s' = pages_ s /\ pmm s' = pmm s /\
  t' = write_entry t i (MkEntry (Z.lor (Z.lor pa flags) X86_MMU_PG_P) next).
Proof.
  intros H Hi He. apply UpdateEntry_table in H. destruct H as (-> & _ & Hpm & Hpg).
  rewrite (count_tables_write _ _ _ e) by auto. auto.
Qed.

Lemma large_PS term_flags : IS_LARGE_PAGE (Z.lor term_flags X86_MMU_PG_PS) = true.
Proof.
  unfold IS_LARGE_PAGE. rewrite Z.land_lor_distr_l.
  change (Z.land X86_MMU_PG_PS X86_MMU_PG_PS) with X86_MMU_PG_PS.
  apply negb_true_iff, Z.eqb_neq. intros H. apply Z.lor_eq_0_iff in H. destruct H as [_ H].
  discriminate H.
Qed.

Lemma lower_link_counted (lower : MapWalk) level f :
  level <> PT_L -> map_counted (lower_level level) lower ->
  forall t i e c s st nt c' s',
    tbl_ents t !! Z.to_nat i = Some e -> 0 <= i < NO_OF_PT_ENTRIES ->
    lower (get_next_table_from_entry e) f c s = Some ((st, nt, c'), s') ->
    cursor_ok c -> frames_aligned (pmm s) ->
    excess level (Some (link_next t i nt)) s' = excess level (Some t) s /\
    frames_aligned (pmm s').
Proof.
  intros Hlev Hcnt t i e c s st nt c' s' He Hi Hlow Hc Hfa.
  destruct (Hcnt _ _ _ _ _ _ _ _ Hlow Hc Hfa) as (Hex & Hfa' & Hnone).
  split; [|exact Hfa']. eapply link_counted; eauto.
Qed.

Lemma AddMapping_body_counted lower level f :
  level <> PT_L -> map_counted (lower_level level) lower ->
  forall i fr s r s',
    AddMapping_body lower level f i fr s = Some (r, s') ->
    cursor_ok (fr_cursor fr) -> 0 <= i < NO_OF_PT_ENTRIES -> frames_aligned (pmm s) ->
    let fr' := match r with inl fr' => fr' | inr x => snd x end in
    excess level (fr_table fr') s' = excess level (fr_table fr) s /\ frames_aligned (pmm s').
Proof.
  intros Hlev Hcnt i fr s r s' H Hc Hi Hfa.
  pose proof (lower_link_counted lower level f Hlev Hcnt) as Hlink.
  unfold AddMapping_body, deref_table, read_entry in H.
  minv; cbn [snd with_table fr_table];
    match goal with H : fr_table fr = Some _ |- _ => rewrite H end;
    try (split; [reflexivity | assumption]).
  1:{ (* a large page is mapped *)
    match goal with
    | H : UpdateEntry _ _ _ _ _ _ _ _ _ _ = Some _ |- _ =>
        eapply UpdateEntry_counted in H; [|exact Hi|eassumption];
        destruct H as (Hct & Hpg & Hpm & _)
    end.
    split; [|congruence]. apply excess_same; [exact Hpg|]. cbn [count_from]. rewrite Hct.
    rewrite (entry_tables_large _ (MkEntry _ _)) by (apply large_lor_P, large_PS).
    rewrite entry_tables_absent; [lia|].
    destruct (IS_PAGE_PRESENT (pte_val x1)); [|reflexivity].
    rewrite !andb_false_r in *. discriminate. }
  all: try match goal with
    | Ha : _map_alloc_page _ = Some (Some _, _),
      Hu : UpdateEntry _ _ _ _ _ _ _ _ _ _ = Some _,
      Hl : _ (get_next_table_from_entry _) _ _ _ = Some _ |- _ =>
        apply map_alloc_inv in Ha; destruct Ha as (Hpg0 & Hpm0 & pa & Hpa & ->);
        eapply UpdateEntry_counted in Hu; [|exact Hi|eassumption];
        destruct Hu as (Hct & Hpg & Hpm & _);
        eapply Hlink in Hl; [|eassumption|exact Hi|exact Hc|
          cbn [pmm]; rewrite Hpm; eapply frames_aligned_tail; eassumption];
        destruct Hl as [-> Hfa']; split; [|exact Hfa'];
        apply (excess_step _ _ _ _ _ 1); [cbn [pages_]; congruence|];
        cbn [count_from]; rewrite Hct;
        rewrite entry_tables_absent by (apply negb_true_iff; assumption);
        rewrite entry_tables_table;
          [ cbn [pte_next count_from]; rewrite count_tables_zero; lia
          | exact Hlev
          | apply present_lor_P
          | cbn [pte_val tbl_phys zero_table]; apply intermediate_not_large;
              [rewrite Hpa in Hfa; inv Hfa; auto | exact H_int] ]
    end.
  all: try match goal with
    | Hl : _ (get_next_table_from_entry _) _ _ _ = Some _ |- _ =>
        eapply Hlink in Hl; [|eassumption|exact Hi|exact Hc|exact Hfa];
        destruct Hl as [-> Hfa']; split; [reflexivity|exact Hfa']
    end.
  (* the allocation failed *)
  match goal with
  | Ha : _map_alloc_page _ = Some (None, _) |- _ =>
      apply map_alloc_inv in Ha; destruct Ha as (Hpg0 & Hpm0 & _)
  end.
  split; [apply excess_same; auto | eapply frames_aligned_tail; eassumption].
Qed.

Lemma excess_PT table s : excess PT_L table s = wrap64 (pages_ s).
Proof.
  unfold excess. destruct table; cbn [count_from]; rewrite ?count_tables_PT, Z.sub_0_r;
    reflexivity.
Qed.

Lemma AddMappingL0_body_counted f i fr s r s' :
  AddMappingL0_body f i fr s = Some (r, s') -> frames_aligned (pmm s) ->
  pages_ s' = pages_ s /\ frames_aligned (pmm s').
Proof.
  intros H Hfa. unfold AddMappingL0_body, deref_table, read_entry in H. minv; auto.
  match goal with
  | H : UpdateEntry _ _ _ _ _ _ _ _ _ _ = Some _ |- _ =>
      apply UpdateEntry_table in H; destruct H as (_ & _ & Hpm & Hpg)
  end. split; congruence.
Qed.

Lemma leave_frame_state st fr s r s' :
  leave_frame st fr s = Some (r, s') ->
  r = (st, fr_table fr, fr_cursor fr) /\ pages_ s' = pages_ s /\ pmm s' = pmm s.
Proof.
  unfold leave_frame. intros H. apply bind_inv in H. destruct H as (clf & s1 & Hff & H).
  apply ForceFlush_spec in Hff. destruct Hff as (_ & _ & Hpg & Hpm & _).
  unfold ret in H. inv H. auto.
Qed.

(** The loop of a walk at PT_L leaves [pages_] alone. *)
Lemma pages_kept_loop {R} (body : Z -> Frame -> M (Frame + R)) :
  (forall i fr s r s', body i fr s = Some (r, s') -> frames_aligned (pmm s) ->
     pages_ s' = pages_ s /\ frames_aligned (pmm s')) ->
  forall n fr s r s', for_each_entry n body fr s = Some (r, s') -> frames_aligned (pmm s) ->
    pages_ s' = pages_ s /\ frames_aligned (pmm s').
Proof.
  intros Hb. induction n as [|n IH]; intros fr s r s' H Hfa; cbn [for_each_entry] in H.
  - unfold ret in H. inv H. auto.
  - destruct (size (fr_cursor fr) =? 0); [unfold ret in H; inv H; auto|].
    apply bind_inv in H. destruct H as (r1 & s1 & Hb1 & H).
    destruct (Hb _ _ _ _ _ Hb1 Hfa) as [Hpg Hfa1]. destruct r1 as [fr1|x].
    + destruct (IH _ _ _ _ H Hfa1) as [Hpg' Hfa']. split; [congruence|exact Hfa'].
    + unfold ret in H. inv H. auto.
Qed.

Lemma loop_table_none {R} (body : Z -> Frame -> M (Frame + R)) level c s r s' :
  (forall i fr s1, fr_table fr = None -> body i fr s1 = None) ->
  for_each_entry (entries_from (vaddr_to_index level (vaddr c))) body (new_frame None c) s
    = Some (r, s') ->
  r = inl (new_frame None c).
Proof.
  intros Hb H. apply loop_none in H; [tauto | apply vaddr_to_index_range | auto].
Qed.

Lemma AddMappingL0_counted : map_counted PT_L AddMappingL0.
Proof.
  intros table f c s st t' c' s' H Hc Hfa. unfold AddMappingL0 in H.
  apply bind_inv in H. destruct H as (r & s1 & Hl & H).
  pose proof Hl as Hl2.
  apply (pages_kept_loop _ (AddMappingL0_body_counted f)) in Hl; [|exact Hfa].
  destruct Hl as [Hpg Hfa1]. rewrite !excess_PT.
  assert (Hn : table = None -> r = inl (new_frame None c)).
  { intros ->. eapply loop_table_none; [|exact Hl2].
    intros i fr s0 Hnone. unfold AddMappingL0_body, deref_table, bind. rewrite Hnone.
    reflexivity. }
  destruct r as [fr|[st1 fr]]; apply leave_frame_state in H; destruct H as (H & Hpg' & Hpm');
    inv H; (split; [congruence|]; split; [congruence|]); intros Ht; specialize (Hn Ht);
    [inv Hn; reflexivity | discriminate].
Qed.

Lemma abort_cursor_ok start new_cursor :
  cursor_ok start -> cursor_ok new_cursor ->
  cursor_ok {| paddr := paddr start; vaddr := vaddr start;
               size := wrap64 (size start - size new_cursor) |}.
Proof.
  intros (Hv & Hs & Hva & Hsa) (_ & Hs' & _ & Hsa'). unfold cursor_ok. cbn [vaddr size].
  split; [exact Hv|]. split; [apply wrap64_range|]. split; [exact Hva|].
  unfold wrap64. change PAGE_SIZE with 4096 in *.
  change (2 ^ 64) with 18446744073709551616 in *.
  Z.to_euclidean_division_equations; lia.
Qed.

Lemma AddMapping_at_counted lower remove_here level :
  level <> PT_L -> map_ok lower -> map_counted (lower_level level) lower ->
  remove_counted level remove_here ->
  map_counted level (AddMapping_at lower remove_here level).
Proof.
  intros Hlev Hlok Hcnt Hrem table f c s st t' c' s' H Hc Hfa. unfold AddMapping_at in H.
  apply bind_inv in H. destruct H as (r & s1 & Hl & H).
  assert (Hn : table = None -> r = inl (new_frame None c)).
  { intros ->. eapply loop_table_none; [|exact Hl].
    intros i fr s0 Hnone. unfold AddMapping_body, deref_table, bind. rewrite Hnone.
    reflexivity. }
  assert (Hstep : forall i fr s fr' s',
            AddMapping_body lower level f i fr s = Some (inl fr', s') ->
            cursor_ok (fr_cursor fr) -> size (fr_cursor fr) <> 0 ->
            0 <= i < NO_OF_PT_ENTRIES -> frames_aligned (pmm s) ->
            cursor_ok (fr_cursor fr') /\
            excess level (fr_table fr') s' = excess level (fr_table fr) s /\
            frames_aligned (pmm s')).
  { intros i fr0 s0 fr1 s2 Hb Hc0 Hnz Hi Hfa0. split.
    - exact (proj1 (AddMapping_body_ok lower level f Hlok _ _ _ (inl fr1) _ Hb Hc0 Hnz)).
    - exact (AddMapping_body_counted lower level f Hlev Hcnt _ _ _ (inl fr1) _ Hb Hc0 Hi Hfa0). }
  apply for_each_entry_reaches in Hl. destruct r as [fr|[st1 fr]].
  - destruct Hl as (n' & Hr & _).
    apply (counted_loop level _ Hstep) in Hr; [|apply entries_from_le|exact Hc|exact Hfa].
    destruct Hr as (_ & _ & Hex & Hfa1). cbn [new_frame fr_table] in Hex.
    apply leave_frame_state in H. destruct H as (H & Hpg & Hpm). inv H.
    split; [|split; [congruence|]].
    + rewrite <- Hex. apply excess_same; auto.
    + intros Ht. specialize (Hn Ht). inv Hn. reflexivity.
  - destruct Hl as (n' & fr1 & s2 & Hr & Hnz & Hb).
    apply (counted_loop level _ Hstep) in Hr; [|apply entries_from_le|exact Hc|exact Hfa].
    destruct Hr as (Hn' & Hc1 & Hex & Hfa1). cbn [new_frame fr_table] in Hex.
    pose proof (AddMapping_body_ok lower level f Hlok _ _ _ _ _ Hb Hc1 Hnz) as [Hc2 _].
    apply (AddMapping_body_counted lower level f Hlev Hcnt) in Hb;
      [|exact Hc1|lia|exact Hfa1].
    unfold status_cursor in Hc2. cbn [snd] in Hb, Hc2. destruct Hb as [Hex2 Hfa2].
    apply bind_inv in H. destruct H as ([[st2 t2] c2] & s3 & Hlf & H).
    apply leave_frame_state in Hlf. destruct Hlf as (Hlf & Hpg & Hpm). inv Hlf.
    assert (Hex3 : excess level (fr_table fr) s3 = excess level table s).
    { rewrite <- Hex, <- Hex2. apply excess_same; auto. }
    assert (Hfa3 : frames_aligned (pmm s3)) by congruence.
    split; [|split; [|intros Ht; specialize (Hn Ht); discriminate]].
    + unfold AddMapping_abort in H. minv; try assumption.
      destruct (Hrem _ _ _ _ _ _ _ H (abort_cursor_ok _ _ Hc Hc2) Hfa3) as [-> _].
      exact Hex3.
    + unfold AddMapping_abort in H. minv; try assumption.
      destruct (Hrem _ _ _ _ _ _ _ H (abort_cursor_ok _ _ Hc Hc2) Hfa3) as [_ Hfa4].
      exact Hfa4.
Qed.

Lemma AddMapping_counted level : map_counted level (AddMapping level).
Proof.
  destruct level; unfold AddMapping.
  - exact AddMappingL0_counted.
  - refine (AddMapping_at_counted _ _ PD_L _ AddMappingL0_ok AddMappingL0_counted
              (RemoveMapping_counted PD_L)). discriminate.
  - refine (AddMapping_at_counted _ _ PDP_L _ (AddMapping_ok PD_L) _
              (RemoveMapping_counted PDP_L)); [discriminate|].
    refine (AddMapping_at_counted _ _ PD_L _ AddMappingL0_ok AddMappingL0_counted
              (RemoveMapping_counted PD_L)). discriminate.
  - refine (AddMapping_at_counted _ _ PML4_L _ (AddMapping_ok PDP_L) _
              (RemoveMapping_counted PML4_L)); [discriminate|].
    refine (AddMapping_at_counted _ _ PDP_L _ (AddMapping_ok PD_L) _
              (RemoveMapping_counted PDP_L)); [discriminate|].
    refine (AddMapping_at_counted _ _ PD_L _ AddMappingL0_ok AddMappingL0_counted
              (RemoveMapping_counted PD_L)). discriminate.
Qed.

Lemma UpdateMappingL0_body_counted f i fr s r s' :
  UpdateMappingL0_body f i fr s = Some (r, s') -> frames_aligned (pmm s) ->
  pages_ s' = pages_ s /\ frames_aligned (pmm s').
Proof.
  intros H Hfa. unfold UpdateMappingL0_body, deref_table, read_entry in H. minv; auto.
  match goal with
  | H : UpdateEntry _ _ _ _ _ _ _ _ _ _ = Some _ |- _ =>
      apply UpdateEntry_table in H; destruct H as (_ & _ & Hpm & Hpg)
  end. split; congruence.
Qed.

Lemma UpdateMappingL0_counted : map_counted PT_L UpdateMappingL0.
Proof.
  intros table f c s st t' c' s' H Hc Hfa. unfold UpdateMappingL0 in H.
  apply bind_inv in H. destruct H as (r & s1 & Hl & H).
  pose proof Hl as Hl2.
  apply (pages_kept_loop _ (UpdateMappingL0_body_counted f)) in Hl; [|exact Hfa].
  destruct Hl as [Hpg Hfa1]. rewrite !excess_PT.
  assert (Hn : table = None -> r = inl (new_frame None c)).
  { intros ->. eapply loop_table_none; [|exact Hl2].
    intros i fr s0 Hnone. unfold UpdateMappingL0_body, deref_table, bind. rewrite Hnone.
    reflexivity. }
  destruct r as [fr|]; [|discriminate].
  apply leave_frame_state in H; destruct H as (H & Hpg' & Hpm').
  inv H. split; [congruence|]. split; [congruence|]. intros Ht. specialize (Hn Ht).
  inv Hn. reflexivity.
Qed.

Lemma split_cursor_ok level c :
  cursor_ok c -> cursor_ok {| paddr := 0; vaddr := vaddr c; size := page_size level |}.
Proof.
  intros (Hv & _ & Hva & _). unfold cursor_ok. cbn [vaddr size].
  destruct (page_size_aligned level) as [Hal Hpos].
  split; [exact Hv|]. split; [|split; [exact Hva|exact Hal]].
  destruct (page_size_cases level) as [->|[->|[->| ->]]];
    change (2 ^ 64) with 18446744073709551616; lia.
Qed.

Lemma UpdateMapping_body_counted lower remove_here level f :
  level <> PT_L -> map_counted (lower_level level) lower ->
  remove_counted level remove_here ->
  forall i fr s fr' s',
    UpdateMapping_body lower remove_here level f i fr s = Some (inl fr', s') ->
    cursor_ok (fr_cursor fr) -> 0 <= i < NO_OF_PT_ENTRIES -> frames_aligned (pmm s) ->
    excess level (fr_table fr') s' = excess level (fr_table fr) s /\ frames_aligned (pmm s').
Proof.
  intros Hlev Hcnt Hrem i fr s fr' s' H Hc Hi Hfa.
  pose proof (lower_link_counted lower level f Hlev Hcnt) as Hlink.
  unfold UpdateMapping_body, UpdateMapping_large, deref_table, read_entry in H.
  minv; cbn [with_table fr_table fr_cursor] in *;
    match goal with H : fr_table fr = Some _ |- _ => rewrite H end;
    try (split; [reflexivity | assumption]).
  - (* a large page, covered as a whole *)
    match goal with
    | H : UpdateEntry _ _ _ _ _ _ _ _ _ _ = Some _ |- _ =>
        eapply UpdateEntry_counted in H; [|exact Hi|eassumption];
        destruct H as (Hct & Hpg & Hpm & _)
    end.
    split; [|congruence]. apply excess_same; [exact Hpg|]. cbn [count_from]. rewrite Hct.
    rewrite (entry_tables_large _ (MkEntry _ _)) by (apply large_lor_P, large_PS).
    rewrite entry_tables_large by assumption. lia.
  - (* the split failed *)
    subst.
    match goal with
    | H : SplitLargePage _ _ _ _ _ = Some _ |- _ =>
        eapply SplitLargePage_counted in H; [|exact Hlev|exact Hi|eassumption|assumption|exact Hfa];
        destruct H as (Hex & Hfa1 & _)
    end.
    match goal with
    | H : remove_here _ _ _ = Some _ |- _ =>
        destruct (Hrem _ _ _ _ _ _ _ H (split_cursor_ok level _ Hc) Hfa1) as [Hex2 Hfa2]
    end.
    match goal with
    | H : _ (get_next_table_from_entry _) _ _ _ = Some _ |- _ =>
        eapply Hlink in H; [|eassumption|exact Hi|apply SkipEntry_ok; exact Hc|exact Hfa2];
        destruct H as [-> Hfa3]
    end.
    split; [congruence | exact Hfa3].
  - (* the large page is split *)
    match goal with H : Some _ = Some _ |- _ => injection H as <- end.
    match goal with
    | H : SplitLargePage _ _ _ _ _ = Some _ |- _ =>
        eapply SplitLargePage_counted in H; [|exact Hlev|exact Hi|eassumption|assumption|exact Hfa];
        destruct H as (Hex & Hfa1 & _)
    end.
    match goal with
    | H : _ (get_next_table_from_entry _) _ _ _ = Some _ |- _ =>
        eapply Hlink in H; [|eassumption|exact Hi|exact Hc|exact Hfa1];
        destruct H as [-> Hfa3]
    end.
    split; [congruence | exact Hfa3].
  - (* a table *)
    match goal with H : Some _ = Some _ |- _ => injection H as <- end.
    match goal with
    | H : _ (get_next_table_from_entry _) _ _ _ = Some _ |- _ =>
        eapply Hlink in H; [|eassumption|exact Hi|exact Hc|exact Hfa];
        destruct H as [-> Hfa3]
    end.
    split; [congruence | exact Hfa3].
Qed.

Lemma UpdateMapping_at_counted lower remove_here level :
  level <> PT_L -> map_ok lower -> map_counted (lower_level level) lower ->
  remove_counted level remove_here ->
  map_counted level (UpdateMapping_at lower remove_here level).
Proof.
  intros Hlev Hlok Hcnt Hrem table f c s st t' c' s' H Hc Hfa. unfold UpdateMapping_at in H.
  apply bind_inv in H. destruct H as (r & s1 & Hl & H).
  assert (Hn : table = None -> r = inl (new_frame None c)).
  { intros ->. eapply loop_table_none; [|exact Hl].
    intros i fr s0 Hnone. unfold UpdateMapping_body, deref_table, bind. rewrite Hnone.
    reflexivity. }
  destruct r as [fr|]; [|discriminate].
  apply for_each_entry_reaches in Hl. destruct Hl as (n' & Hr & _).
  apply (counted_loop level) in Hr; [| |apply entries_from_le|exact Hc|exact Hfa].
  - destruct Hr as (_ & _ & Hex & Hfa1). cbn [new_frame fr_table] in Hex.
    apply leave_frame_state in H. destruct H as (H & Hpg & Hpm). inv H.
    split; [|split; [congruence|]].
    + rewrite <- Hex. apply excess_same; auto.
    + intros Ht. specialize (Hn Ht). inv Hn. reflexivity.
  - intros i fr0 s0 fr1 s2 Hb Hc0 Hnz Hi Hfa0. split.
    + exact (proj1 (UpdateMapping_body_ok lower remove_here level f Hlok _ _ _ (inl fr1) _
                      Hb Hc0 Hnz)).
    + eapply UpdateMapping_body_counted; eauto.
Qed.

Lemma UpdateMapping_counted level : map_counted level (UpdateMapping level).
Proof.
  destruct level; unfold UpdateMapping.
  - exact UpdateMappingL0_counted.
  - refine (UpdateMapping_at_counted _ _ PD_L _ UpdateMappingL0_ok UpdateMappingL0_counted
              (RemoveMapping_counted PD_L)). discriminate.
  - refine (UpdateMapping_at_counted _ _ PDP_L _ (UpdateMapping_ok PD_L) _
              (RemoveMapping_counted PDP_L)); [discriminate|].
    refine (UpdateMapping_at_counted _ _ PD_L _ UpdateMappingL0_ok UpdateMappingL0_counted
              (RemoveMapping_counted PD_L)). discriminate.
  - refine (UpdateMapping_at_counted _ _ PML4_L _ (UpdateMapping_ok PDP_L) _
              (RemoveMapping_counted PML4_L)); [discriminate|].
    refine (UpdateMapping_at_counted _ _ PDP_L _ (UpdateMapping_ok PD_L) _
              (RemoveMapping_counted PDP_L)); [discriminate|].
    refine (UpdateMapping_at_counted _ _ PD_L _ UpdateMappingL0_ok UpdateMappingL0_counted
              (RemoveMapping_counted PD_L)). discriminate.
Qed.

(** *** The top-level calls and the counter *)

Lemma range_kept_refl s : range_kept s s.
Proof. intros H. exact H. Qed.

Lemma range_kept_trans s1 s2 s3 : range_kept s1 s2 -> range_kept s2 s3 -> range_kept s1 s3.
Proof. unfold range_kept. auto. Qed.

Lemma range_kept_emit e s :
  is_lock_event e = false -> is_alloc e = false ->
  range_kept s {| pages_ := pages_ s; pmm := pmm s; trace := trace s ++ [e] |}.
Proof. intros _ _ H. exact H. Qed.

Lemma range_kept_pages n s :
  range_kept s {| pages_ := wrap64 (pages_ s + n); pmm := pmm s; trace := trace s |}.
Proof. intros _. unfold pages_in_range. cbn [pages_]. apply wrap64_range. Qed.

Lemma range_kept_alloc s a s' : pmm_alloc_kpage s = Some (a, s') -> range_kept s s'.
Proof. unfold pmm_alloc_kpage. intros H. inv H. intros Hr. exact Hr. Qed.

Lemma RemoveMapping_range level table c s r s' :
  RemoveMapping level table c s = Some (r, s') -> range_kept s s'.
Proof.
  apply (preserves_RemoveMapping range_kept range_kept_refl range_kept_trans range_kept_emit
           range_kept_pages range_kept_alloc).
Qed.

Lemma AddMapping_range level table f c s r s' :
  AddMapping level table f c s = Some (r, s') -> range_kept s s'.
Proof.
  apply (preserves_AddMapping range_kept range_kept_refl range_kept_trans range_kept_emit
           range_kept_pages range_kept_alloc).
Qed.

Lemma UpdateMapping_range level table f c s r s' :
  UpdateMapping level table f c s = Some (r, s') -> range_kept s s'.
Proof.
  apply (preserves_UpdateMapping range_kept range_kept_refl range_kept_trans range_kept_emit
           range_kept_pages range_kept_alloc).
Qed.

(** What a top-level call keeps. *)
Definition call_kept (virt : option Table) (s : Machine) (virt' : option Table)
    (s' : Machine) : Prop :=
  excess top_level virt' s' = excess top_level virt s /\
  frames_aligned (pmm s') /\ pages_in_range s'.

Lemma call_kept_refl virt s :
  frames_aligned (pmm s) -> pages_in_range s -> call_kept virt s virt s.
Proof. unfold call_kept. auto. Qed.

Lemma call_kept_event e virt s :
  frames_aligned (pmm s) -> pages_in_range s ->
  call_kept virt s virt {| pages_ := pages_ s; pmm := pmm s; trace := trace s ++ [e] |}.
Proof. unfold call_kept. auto. Qed.

Lemma start_cursor_ok p v n :
  0 <= v < 2 ^ 64 -> v mod PAGE_SIZE = 0 ->
  cursor_ok {| paddr := p; vaddr := v; size := wrap64 (n * PAGE_SIZE) |}.
Proof.
  intros Hv Hal. unfold cursor_ok. cbn [vaddr size]. split; [exact Hv|].
  split; [apply wrap64_range|]. split; [exact Hal|].
  unfold wrap64. change PAGE_SIZE with 4096.
  change (2 ^ 64) with 18446744073709551616.
  Z.to_euclidean_division_equations; lia.
Qed.

Lemma page_cursor_ok p v :
  0 <= v < 2 ^ 64 -> v mod PAGE_SIZE = 0 ->
  cursor_ok {| paddr := p; vaddr := v; size := PAGE_SIZE |}.
Proof.
  intros Hv Hal. unfold cursor_ok. cbn [vaddr size]. split; [exact Hv|].
  split; [vm_compute; intuition discriminate|]. split; [exact Hal|reflexivity].
Qed.

Section Calls.
Hypothesis H_vaddr : forall v,
  check_vaddr v = true -> 0 <= v < 2 ^ 64 /\ v mod PAGE_SIZE = 0.

Lemma UnmapPages_kept v n virt s r virt' s' :
  UnmapPages v n virt s = Some ((r, virt'), s') ->
  frames_aligned (pmm s) -> pages_in_range s -> call_kept virt s virt' s'.
Proof.
  intros H Hfa Hr. unfold UnmapPages in H.
  destruct (check_vaddr v) eqn:Hv; cbn [negb] in H;
    [|unfold ret in H; inv H; apply call_kept_refl; assumption].
  destruct (n =? 0); [unfold ret in H; inv H; apply call_kept_refl; assumption|].
  destruct (H_vaddr v Hv) as [Hv1 Hv2].
  apply bind_inv in H. destruct H as ([] & s0 & Hlock & H).
  unfold emit in Hlock. inv Hlock.
  apply bind_inv in H. destruct H as ([[b t] c'] & s3 & Hw & H).
  unfold bind, emit, ret in H. inv H.
  pose proof (RemoveMapping_range _ _ _ _ _ _ Hw Hr) as Hr3.
  destruct (RemoveMapping_counted top_level _ _ _ _ _ _ _ Hw
              (start_cursor_ok _ _ _ Hv1 Hv2) Hfa) as [Hex Hfa3].
  unfold call_kept. auto.
Qed.

Lemma ProtectPages_kept v n f virt s r virt' s' :
  ProtectPages v n f virt s = Some ((r, virt'), s') ->
  frames_aligned (pmm s) -> pages_in_range s -> call_kept virt s virt' s'.
Proof.
  intros H Hfa Hr. unfold ProtectPages in H.
  destruct (check_vaddr v) eqn:Hv; cbn [negb] in H;
    [|unfold ret in H; inv H; apply call_kept_refl; assumption].
  destruct (n =? 0); [unfold ret in H; inv H; apply call_kept_refl; assumption|].
  destruct (negb (allowed_flags f));
    [unfold ret in H; inv H; apply call_kept_refl; assumption|].
  destruct (H_vaddr v Hv) as [Hv1 Hv2].
  apply bind_inv in H. destruct H as ([] & s0 & Hlock & H).
  unfold emit in Hlock. inv Hlock.
  apply bind_inv in H. destruct H as ([[b t] c'] & s3 & Hw & H).
  unfold bind, emit, ret in H. inv H.
  pose proof (UpdateMapping_range _ _ _ _ _ _ _ Hw Hr) as Hr3.
  destruct (UpdateMapping_counted top_level _ _ _ _ _ _ _ _ Hw
              (start_cursor_ok _ _ _ Hv1 Hv2) Hfa) as (Hex & Hfa3 & _).
  unfold call_kept. auto.
Qed.

Lemma MapPagesContiguous_kept v p n f virt s r virt' s' :
  MapPagesContiguous v p n f virt s = Some ((r, virt'), s') ->
  frames_aligned (pmm s) -> pages_in_range s -> call_kept virt s virt' s'.
Proof.
  intros H Hfa Hr. unfold MapPagesContiguous in H.
  destruct (negb (check_paddr p));
    [unfold ret in H; inv H; apply call_kept_refl; assumption|].
  destruct (check_vaddr v) eqn:Hv; cbn [negb] in H;
    [|unfold ret in H; inv H; apply call_kept_refl; assumption].
  destruct (n =? 0); [unfold ret in H; inv H; apply call_kept_refl; assumption|].
  destruct (negb (allowed_flags f));
    [unfold ret in H; inv H; apply call_kept_refl; assumption|].
  destruct (H_vaddr v Hv) as [Hv1 Hv2].
  apply bind_inv in H. destruct H as ([] & s0 & Hlock & H).
  unfold emit in Hlock. inv Hlock.
  apply bind_inv in H. destruct H as ([[b t] c'] & s3 & Hw & H).
  unfold bind, emit, ret in H. inv H.
  pose proof (AddMapping_range _ _ _ _ _ _ _ Hw Hr) as Hr3.
  destruct (AddMapping_counted top_level _ _ _ _ _ _ _ _ Hw
              (start_cursor_ok _ _ _ Hv1 Hv2) Hfa) as (Hex & Hfa3 & _).
  unfold call_kept. auto.
Qed.

Lemma MapPages_loop_kept phys f n : forall idx v virt s st virt' idx' s',
  MapPages_loop n idx v phys f virt s = Some ((st, virt', idx'), s') ->
  0 <= v < 2 ^ 64 -> v mod PAGE_SIZE = 0 ->
  frames_aligned (pmm s) -> pages_in_range s -> call_kept virt s virt' s'.
Proof.
  induction n as [|n IH]; intros idx v virt s st virt' idx' s' H Hv Hal Hfa Hr;
    cbn [MapPages_loop] in H.
  - unfold ret in H. inv H. apply call_kept_refl; assumption.
  - apply bind_inv in H. destruct H as (p & s0 & Hp & H).
    apply lift_option_inv in Hp. cbn [fst snd] in Hp. destruct Hp as [Hp ->].
    apply bind_inv in H. destruct H as ([[st1 virt1] c1] & s1 & Hw & H).
    pose proof (AddMapping_range _ _ _ _ _ _ _ Hw Hr) as Hr1.
    destruct (AddMapping_counted top_level _ _ _ _ _ _ _ _ Hw
                (page_cursor_ok _ _ Hv Hal) Hfa) as (Hex & Hfa1 & _).
    destruct (negb (status_is_ok st1)).
    + unfold ret in H. inv H. unfold call_kept. auto.
    + apply IH in H; [| apply wrap64_range | | exact Hfa1 | exact Hr1].
      * destruct H as (Hex2 & Hfa2 & Hr2). unfold call_kept. split; [congruence|auto].
      * clear - Hal. unfold wrap64. change PAGE_SIZE with 4096 in *.
        change (2 ^ 64) with 18446744073709551616.
        Z.to_euclidean_division_equations; lia.
Qed.

Lemma MapPages_kept v phys n f virt s r virt' s' :
  MapPages v phys n f virt s = Some ((r, virt'), s') ->
  frames_aligned (pmm s) -> pages_in_range s -> call_kept virt s virt' s'.
Proof.
  intros H Hfa Hr. unfold MapPages in H.
  destruct (check_vaddr v) eqn:Hv; cbn [negb] in H;
    [|unfold ret in H; inv H; apply call_kept_refl; assumption].
  apply bind_inv in H. destruct H as (ok & s0 & Hp & H).
  apply lift_option_inv in Hp. cbn [fst snd] in Hp. destruct Hp as [Hp ->].
  destruct (negb ok); [unfold ret in H; inv H; apply call_kept_refl; assumption|].
  destruct (n =? 0); [unfold ret in H; inv H; apply call_kept_refl; assumption|].
  destruct (negb (allowed_flags f));
    [unfold ret in H; inv H; apply call_kept_refl; assumption|].
  destruct (H_vaddr v Hv) as [Hv1 Hv2].
  apply bind_inv in H. destruct H as ([] & s1 & Hlock & H).
  unfold emit in Hlock. inv Hlock.
  apply bind_inv in H. destruct H as ([[st virt1] idx] & s2 & Hl & H).
  apply MapPages_loop_kept in Hl; [|assumption..].
  destruct Hl as (Hex & Hfa2 & Hr2).
  destruct (negb (status_is_ok st)).
  - apply bind_inv in H. destruct H as (virt2 & s3 & Hu & H).
    unfold bind, emit, ret in H. inv H.
    unfold MapPages_undo in Hu. destruct (idx >? 0).
    + apply bind_inv in Hu. destruct Hu as ([[b t] c'] & s4 & Hw & Hu).
      unfold ret in Hu. inv Hu.
      pose proof (RemoveMapping_range _ _ _ _ _ _ Hw Hr2) as Hr3.
      destruct (RemoveMapping_counted top_level _ _ _ _ _ _ _ Hw
                  (start_cursor_ok _ _ _ Hv1 Hv2) Hfa2) as [Hex3 Hfa3].
      unfold call_kept. cbn [pmm]. split; [|auto].
      unfold excess in *. cbn [pages_] in *. congruence.
    + unfold ret in Hu. inv Hu. unfold call_kept. cbn [pmm]. split; [|auto].
      unfold excess in *. cbn [pages_] in *. congruence.
  - unfold bind, emit, ret in H. inv H. unfold call_kept. cbn [pmm]. split; [|auto].
    unfold excess in *. cbn [pages_] in *. congruence.
Qed.

Lemma run_call_kept call virt s r virt' s' :
  run_call call virt s = Some ((r, virt'), s') ->
  frames_aligned (pmm s) -> pages_in_range s -> call_kept virt s virt' s'.
Proof.
  destruct call; cbn [run_call]; intros H.
  - eapply MapPages_kept; eauto.
  - eapply MapPagesContiguous_kept; eauto.
  - eapply UnmapPages_kept; eauto.
  - eapply ProtectPages_kept; eauto.
Qed.

Lemma pages_counted_range pt :
  pages_counted pt -> pages_in_range (mach pt).
Proof.
  unfold pages_counted, pages_in_range. intros ->.
  destruct (virt_ pt) as [t|]; cbn [count_from]; [|vm_compute; intuition discriminate].
  pose proof (count_tables_bound top_level t) as Hb.
  change (2 ^ 64) with 18446744073709551616. destruct top_level; lia.
Qed.

Lemma excess_counted level table s :
  pages_in_range s ->
  (excess level table s = 0 <-> pages_ s = count_from level table).
Proof.
  intros Hr. unfold excess, wrap64, pages_in_range in *.
  assert (Hb : 0 <= count_from level table < 2 ^ 64).
  { destruct table as [t|]; cbn [count_from]; [|vm_compute; intuition discriminate].
    pose proof (count_tables_bound level t) as Hb.
    change (2 ^ 64) with 18446744073709551616. destruct level; lia. }
  change (2 ^ 64) with 18446744073709551616 in *.
  split; intros H; [|rewrite H, Z.sub_diag; reflexivity].
  Z.to_euclidean_division_equations; lia.
Qed.

Lemma on_aspace_counted call pt r pt' :
  on_aspace (run_call call) pt = Some (r, pt') ->
  frames_aligned (pmm (mach pt)) -> pages_counted pt ->
  frames_aligned (pmm (mach pt')) /\ pages_counted pt'.
Proof.
  unfold on_aspace. intros H Hfa Hpc.
  destruct (run_call call (virt_ pt) (mach pt)) as [[[r1 virt'] s']|] eqn:E; [|discriminate].
  inv H. cbn [mach virt_].
  pose proof (pages_counted_range _ Hpc) as Hr.
  destruct (run_call_kept _ _ _ _ _ _ E Hfa Hr) as (Hex & Hfa' & Hr').
  split; [exact Hfa'|]. unfold pages_counted. cbn [mach virt_].
  apply (excess_counted top_level _ _ Hr'). rewrite Hex.
  apply (excess_counted top_level _ _ Hr). exact Hpc.
Qed.

(** C3.  [pages_] counts the page tables: on an address space where
    [pages_] is the number of present non-terminal entries reachable from
    the root, after any sequence of MapPages, MapPagesContiguous,
    UnmapPages and ProtectPages calls that return, whatever their arguments
    and results, [pages_] is again that number.  The flag policy is that
    of x86: table entries carry no PS bit, the entries of a split 1 GiB
    page keep theirs, valid addresses are page-aligned 64-bit values; and
    the allocator hands out page-aligned frames. *)
Theorem C3_pages_counts_tables calls pt pt' :
  frames_aligned (pmm (mach pt)) -> pages_counted pt ->
  run_calls calls pt = Some pt' ->
  pages_counted pt'.
Proof.
  revert pt. induction calls as [|call rest IH]; intros pt Hfa Hpc H; cbn [run_calls] in H.
  - inv H. exact Hpc.
  - destruct (on_aspace (run_call call) pt) as [[r pt1]|] eqn:E; [|discriminate].
    destruct (on_aspace_counted _ _ _ _ E Hfa Hpc) as [Hfa1 Hpc1].
    exact (IH _ Hfa1 Hpc1 H).
Qed.
End Calls.
End Counted.

(** *** The re-protect walk *)

Lemma entries_only_refl s : entries_only s s.
Proof. split; [|split]; auto. exists []. rewrite app_nil_r. auto. Qed.

Lemma entries_only_trans s1 s2 s3 :
  entries_only s1 s2 -> entries_only s2 s3 -> entries_only s1 s3.
Proof.
  intros (Hp1 & Hm1 & e1 & Ht1 & Hf1) (Hp2 & Hm2 & e2 & Ht2 & Hf2).
  split; [congruence|]. split; [congruence|]. exists (e1 ++ e2).
  rewrite Ht2, Ht1, <- app_assoc, forallb_app, Hf1, Hf2. auto.
Qed.

Lemma ForceFlush_entries clf s clf' s' :
  ForceFlush clf s = Some (clf', s') -> entries_only s s'.
Proof.
  intros H. apply ForceFlush_spec in H. destruct H as (_ & _ & Hpg & Hpm & Ht).
  split; [exact Hpg|]. split; [exact Hpm|]. eexists. split; [exact Ht|].
  destruct (flush_pending clf); reflexivity.
Qed.

Lemma FlushPtEntry_entries clf entry s clf' s' :
  FlushPtEntry clf entry s = Some (clf', s') -> entries_only s s'.
Proof.
  intros H. apply FlushPtEntry_spec in H. destruct H as (_ & _ & Hpg & Hpm & evs & Ht & Hf).
  split; [exact Hpg|]. split; [exact Hpm|]. exists evs. split; [exact Ht|].
  clear Ht. induction evs as [|e evs IH]; [reflexivity|]. cbn [forallb] in *.
  apply andb_true_iff in Hf. destruct Hf as [He Hf]. rewrite (IH Hf), andb_true_r.
  destruct e; try discriminate; reflexivity.
Qed.

Lemma emit_entries e s r s' :
  emit e s = Some (r, s') -> is_entry_event e = true -> entries_only s s'.
Proof.
  unfold emit. intros H He. inv H. split; [reflexivity|]. split; [reflexivity|].
  exists [e]. cbn. rewrite He. auto.
Qed.

Lemma UpdateEntry_entries clf level va t i pa next flags wt s r s' :
  UpdateEntry clf level va t i pa next flags wt s = Some (r, s') -> entries_only s s'.
Proof.
  unfold UpdateEntry, read_entry, TlbInvalidatePage. intros H.
  apply bind_inv in H. destruct H as (olde & s0 & Hr & H).
  apply lift_option_inv in Hr. cbn [fst snd] in Hr. destruct Hr as [_ ->].
  apply bind_inv in H. destruct H as ([] & s1 & He & H).
  apply emit_entries in He; [|reflexivity].
  apply bind_inv in H. destruct H as (clf1 & s2 & Hf & H).
  apply FlushPtEntry_entries in Hf.
  destruct (IS_PAGE_PRESENT (pte_val olde)).
  - apply bind_inv in H. destruct H as (clf2 & s3 & Hff & H).
    apply ForceFlush_entries in Hff.
    apply bind_inv in H. destruct H as ([] & s4 & Ht & H).
    apply emit_entries in Ht; [|reflexivity]. unfold ret in H. inv H.
    repeat (eapply entries_only_trans; [eassumption|]). apply entries_only_refl.
  - unfold ret in H. inv H. eapply entries_only_trans; eassumption.
Qed.

Lemma quiet_unless_alloc_refl s : quiet_unless_alloc s s.
Proof. exists []. rewrite app_nil_r. auto. Qed.

Lemma quiet_unless_alloc_trans s1 s2 s3 :
  quiet_unless_alloc s1 s2 -> quiet_unless_alloc s2 s3 -> quiet_unless_alloc s1 s3.
Proof.
  intros (e1 & Ht1 & H1) (e2 & Ht2 & H2). exists (e1 ++ e2).
  split; [rewrite Ht2, Ht1, <- app_assoc; reflexivity|].
  rewrite !existsb_app. intros Hn. apply orb_false_iff in Hn. destruct Hn as [Hn1 Hn2].
  destruct (H1 Hn1) as (Hp1 & Hm1 & Hf1). destruct (H2 Hn2) as (Hp2 & Hm2 & Hf2).
  rewrite Hf1, Hf2. repeat split; congruence.
Qed.

Lemma entries_only_quiet s s' : entries_only s s' -> quiet_unless_alloc s s'.
Proof.
  intros (Hp & Hm & evs & Ht & Hf). exists evs. split; [exact Ht|]. intros _.
  split; [exact Hp|]. split; [exact Hm|]. clear Ht.
  induction evs as [|e evs IH]; [reflexivity|]. cbn [forallb existsb] in *.
  apply andb_true_iff in Hf. destruct Hf as [He Hf]. rewrite (IH Hf), orb_false_r.
  destruct e; try discriminate; reflexivity.
Qed.

(** After an allocation was attempted, whatever follows. *)
Lemma alloc_then_quiet s a s1 s' :
  pmm_alloc_kpage s = Some (a, s1) -> walk_ext s1 s' -> quiet_unless_alloc s s'.
Proof.
  unfold pmm_alloc_kpage. intros H (evs & Ht & _). inv H. cbn [trace] in Ht.
  exists (EvAlloc match pmm s with Some pa :: _ => Some pa | _ => None end :: evs).
  split; [rewrite Ht, <- app_assoc; reflexivity|]. cbn. discriminate.
Qed.

Lemma SplitLargePage_walk_ext level va t i s r s' :
  SplitLargePage level va t i s = Some (r, s') -> walk_ext s s'.
Proof.
  apply (preserves_SplitLargePage walk_ext walk_ext_refl walk_ext_trans walk_ext_emit
           walk_ext_pages walk_ext_alloc).
Qed.

Lemma SplitLargePage_allocates level va t i s r s1 s' :
  SplitLargePage level va t i s = Some (r, s1) -> walk_ext s1 s' ->
  quiet_unless_alloc s s'.
Proof.
  intros H Hext. unfold SplitLargePage, read_entry, _map_alloc_page in H.
  apply bind_inv in H. destruct H as (e & s0 & Hr & H).
  apply lift_option_inv in Hr. cbn [fst snd] in Hr. destruct Hr as [_ ->].
  apply bind_inv in H. destruct H as (m & s2 & Ha & H).
  apply bind_inv in Ha. destruct Ha as (page & sa & Ha & Hm).
  apply (alloc_then_quiet _ _ _ _ Ha).
  eapply walk_ext_trans; [|exact Hext].
  assert (Hs2 : s2 = sa) by (destruct page; unfold ret in Hm; inv Hm; reflexivity).
  subst s2. destruct m as [m|]; [|unfold ret in H; inv H; apply walk_ext_refl].
  apply bind_inv in H. destruct H as (pb & s3 & Hpb & H).
  apply lift_option_inv in Hpb. cbn [fst snd] in Hpb. destruct Hpb as [_ ->].
  apply bind_inv in H. destruct H as ([clf m'] & s4 & Hf & H).
  apply (preserves_split_fill walk_ext walk_ext_refl walk_ext_trans walk_ext_emit) in Hf.
  apply bind_inv in H. destruct H as ([clf2 t2] & s5 & Hu & H).
  apply (preserves_UpdateEntry walk_ext walk_ext_refl walk_ext_trans walk_ext_emit) in Hu.
  apply bind_inv in H. destruct H as ([] & s6 & Hp & H).
  unfold add_pages in Hp. inv Hp.
  apply bind_inv in H. destruct H as (clf3 & s7 & Hff & H).
  apply (preserves_ForceFlush walk_ext walk_ext_refl walk_ext_trans walk_ext_emit) in Hff.
  unfold ret in H. inv H.
  eapply walk_ext_trans; [exact Hf|]. eapply walk_ext_trans; [exact Hu|].
  eapply walk_ext_trans; [apply walk_ext_pages|exact Hff].
Qed.

Lemma quiet_unless_alloc_ext s s' : quiet_unless_alloc s s' -> exists evs, trace s' = trace s ++ evs.
Proof. intros (evs & Ht & _). eauto. Qed.

Lemma UpdateMappingL0_body_quiet f i fr s r s' :
  UpdateMappingL0_body f i fr s = Some (r, s') -> quiet_unless_alloc s s'.
Proof.
  intros H. unfold UpdateMappingL0_body, deref_table, read_entry in H. minv.
  - apply entries_only_quiet. eapply UpdateEntry_entries; eauto.
  - apply quiet_unless_alloc_refl.
Qed.

Lemma leave_frame_quiet st fr s r s' :
  leave_frame st fr s = Some (r, s') -> quiet_unless_alloc s s'.
Proof.
  unfold leave_frame. intros H. apply bind_inv in H. destruct H as (clf & s1 & Hff & H).
  unfold ret in H. inv H. apply entries_only_quiet. eapply ForceFlush_entries; eauto.
Qed.

Lemma UpdateMappingL0_quiet table f c :
  preserved quiet_unless_alloc (UpdateMappingL0 table f c).
Proof.
  intros s r s' H. unfold UpdateMappingL0 in H.
  apply bind_inv in H. destruct H as (r1 & s1 & Hl & H).
  apply (preserves_loop quiet_unless_alloc quiet_unless_alloc_refl quiet_unless_alloc_trans)
    in Hl; [|intros i fr s0 r0 s2; apply UpdateMappingL0_body_quiet].
  destruct r1 as [fr|]; [|discriminate]. apply leave_frame_quiet in H.
  eapply quiet_unless_alloc_trans; eauto.
Qed.

Lemma UpdateMapping_body_quiet lower remove_here level f i fr :
  (forall table c, preserved quiet_unless_alloc (lower table f c)) ->
  (forall table c, preserved walk_ext (remove_here table c)) ->
  (forall table c, preserved walk_ext (lower table f c)) ->
  preserved quiet_unless_alloc (UpdateMapping_body lower remove_here level f i fr).
Proof.
  intros Hlow Hrem Hlext s r s' H.
  unfold UpdateMapping_body, UpdateMapping_large, deref_table, read_entry in H.
  minv; cbn [with_table fr_table fr_cursor] in *.
  - apply quiet_unless_alloc_refl.
  - apply entries_only_quiet. eapply UpdateEntry_entries; eauto.
  - (* the split failed *)
    match goal with
    | H : SplitLargePage _ _ _ _ _ = Some _ |- _ =>
        apply (SplitLargePage_allocates _ _ _ _ _ _ _ _ H)
    end.
    eapply walk_ext_trans; [eapply Hrem; eassumption | eapply Hlext; eassumption].
  - (* the large page is split *)
    match goal with
    | H : SplitLargePage _ _ _ _ _ = Some _ |- _ =>
        apply (SplitLargePage_allocates _ _ _ _ _ _ _ _ H)
    end.
    eapply Hlext; eassumption.
  - eapply Hlow; eassumption.
Qed.

Lemma UpdateMapping_at_quiet lower remove_here level :
  (forall table f c, preserved quiet_unless_alloc (lower table f c)) ->
  (forall table c, preserved walk_ext (remove_here table c)) ->
  (forall table f c, preserved walk_ext (lower table f c)) ->
  forall table f c,
    preserved quiet_unless_alloc (UpdateMapping_at lower remove_here level table f c).
Proof.
  intros Hlow Hrem Hlext table f c s r s' H. unfold UpdateMapping_at in H.
  apply bind_inv in H. destruct H as (r1 & s1 & Hl & H).
  apply (preserves_loop quiet_unless_alloc quiet_unless_alloc_refl quiet_unless_alloc_trans)
    in Hl; [|intros i fr; apply UpdateMapping_body_quiet; auto].
  destruct r1 as [fr|]; [|discriminate]. apply leave_frame_quiet in H.
  eapply quiet_unless_alloc_trans; eauto.
Qed.

Lemma RemoveMapping_preserved_ext level table c :
  preserved walk_ext (RemoveMapping level table c).
Proof. intros s r s'. apply RemoveMapping_walk_ext. Qed.

Lemma UpdateMapping_preserved_ext level table f c :
  preserved walk_ext (UpdateMapping level table f c).
Proof. intros s r s'. apply UpdateMapping_walk_ext. Qed.

Lemma UpdateMapping_quiet level table f c :
  preserved quiet_unless_alloc (UpdateMapping level table f c).
Proof.
  revert table f c. destruct level; unfold UpdateMapping.
  - exact UpdateMappingL0_quiet.
  - refine (UpdateMapping_at_quiet _ _ PD_L UpdateMappingL0_quiet
              (RemoveMapping_preserved_ext PD_L) (UpdateMapping_preserved_ext PT_L)).
  - refine (UpdateMapping_at_quiet _ _ PDP_L _
              (RemoveMapping_preserved_ext PDP_L) (UpdateMapping_preserved_ext PD_L)).
    refine (UpdateMapping_at_quiet _ _ PD_L UpdateMappingL0_quiet
              (RemoveMapping_preserved_ext PD_L) (UpdateMapping_preserved_ext PT_L)).
  - refine (UpdateMapping_at_quiet _ _ PML4_L _
              (RemoveMapping_preserved_ext PML4_L) (UpdateMapping_preserved_ext PDP_L)).
    refine (UpdateMapping_at_quiet _ _ PDP_L _
              (RemoveMapping_preserved_ext PDP_L) (UpdateMapping_preserved_ext PD_L)).
    refine (UpdateMapping_at_quiet _ _ PD_L UpdateMappingL0_quiet
              (RemoveMapping_preserved_ext PD_L) (UpdateMapping_preserved_ext PT_L)).
Qed.

(** *** [pages_] and the allocator *)

Lemma allocated_app e1 e2 : allocated (e1 ++ e2) = allocated e1 + allocated e2.
Proof.
  induction e1 as [|e e1 IH]; [reflexivity|]. cbn [app allocated].
  destruct e as [| | |[pa|]| | |]; rewrite ?IH; lia.
Qed.

Lemma freed_app e1 e2 : freed (e1 ++ e2) = freed e1 + freed e2.
Proof.
  induction e1 as [|e e1 IH]; [reflexivity|]. cbn [app freed].
  destruct e; rewrite ?IH; lia.
Qed.

Lemma entry_events_count evs :
  forallb is_entry_event evs = true -> allocated evs = 0 /\ freed evs = 0.
Proof.
  induction evs as [|e evs IH]; [auto|]. cbn [forallb]. intros H.
  apply andb_true_iff in H. destruct H as [He H]. destruct (IH H) as [Ha Hf].
  destruct e; try discriminate; cbn [allocated freed]; auto.
Qed.

Lemma accounted_refl s : accounted s s.
Proof. exists []. rewrite app_nil_r. cbn. split; [reflexivity|]. f_equal. lia. Qed.

Lemma accounted_trans s1 s2 s3 : accounted s1 s2 -> accounted s2 s3 -> accounted s1 s3.
Proof.
  intros (e1 & Ht1 & H1) (e2 & Ht2 & H2). exists (e1 ++ e2).
  split; [rewrite Ht2, Ht1, <- app_assoc; reflexivity|].
  rewrite allocated_app, freed_app, H2.
  replace (pages_ s2 + allocated e2 - freed e2)
    with (pages_ s2 + (allocated e2 - freed e2)) by lia.
  rewrite (wrap64_shift _ _ _ H1). f_equal. lia.
Qed.

Lemma entries_only_accounted s s' : entries_only s s' -> accounted s s'.
Proof.
  intros (Hp & Hm & evs & Ht & Hf). exists evs. split; [exact Ht|].
  destruct (entry_events_count _ Hf) as [-> ->]. rewrite Hp. f_equal. lia.
Qed.

Lemma UnmapEntry_entries clf level va t i wt s r s' :
  UnmapEntry clf level va t i wt s = Some (r, s') -> entries_only s s'.
Proof.
  unfold UnmapEntry, read_entry, TlbInvalidatePage. intros H.
  apply bind_inv in H. destruct H as (olde & s0 & Hr & H).
  apply lift_option_inv in Hr. cbn [fst snd] in Hr. destruct Hr as [_ ->].
  apply bind_inv in H. destruct H as ([] & s1 & He & H).
  apply emit_entries in He; [|reflexivity].
  apply bind_inv in H. destruct H as (clf1 & s2 & Hf & H).
  apply FlushPtEntry_entries in Hf.
  destruct (IS_PAGE_PRESENT (pte_val olde)).
  - apply bind_inv in H. destruct H as (clf2 & s3 & Hff & H).
    apply ForceFlush_entries in Hff.
    apply bind_inv in H. destruct H as ([] & s4 & Ht & H).
    apply emit_entries in Ht; [|reflexivity]. unfold ret in H. inv H.
    repeat (eapply entries_only_trans; [eassumption|]). apply entries_only_refl.
  - unfold ret in H. inv H. eapply entries_only_trans; eassumption.
Qed.

Lemma split_fill_entries n : forall i clf level m va pa ps flags s r s',
  split_fill n i clf level m va pa ps flags s = Some (r, s') -> entries_only s s'.
Proof.
  induction n as [|n IH]; intros i clf level m va pa ps flags s r s' H; cbn [split_fill] in H.
  - unfold ret in H. inv H. apply entries_only_refl.
  - apply bind_inv in H. destruct H as ([clf1 m1] & s1 & Hu & H).
    apply UpdateEntry_entries in Hu. apply IH in H. eapply entries_only_trans; eauto.
Qed.

Lemma SplitLargePage_accounted level va t i s r s' :
  SplitLargePage level va t i s = Some (r, s') -> accounted s s'.
Proof.
  intros H. unfold SplitLargePage, read_entry, _map_alloc_page in H.
  apply bind_inv in H. destruct H as (e & s0 & Hr & H).
  apply lift_option_inv in Hr. cbn [fst snd] in Hr. destruct Hr as [_ ->].
  apply bind_inv in H. destruct H as (m & s2 & Ha & H).
  apply bind_inv in Ha. destruct Ha as (page & sa & Ha & Hm).
  unfold pmm_alloc_kpage in Ha. injection Ha as Hpage Hsa.
  destruct page as [pa|]; unfold ret in Hm; injection Hm as <- <-.
  - apply bind_inv in H. destruct H as (pb & s3 & Hpb & H).
    apply lift_option_inv in Hpb. cbn [fst snd] in Hpb. destruct Hpb as [_ ->].
    apply bind_inv in H. destruct H as ([clf m'] & s4 & Hf & H).
    apply split_fill_entries in Hf. destruct Hf as (Hp4 & _ & e4 & Ht4 & Hf4).
    apply bind_inv in H. destruct H as ([clf2 t2] & s5 & Hu & H).
    apply UpdateEntry_entries in Hu. destruct Hu as (Hp5 & _ & e5 & Ht5 & Hf5).
    apply bind_inv in H. destruct H as ([] & s6 & Hp & H).
    unfold add_pages in Hp. inv Hp.
    apply bind_inv in H. destruct H as (clf3 & s7 & Hff & H).
    apply ForceFlush_entries in Hff. destruct Hff as (Hp7 & _ & e7 & Ht7 & Hf7).
    unfold ret in H. inv H. cbn [trace pages_] in *.
    exists (EvAlloc (Some pa) :: e4 ++ e5 ++ e7).
    split; [rewrite Ht7, Ht5, Ht4, Hpage; cbn [trace]; rewrite <- !app_assoc; reflexivity|].
    cbn [allocated freed]. rewrite !allocated_app, !freed_app.
    destruct (entry_events_count _ Hf4) as [-> ->].
    destruct (entry_events_count _ Hf5) as [-> ->].
    destruct (entry_events_count _ Hf7) as [-> ->].
    rewrite Hp7, Hp5, Hp4. cbn [pages_]. unfold wrap64. rewrite Zmod_mod. f_equal. lia.
  - unfold ret in H. inv H. exists [EvAlloc None]. cbn [trace pages_ allocated freed].
    rewrite Hpage. split; [reflexivity|]. f_equal. lia.
Qed.

Lemma free_accounted {A} pa (a : A) s r s' :
  (pmm_free_page pa;; add_pages (-1);; ret a) s = Some (r, s') -> accounted s s'.
Proof.
  unfold pmm_free_page, bind, emit, add_pages, ret. intros H. inv H.
  exists [EvFree pa]. cbn. split; [reflexivity|]. unfold wrap64. rewrite Zmod_mod. f_equal. lia.
Qed.

Lemma RemoveMappingL0_body_accounted i fr :
  preserved accounted (RemoveMappingL0_body i fr).
Proof.
  intros s r s' H. unfold RemoveMappingL0_body, deref_table, read_entry in H. minv.
  - apply entries_only_accounted. eapply UnmapEntry_entries; eauto.
  - apply accounted_refl.
Qed.

Lemma ForceFlush_accounted clf : preserved accounted (ForceFlush clf).
Proof. intros s r s' H. apply entries_only_accounted. eapply ForceFlush_entries; eauto. Qed.

Lemma RemoveMappingL0_accounted table c : preserved accounted (RemoveMappingL0 table c).
Proof.
  intros s r s' H. unfold RemoveMappingL0 in H.
  apply bind_inv in H. destruct H as (r1 & s1 & Hl & H).
  apply (preserves_loop accounted accounted_refl accounted_trans) in Hl;
    [|apply RemoveMappingL0_body_accounted].
  destruct r1 as [fr|]; [|discriminate].
  apply bind_inv in H. destruct H as (clf & s2 & Hff & H). unfold ret in H. inv H.
  apply ForceFlush_accounted in Hff. eapply accounted_trans; eauto.
Qed.

Lemma RemoveMapping_descend_accounted lower level i t fr :
  (forall table c, preserved accounted (lower table c)) ->
  preserved accounted (RemoveMapping_descend lower level i t fr).
Proof.
  intros Hlow s r s' H. unfold RemoveMapping_descend, read_entry in H.
  apply bind_inv in H. destruct H as (e0 & s0 & Hr & H).
  apply lift_option_inv in Hr. cbn [fst snd] in Hr. destruct Hr as [_ ->].
  apply bind_inv in H. destruct H as ([[b nt] c1] & s1 & Hl & H).
  apply Hlow in Hl. eapply accounted_trans; [exact Hl|].
  apply bind_inv in H. destruct H as (u & s2 & Hu & H).
  assert (Hs2 : s2 = s1).
  { destruct (negb _ && b).
    - unfold table_is_empty, deref_table in Hu. minv; reflexivity.
    - unfold ret in Hu. inv Hu. reflexivity. }
  subst s2. destruct u; [|unfold ret in H; inv H; apply accounted_refl].
  apply bind_inv in H. destruct H as (nt1 & s3 & Hd & H).
  unfold deref_table in Hd. apply lift_option_inv in Hd. cbn [fst snd] in Hd.
  destruct Hd as [_ ->].
  apply bind_inv in H. destruct H as ([clf t2] & s4 & Hun & H).
  apply UnmapEntry_entries, entries_only_accounted in Hun.
  eapply accounted_trans; [exact Hun|]. eapply free_accounted. exact H.
Qed.

Lemma RemoveMapping_body_accounted lower level i fr :
  (forall table c, preserved accounted (lower table c)) ->
  preserved accounted (RemoveMapping_body lower level i fr).
Proof.
  intros Hlow s r s' H.
  pose proof (RemoveMapping_descend_accounted lower level i) as Hd.
  unfold RemoveMapping_body, RemoveMapping_large, deref_table, read_entry in H.
  minv.
  - apply accounted_refl.
  - apply entries_only_accounted. eapply UnmapEntry_entries; eauto.
  - eapply accounted_trans; [eapply SplitLargePage_accounted; eassumption|].
    eapply accounted_trans;
      [apply entries_only_accounted; eapply UnmapEntry_entries; eassumption|].
    eapply Hd; eauto.
  - eapply accounted_trans; [eapply SplitLargePage_accounted; eassumption|].
    eapply Hd; eauto.
  - eapply Hd; eauto.
Qed.

Lemma RemoveMapping_at_accounted lower level :
  (forall table c, preserved accounted (lower table c)) ->
  forall table c, preserved accounted (RemoveMapping_at lower level table c).
Proof.
  intros Hlow table c s r s' H. unfold RemoveMapping_at in H.
  apply bind_inv in H. destruct H as (r1 & s1 & Hl & H).
  apply (preserves_loop accounted accounted_refl accounted_trans) in Hl;
    [|intros i fr; apply RemoveMapping_body_accounted; exact Hlow].
  destruct r1 as [fr|]; [|discriminate].
  apply bind_inv in H. destruct H as (clf & s2 & Hff & H). unfold ret in H. inv H.
  apply ForceFlush_accounted in Hff. eapply accounted_trans; eauto.
Qed.

Lemma RemoveMapping_accounted level table c : preserved accounted (RemoveMapping level table c).
Proof.
  revert table c. destruct level; unfold RemoveMapping;
    repeat first [exact RemoveMappingL0_accounted | refine (RemoveMapping_at_accounted _ _ _)].
Qed.

Lemma leave_frame_accounted st fr : preserved accounted (leave_frame st fr).
Proof.
  intros s r s' H. unfold leave_frame in H.
  apply bind_inv in H. destruct H as (clf & s1 & Hff & H). unfold ret in H. inv H.
  eapply ForceFlush_accounted; eauto.
Qed.

Lemma UpdateMappingL0_accounted table f c : preserved accounted (UpdateMappingL0 table f c).
Proof.
  intros s r s' H. unfold UpdateMappingL0 in H.
  apply bind_inv in H. destruct H as (r1 & s1 & Hl & H).
  apply (preserves_loop accounted accounted_refl accounted_trans) in Hl.
  - destruct r1 as [fr|]; [|discriminate]. apply leave_frame_accounted in H.
    eapply accounted_trans; eauto.
  - intros i fr s0 r0 s2 Hb. unfold UpdateMappingL0_body, deref_table, read_entry in Hb. minv.
    + apply entries_only_accounted. eapply UpdateEntry_entries; eauto.
    + apply accounted_refl.
Qed.

Lemma UpdateMapping_body_accounted lower remove_here level f i fr :
  (forall table c, preserved accounted (lower table f c)) ->
  (forall table c, preserved accounted (remove_here table c)) ->
  preserved accounted (UpdateMapping_body lower remove_here level f i fr).
Proof.
  intros Hlow Hrem s r s' H.
  unfold UpdateMapping_body, UpdateMapping_large, deref_table, read_entry in H.
  minv; cbn [with_table fr_table fr_cursor] in *.
  - apply accounted_refl.
  - apply entries_only_accounted. eapply UpdateEntry_entries; eauto.
  - eapply accounted_trans; [eapply SplitLargePage_accounted; eassumption|].
    eapply accounted_trans; [eapply Hrem; eassumption | eapply Hlow; eassumption].
  - eapply accounted_trans; [eapply SplitLargePage_accounted; eassumption|].
    eapply Hlow; eassumption.
  - eapply Hlow; eassumption.
Qed.

Lemma UpdateMapping_at_accounted lower remove_here level :
  (forall table f c, preserved accounted (lower table f c)) ->
  (forall table c, preserved accounted (remove_here table c)) ->
  forall table f c, preserved accounted (UpdateMapping_at lower remove_here level table f c).
Proof.
  intros Hlow Hrem table f c s r s' H. unfold UpdateMapping_at in H.
  apply bind_inv in H. destruct H as (r1 & s1 & Hl & H).
  apply (preserves_loop accounted accounted_refl accounted_trans) in Hl;
    [|intros i fr; apply UpdateMapping_body_accounted; auto].
  destruct r1 as [fr|]; [|discriminate]. apply leave_frame_accounted in H.
  eapply accounted_trans; eauto.
Qed.

Lemma UpdateMapping_accounted level table f c :
  preserved accounted (UpdateMapping level table f c).
Proof.
  revert table f c. destruct level; unfold UpdateMapping;
    repeat first [ exact UpdateMappingL0_accounted
                 | refine (UpdateMapping_at_accounted _ _ _ _ (RemoveMapping_accounted _)) ].
Qed.

(** C7, amended.  A ProtectPages call that returns never answers
    AlreadyExists: it answers InvalidArgs or Ok, and Ok when its arguments
    passed the checks.  It can create a page table, by splitting a large
    page that the range covers in part, so [pages_] is not kept in general:
    it moves by the number of frames the call allocated less the number it
    freed (as a 64-bit counter), and a call during which no allocation is
    attempted leaves [pages_] and the allocator as they were and frees no
    frame. *)
Theorem C7_protect_allocates_or_keeps v n f virt s r virt' s' :
  ProtectPages v n f virt s = Some ((r, virt'), s') ->
  (r = ZX_OK \/ r = ZX_ERR_INVALID_ARGS) /\
  (check_vaddr v = true -> allowed_flags f = true -> r = ZX_OK) /\
  exists evs, trace s' = trace s ++ evs /\
    wrap64 (pages_ s') = wrap64 (pages_ s + allocated evs - freed evs) /\
    (existsb is_alloc evs = false ->
     pages_ s' = pages_ s /\ pmm s' = pmm s /\ existsb is_free evs = false).
Proof.
  intros H. unfold ProtectPages in H.
  assert (Hq0 : exists evs, trace s = trace s ++ evs /\
            wrap64 (pages_ s) = wrap64 (pages_ s + allocated evs - freed evs) /\
            (existsb is_alloc evs = false ->
             pages_ s = pages_ s /\ pmm s = pmm s /\ existsb is_free evs = false)).
  { exists []. rewrite app_nil_r. cbn [allocated freed]. rewrite Z.add_0_r, Z.sub_0_r. auto. }
  destruct (check_vaddr v); cbn [negb] in H;
    [|unfold ret in H; inv H; split; [auto|split; [discriminate|exact Hq0]]].
  destruct (n =? 0); [unfold ret in H; inv H; auto|].
  destruct (allowed_flags f); cbn [negb] in H;
    [|unfold ret in H; inv H; split; [auto|split; [discriminate|exact Hq0]]].
  apply bind_inv in H. destruct H as ([] & s0 & Hlock & H).
  unfold emit in Hlock. inv Hlock.
  apply bind_inv in H. destruct H as ([[st t] c'] & s3 & Hw & H).
  assert (Hst : st = ZX_OK).
  { clear - Hw. destruct top_level; unfold UpdateMapping, UpdateMappingL0, UpdateMapping_at in Hw;
      apply bind_inv in Hw; destruct Hw as (r1 & s1 & _ & Hw);
      (destruct r1 as [fr|]; [|discriminate]); apply leave_frame_inv in Hw; inv Hw;
      reflexivity. }
  pose proof (UpdateMapping_accounted _ _ _ _ _ _ _ Hw) as (evs' & Ht' & Hacc).
  apply UpdateMapping_quiet in Hw. destruct Hw as (evs & Ht & Hq). cbn [trace pages_] in *.
  assert (evs' = evs) as ->.
  { rewrite Ht in Ht'. apply app_inv_head in Ht'. auto. }
  unfold bind, emit, ret in H. inv H. split; [auto|]. split; [auto|].
  exists (EvLock :: evs ++ [EvUnlock]). cbn [trace pages_ pmm].
  split; [rewrite Ht, <- !app_assoc; reflexivity|].
  split.
  - cbn [allocated freed]. rewrite allocated_app, freed_app. cbn [allocated freed].
    rewrite Hacc. f_equal. lia.
  - cbn [existsb is_alloc is_free orb]. rewrite !existsb_app.
    cbn [existsb is_alloc is_free orb]. rewrite !orb_false_r. exact Hq.
Qed.

(** *** The addresses an unmap walk went over *)

Lemma at_index_vaddr level c0 n c :
  cursor_ok c0 -> at_index level c0 (S n) c -> size c <> 0 ->
  vaddr c = vaddr c0 + (size c0 - size c).
Proof.
  intros Hok0 (k & Hk & Hv & Hs & Hok & Hpos) Hsz.
  pose proof (vaddr_to_index_div level (vaddr c0)) as Hidx.
  pose proof (vaddr_to_index_range level (vaddr c0)) as Hir.
  destruct Hok0 as (Hv0 & Hs0 & Hva0 & Hsa0). destruct Hok as (Hvc & Hsc & Hvac & Hsac).
  rewrite Hv, Hs in *. clear Hv Hs. unfold wrap64 in *. rewrite Nat2Z.inj_succ in *.
  level_consts level; Z.to_euclidean_division_equations; lia.
Qed.

Lemma at_index_before level c0 n c a :
  cursor_ok c0 -> at_index level c0 (S n) c -> size c <> 0 ->
  vaddr c0 <= a < vaddr c ->
  vaddr_to_index level a < NO_OF_PT_ENTRIES - Z.of_nat (S n).
Proof.
  intros Hok0 Hat Hsz Ha. pose proof (at_index_vaddr _ _ _ _ Hok0 Hat Hsz) as Hvc.
  destruct Hat as (k & Hk & Hv & Hs & Hok & Hpos).
  rewrite vaddr_to_index_div. rewrite vaddr_to_index_div in Hpos.
  destruct Hok0 as (Hv0 & Hs0 & Hva0 & Hsa0). destruct Hok as (Hvc1 & Hsc & Hvac & Hsac).
  rewrite Hvc in *. rewrite Hs in *. clear Hv Hs Hvc. rewrite Nat2Z.inj_succ in *.
  level_consts level; Z.to_euclidean_division_equations; lia.
Qed.

Lemma same_entry_index level v a :
  0 <= v -> v <= a < v + (page_size level - v mod page_size level) ->
  vaddr_to_index level a = vaddr_to_index level v.
Proof.
  intros Hv Ha. rewrite !vaddr_to_index_div.
  level_consts level; Z.to_euclidean_division_equations; lia.
Qed.

Section Unmaps.
Context {R : Type} (body : Z -> Frame -> M (Frame + R)).
Variable Q : Entry -> MappingCursor -> MappingCursor -> Prop.
Variable level : PageTableLevel.
Variable G : option Table -> Z -> M Mapping.
Hypothesis first_run : forall i fr s fr1 s1,
  body i fr s = Some (inl fr1, s1) ->
  cursor_ok (fr_cursor fr) -> size (fr_cursor fr) <> 0 -> 0 <= i ->
  cursor_ok (fr_cursor fr1) /\
  exists t t1 e1, fr_table fr = Some t /\ fr_table fr1 = Some t1 /\ touches_only i t t1 /\
    tbl_ents t1 !! Z.to_nat i = Some e1 /\ Q e1 (fr_cursor fr) (fr_cursor fr1).
Hypothesis step_reach : forall i fr s fr1 s1,
  body i fr s = Some (inl fr1, s1) ->
  cursor_ok (fr_cursor fr) -> size (fr_cursor fr) <> 0 -> 0 <= i ->
  fr_cursor fr1 = reach (page_size level) (fr_cursor fr).
Hypothesis G_local : forall t t' a s2,
  tbl_ents t' !! Z.to_nat (vaddr_to_index level a)
    = tbl_ents t !! Z.to_nat (vaddr_to_index level a) ->
  G (Some t') a s2 = G (Some t) a s2.
Hypothesis gone : forall t e c c1 a s2,
  Q e c c1 -> cursor_ok c ->
  tbl_ents t !! Z.to_nat (vaddr_to_index level a) = Some e ->
  vaddr c <= a < vaddr c + (size c - size c1) ->
  G (Some t) a s2 = Some (MappingNotFound, s2).

Lemma unmaps_loop table c s fr' s' :
  for_each_entry (entries_from (vaddr_to_index level (vaddr c))) body
    (new_frame table c) s = Some (inl fr', s') ->
  cursor_ok c ->
  forall a s2, vaddr c <= a < vaddr c + (size c - size (fr_cursor fr')) ->
    G (fr_table fr') a s2 = Some (MappingNotFound, s2).
Proof.
  intros H Hok. apply for_each_entry_reaches in H. destruct H as (n' & Hr & _).
  set (I := fun (n : nat) (fr : Frame) (_ : Machine) =>
    at_index level c n (fr_cursor fr) /\
    forall a s2, vaddr c <= a < vaddr c + (size c - size (fr_cursor fr)) ->
      G (fr_table fr) a s2 = Some (MappingNotFound, s2)).
  assert (HI : I n' fr' s'); [|exact (proj2 HI)].
  apply (loop_reaches_inv body I) with (2 := Hr).
  - intros n fr1 s1 fr2 s3 [Hat Hgone] Hnz Hb.
    assert (Hc1 : cursor_ok (fr_cursor fr1)) by (destruct Hat as (k & _ & _ & _ & Hc & _); exact Hc).
    assert (Hi : 0 <= NO_OF_PT_ENTRIES - Z.of_nat (S n)).
    { pose proof (at_index_sync _ _ _ _ Hok Hat Hnz) as Hs.
      pose proof (vaddr_to_index_range level (vaddr (fr_cursor fr1))). lia. }
    pose proof (step_reach _ _ _ _ _ Hb Hc1 Hnz Hi) as Hc2.
    destruct (first_run _ _ _ _ _ Hb Hc1 Hnz Hi)
      as (Hok2 & t1 & t2 & e2 & Ht1 & Ht2 & [Hph Hto] & He2 & HQ).
    split.
    + eapply at_index_step; eauto. rewrite Hc2. split; reflexivity.
    + intros a s2 Ha. rewrite Ht2.
      pose proof (at_index_vaddr _ _ _ _ Hok Hat Hnz) as Hv1.
      pose proof (at_index_sync _ _ _ _ Hok Hat Hnz) as Hsync.
      destruct (Z_lt_dec a (vaddr (fr_cursor fr1))) as [Hlt|Hge].
      * pose proof (at_index_before _ _ _ _ a Hok Hat Hnz ltac:(lia)) as Hidx.
        rewrite (G_local t1 t2); [rewrite <- Ht1; apply Hgone; lia|].
        apply Hto. pose proof (vaddr_to_index_range level a). lia.
      * assert (Hsame : vaddr_to_index level a = NO_OF_PT_ENTRIES - Z.of_nat (S n)).
        { rewrite <- Hsync. apply same_entry_index; [destruct Hc1; lia|].
          rewrite Hc2 in Ha. unfold reach in Ha. cbn [size] in Ha. lia. }
        eapply gone; [exact HQ | exact Hc1 | rewrite Hsame; exact He2 | lia].
  - split; [apply at_index_start; exact Hok|]. cbn [new_frame fr_cursor]. intros a s2 Ha. lia.
Qed.
End Unmaps.

Lemma GetMappingL0_local t t' a s2 :
  tbl_ents t' !! Z.to_nat (vaddr_to_index PT_L a)
    = tbl_ents t !! Z.to_nat (vaddr_to_index PT_L a) ->
  GetMappingL0 (Some t') a s2 = GetMappingL0 (Some t) a s2.
Proof.
  intros H. unfold GetMappingL0, deref_table, read_entry, bind. cbn [lift_option ret].
  rewrite H. reflexivity.
Qed.

Lemma GetMapping_at_local lower level t t' a s2 :
  tbl_ents t' !! Z.to_nat (vaddr_to_index level a)
    = tbl_ents t !! Z.to_nat (vaddr_to_index level a) ->
  GetMapping_at lower level (Some t') a s2 = GetMapping_at lower level (Some t) a s2.
Proof.
  intros H. unfold GetMapping_at, deref_table, read_entry, bind. cbn [lift_option ret].
  rewrite H. reflexivity.
Qed.

Lemma RemoveMappingL0_unmaps : remove_unmaps RemoveMappingL0 GetMappingL0.
Proof.
  intros table c s b t' c' s' H Hok a s2 Ha. unfold RemoveMappingL0 in H.
  apply bind_inv in H. destruct H as (r & s1 & Hl & H).
  destruct r as [fr|]; [|discriminate]. minv.
  refine (unmaps_loop RemoveMappingL0_body quiet_leaf PT_L GetMappingL0 _ _
            GetMappingL0_local _ table c s fr _ Hl Hok a s2 Ha).
  - intros i fr0 s0 fr1 s3 Hb Hc Hnz Hi. split.
    + exact (proj1 (RemoveMappingL0_body_ok _ _ _ (inl fr1) _ Hb Hc Hnz)).
    + eapply RemoveMappingL0_body_quiet; eauto.
  - intros i fr0 s0 fr1 s3 Hb Hc Hnz Hi.
    unfold RemoveMappingL0_body, deref_table, read_entry in Hb.
    minv; cbn [fr_cursor]; apply advance_page_reach; assumption.
  - intros t e c0 c1 a0 s0 [Hp _] _ He _.
    unfold GetMappingL0, deref_table, read_entry, bind. cbn [lift_option ret].
    rewrite He. cbn [lift_option ret]. rewrite Hp. reflexivity.
Qed.

Lemma RemoveMapping_at_unmaps lower lowerG level :
  level <> PT_L -> remove_good (lower_level level) lower ->
  remove_unmaps lower lowerG ->
  remove_unmaps (RemoveMapping_at lower level) (GetMapping_at lowerG level).
Proof.
  intros Hlev Hgood Hlow table c s b t' c' s' H Hok a s2 Ha. unfold RemoveMapping_at in H.
  apply bind_inv in H. destruct H as (r & s1 & Hl & H).
  destruct r as [fr|]; [|discriminate]. minv.
  refine (unmaps_loop (RemoveMapping_body lower level) (quiet_entry lower level) level
            (GetMapping_at lowerG level) _ _ (GetMapping_at_local lowerG level) _
            table c s fr _ Hl Hok a s2 Ha).
  - intros i fr0 s0 fr1 s3 Hb Hc Hnz Hi. split.
    + destruct Hgood as (Hgok & _).
      exact (proj1 (RemoveMapping_body_ok lower level Hgok _ _ _ (inl fr1) _ Hb Hc Hnz)).
    + eapply RemoveMapping_body_quiet; eauto.
  - intros i fr0 s0 fr1 s3 Hb Hc Hnz Hi. destruct Hgood as (_ & Hnone & Hreach & _).
    eapply RemoveMapping_body_reach; eauto.
  - intros t e c0 c1 a0 s0 HQ Hc0 He Ha0.
    unfold GetMapping_at, deref_table, read_entry, bind. cbn [lift_option ret].
    rewrite He. cbn [lift_option ret].
    destruct HQ as [[Hp _] | (Hp & Hlg & _ & sub & Hn & Hset)]; rewrite Hp; cbn [negb].
    + reflexivity.
    + rewrite Hlg. rewrite get_next_of, Hn by assumption.
      exact (Hlow _ _ _ _ _ _ _ (Hset s0) Hc0 a0 s0 Ha0).
Qed.

Lemma RemoveMapping_unmaps level : remove_unmaps (RemoveMapping level) (GetMapping level).
Proof.
  destruct level; unfold RemoveMapping, GetMapping.
  - exact RemoveMappingL0_unmaps.
  - refine (RemoveMapping_at_unmaps _ _ PD_L _ RemoveMappingL0_good RemoveMappingL0_unmaps).
    discriminate.
  - refine (RemoveMapping_at_unmaps _ _ PDP_L _ (RemoveMapping_good PD_L) _); [discriminate|].
    refine (RemoveMapping_at_unmaps _ _ PD_L _ RemoveMappingL0_good RemoveMappingL0_unmaps).
    discriminate.
  - refine (RemoveMapping_at_unmaps _ _ PML4_L _ (RemoveMapping_good PDP_L) _); [discriminate|].
    refine (RemoveMapping_at_unmaps _ _ PDP_L _ (RemoveMapping_good PD_L) _); [discriminate|].
    refine (RemoveMapping_at_unmaps _ _ PD_L _ RemoveMappingL0_good RemoveMappingL0_unmaps).
    discriminate.
Qed.

(** *** Where a mapping walk stops *)

Lemma at_index_bound level c0 n c d :
  cursor_ok c0 -> at_index level c0 (S n) c -> size c <> 0 ->
  d <= page_size level - vaddr c mod page_size level ->
  size c0 - size c + d <= table_span level - vaddr c0 mod table_span level.
Proof.
  intros Hok0 (k & Hk & Hv & Hs & Hok & Hpos) Hsz Hd.
  pose proof (vaddr_to_index_div level (vaddr c0)) as Hidx.
  pose proof (vaddr_to_index_range level (vaddr c0)) as Hir.
  destruct Hok0 as (Hv0 & Hs0 & Hva0 & Hsa0). destruct Hok as (Hvc & Hsc & Hvac & Hsac).
  rewrite Hv, Hs in *. clear Hv Hs. unfold wrap64 in *. rewrite Nat2Z.inj_succ in *.
  level_consts level; Z.to_euclidean_division_equations; lia.
Qed.

Lemma at_index_consumed level c0 n c :
  at_index level c0 n c ->
  size c0 - size c <= table_span level - vaddr c0 mod table_span level.
Proof. intros (k & Hk & Hv & Hs & _). lia. Qed.

(** The cursor of a loop whose steps move it entry by entry. *)
Lemma loop_at_index level {R} (body : Z -> Frame -> M (Frame + R)) :
  (forall i fr s fr' s', body i fr s = Some (inl fr', s') ->
     cursor_ok (fr_cursor fr) -> size (fr_cursor fr) <> 0 ->
     i = vaddr_to_index level (vaddr (fr_cursor fr)) ->
     same_pos (fr_cursor fr') (reach (page_size level) (fr_cursor fr))) ->
  forall table c s n' fr' s',
    loop_reaches body (entries_from (vaddr_to_index level (vaddr c))) (new_frame table c) s
      n' fr' s' ->
    cursor_ok c ->
    at_index level c n' (fr_cursor fr').
Proof.
  intros Hstep table c s n' fr' s' Hr Hok.
  apply (loop_reaches_inv body (fun n f _ => at_index level c n (fr_cursor f)))
    with (2 := Hr).
  - intros n fr1 s1 fr2 s2 Hat Hsz Hb.
    assert (Hok1 : cursor_ok (fr_cursor fr1)) by (destruct Hat as (k & _ & _ & _ & Hc & _); exact Hc).
    pose proof (at_index_sync _ _ _ _ Hok Hat Hsz) as Hsync.
    eapply at_index_step; eauto.
  - apply at_index_start. exact Hok.
Qed.

Lemma advance_mapped_page_pos c :
  cursor_ok c -> size c <> 0 ->
  same_pos (advance_mapped PAGE_SIZE c) (reach (page_size PT_L) c).
Proof.
  intros Hok Hsz. rewrite <- advance_page_reach by assumption. split; reflexivity.
Qed.

Lemma advance_mapped_level_pos level c :
  cursor_ok c ->
  page_aligned level (vaddr c) && (size c >=? page_size level) = true ->
  same_pos (advance_mapped (page_size level) c) (reach (page_size level) c).
Proof.
  intros Hok Hg. rewrite <- advance_level_reach by assumption. split; reflexivity.
Qed.

Lemma AddMappingL0_body_pos f i fr s fr' s' :
  AddMappingL0_body f i fr s = Some (inl fr', s') ->
  cursor_ok (fr_cursor fr) -> size (fr_cursor fr) <> 0 ->
  i = vaddr_to_index PT_L (vaddr (fr_cursor fr)) ->
  same_pos (fr_cursor fr') (reach (page_size PT_L) (fr_cursor fr)).
Proof.
  intros Hb Hc Hnz _.
  unfold AddMappingL0_body, deref_table, read_entry in Hb. minv. cbn [fr_cursor].
  apply advance_mapped_page_pos; assumption.
Qed.

Lemma AddMappingL0_moves : map_moves PT_L AddMappingL0.
Proof.
  intros table f c s st t c' s' H Hok. unfold AddMappingL0 in H.
  apply bind_inv in H. destruct H as (r & s1 & Hl & H).
  pose proof (AddMappingL0_body_pos f) as Hstep.
  apply for_each_entry_reaches in Hl. destruct r as [fr|[st1 fr]].
  - destruct Hl as (n' & Hr & Hend). apply leave_frame_inv in H. inv H.
    pose proof (loop_at_index PT_L _ Hstep _ _ _ _ _ _ Hr Hok) as Hat.
    pose proof (at_index_end _ _ _ _ Hok Hat Hend) as Hpos.
    split; [intros _; exact Hpos|]. split; [eapply at_index_consumed; eauto|auto].
  - destruct Hl as (n' & fr1 & s2 & Hr & Hnz & Hb). apply leave_frame_inv in H. inv H.
    pose proof (loop_at_index PT_L _ Hstep _ _ _ _ _ _ Hr Hok) as Hat.
    unfold AddMappingL0_body, deref_table, read_entry in Hb. minv.
    cbn [with_table fr_cursor]. split; [discriminate|].
    split; [eapply at_index_consumed; eauto|auto].
Qed.

Lemma AddMapping_body_moves lower level f :
  level <> PT_L -> map_ok lower -> map_moves (lower_level level) lower ->
  forall i fr s r s', AddMapping_body lower level f i fr s = Some (r, s') ->
    cursor_ok (fr_cursor fr) -> size (fr_cursor fr) <> 0 ->
    match r with
    | inl fr' => same_pos (fr_cursor fr') (reach (page_size level) (fr_cursor fr))
    | inr (st, fr') =>
        size (fr_cursor fr) - size (fr_cursor fr')
          <= page_size level - vaddr (fr_cursor fr) mod page_size level /\
        (st = ZX_ERR_NO_MEMORY \/ st = ZX_ERR_ALREADY_EXISTS)
    end.
Proof.
  intros Hlev Hlok Hlow i fr s r s' H Hc Hnz.
  unfold map_moves in Hlow. rewrite table_span_lower in Hlow by assumption.
  assert (Hps : 0 < page_size level) by (destruct (page_size_aligned level); lia).
  pose proof (Z.mod_pos_bound (vaddr (fr_cursor fr)) (page_size level) Hps) as Hm.
  unfold AddMapping_body, deref_table, read_entry in H.
  minv; cbn [with_table fr_cursor];
    try (split; [lia | auto]);
    try (apply advance_mapped_level_pos; [assumption|];
         repeat match goal with
                | H : _ && _ = true |- _ => apply andb_true_iff in H; destruct H
                end; apply andb_true_iff; split; assumption).
  all: match goal with
       | H : _ (get_next_table_from_entry _) _ _ _ = Some _ |- _ =>
           destruct (Hlow _ _ _ _ _ _ _ _ H Hc) as (Hpos & Hbound & Hst)
       end.
  all: match goal with
       | H : negb (status_is_ok ?z) = true |- _ =>
           split; [exact Hbound|]; destruct Hst as [-> | Hst]; [discriminate | exact Hst]
       | H : negb (status_is_ok ?z) = false |- _ =>
           apply Hpos; destruct z; try discriminate; reflexivity
       end.
Qed.

Lemma AddMapping_at_moves lower remove_here level :
  level <> PT_L -> map_ok lower -> map_moves (lower_level level) lower ->
  map_moves level (AddMapping_at lower remove_here level).
Proof.
  intros Hlev Hlok Hlow table f c s st t c' s' H Hok. unfold AddMapping_at in H.
  apply bind_inv in H. destruct H as (r & s1 & Hl & H).
  assert (Hstep : forall i fr s fr' s',
            AddMapping_body lower level f i fr s = Some (inl fr', s') ->
            cursor_ok (fr_cursor fr) -> size (fr_cursor fr) <> 0 ->
            i = vaddr_to_index level (vaddr (fr_cursor fr)) ->
            same_pos (fr_cursor fr') (reach (page_size level) (fr_cursor fr))).
  { intros i fr0 s0 fr1 s2 Hb Hc Hnz _.
    exact (AddMapping_body_moves lower level f Hlev Hlok Hlow _ _ _ (inl fr1) _ Hb Hc Hnz). }
  apply for_each_entry_reaches in Hl. destruct r as [fr|[st1 fr]].
  - destruct Hl as (n' & Hr & Hend). apply leave_frame_inv in H. inv H.
    pose proof (loop_at_index level _ Hstep _ _ _ _ _ _ Hr Hok) as Hat.
    pose proof (at_index_end _ _ _ _ Hok Hat Hend) as Hpos.
    split; [intros _; exact Hpos|]. split; [eapply at_index_consumed; eauto|auto].
  - destruct Hl as (n' & fr1 & s2 & Hr & Hnz & Hb).
    pose proof (loop_at_index level _ Hstep _ _ _ _ _ _ Hr Hok) as Hat.
    assert (Hc1 : cursor_ok (fr_cursor fr1)) by (destruct Hat as (k & _ & _ & _ & Hc & _); exact Hc).
    pose proof (AddMapping_body_moves lower level f Hlev Hlok Hlow _ _ _ _ _ Hb Hc1 Hnz)
      as [Hbound Hst].
    apply bind_inv in H. destruct H as ([[st2 t2] c2] & s3 & Hlf & H).
    apply leave_frame_inv in Hlf. inv Hlf.
    apply bind_inv in H. destruct H as (t3 & s4 & _ & H). unfold ret in H. inv H.
    split; [intros ->; destruct Hst; discriminate|]. split; [|tauto].
    pose proof (at_index_bound _ _ _ _ _ Hok Hat Hnz Hbound). lia.
Qed.

Lemma AddMapping_moves level : map_moves level (AddMapping level).
Proof.
  destruct level; unfold AddMapping.
  - exact AddMappingL0_moves.
  - refine (AddMapping_at_moves _ _ PD_L _ AddMappingL0_ok AddMappingL0_moves). discriminate.
  - refine (AddMapping_at_moves _ _ PDP_L _ (AddMapping_ok PD_L) _); [discriminate|].
    refine (AddMapping_at_moves _ _ PD_L _ AddMappingL0_ok AddMappingL0_moves). discriminate.
  - refine (AddMapping_at_moves _ _ PML4_L _ (AddMapping_ok PDP_L) _); [discriminate|].
    refine (AddMapping_at_moves _ _ PDP_L _ (AddMapping_ok PD_L) _); [discriminate|].
    refine (AddMapping_at_moves _ _ PD_L _ AddMappingL0_ok AddMappingL0_moves). discriminate.
Qed.

(** *** The rollback of a failed mapping walk *)



Lemma QueryVaddr_not_found a virt s :
  GetMapping top_level virt a (locked s) = Some (MappingNotFound, locked s) ->
  QueryVaddr a virt s = Some ((ZX_ERR_NOT_FOUND, 0, 0, virt), unlocked (locked s)).
Proof.
  intros H. unfold QueryVaddr, bind, emit. fold (locked s). rewrite H. reflexivity.
Qed.


(** C9.  MapPages on valid arguments runs under one lock; it is the
    single-page AddMapping calls at the top level, one per page in order;
    when they all answer Ok so does MapPages; when the call for page k
    (counted from 0) fails after the first k succeeded, MapPages answers
    its error after a RemoveMapping over the first k pages,
    [vaddr, vaddr + k * PAGE_SIZE), which is skipped when k = 0; and when
    MapPages has answered, those k pages are unmapped: for a page-aligned
    [vaddr] and a range that lies within the top-level table, QueryVaddr
    answers NotFound at every address of them. *)
Theorem C9_MapPages_page_by_page vaddr phys count f virt s :
  0 <= vaddr < 2 ^ 64 ->
  check_vaddr vaddr = true -> check_paddrs (Z.to_nat count) phys = Some true ->
  0 < count -> allowed_flags f = true ->
  (forall r s', MapPages vaddr phys count f virt s = Some (r, s') -> lock_held_across s s') /\
  (forall virt_n s_n,
     maps_first vaddr phys f (Z.to_nat count) virt (locked s) virt_n s_n ->
     MapPages vaddr phys count f virt s = Some ((ZX_OK, virt_n), unlocked s_n)) /\
  (forall k virt_k s_k p status virt_f c s_f,
     (k < Z.to_nat count)%nat ->
     maps_first vaddr phys f k virt (locked s) virt_k s_k ->
     phys !! k = Some p ->
     AddMapping top_level virt_k f (nth_page_cursor vaddr p k) s_k
       = Some ((status, virt_f, c), s_f) ->
     status <> ZX_OK ->
     (k = 0%nat ->
      MapPages vaddr phys count f virt s = Some ((status, virt_f), unlocked s_f)) /\
     ((0 < k)%nat ->
      MapPages vaddr phys count f virt s =
      (let* (_, virt', _) :=
         RemoveMapping top_level virt_f
           {| paddr := 0; vaddr := vaddr; size := wrap64 (Z.of_nat k * PAGE_SIZE) |} in
       emit EvUnlock;; ret (status, virt')) s_f) /\
     (vaddr mod PAGE_SIZE = 0 ->
      vaddr mod table_span top_level + count * PAGE_SIZE <= table_span top_level ->
      forall r virt' s', MapPages vaddr phys count f virt s = Some ((r, virt'), s') ->
        r = status /\
        forall a s2, vaddr <= a < vaddr + Z.of_nat k * PAGE_SIZE ->
          QueryVaddr a virt' s2
            = Some ((ZX_ERR_NOT_FOUND, 0, 0, virt'), unlocked (locked s2)))).
Proof.
  intros Hv Hcv Hcp Hc Hf. split; [|split].
  - intros r s'. apply MapPages_locked; assumption.
  - intros virt_n s_n Hm. rewrite MapPages_checked by assumption. unfold bind at 1.
    rewrite (MapPages_loop_prefix _ _ _ _ _ _ _ _ Hv Hm) by lia.
    rewrite Nat.sub_diag. reflexivity.
  - intros k virt_k s_k p status virt_f c s_f Hk Hm Hp Ha Hst.
    assert (Hloop : MapPages_loop (Z.to_nat count) 0 vaddr phys f virt (locked s)
                    = Some ((status, virt_f, Z.of_nat k), s_f)).
    { rewrite (MapPages_loop_prefix _ _ _ _ _ _ _ _ Hv Hm) by lia.
      destruct (Z.to_nat count - k)%nat as [|m] eqn:E; [lia|].
      cbn [MapPages_loop]. unfold bind at 1. rewrite Nat2Z.id, Hp. cbn [lift_option ret].
      unfold bind at 1. unfold nth_page_cursor in Ha. rewrite Ha.
      destruct status; try contradiction; reflexivity. }
    assert (Hn : negb (status_is_ok status) = true) by (destruct status; auto; contradiction).
    assert (HM : MapPages vaddr phys count f virt s =
                 (let* virt := MapPages_undo vaddr (Z.of_nat k) virt_f in
                  emit EvUnlock;; ret (status, virt)) s_f).
    { rewrite MapPages_checked by assumption. unfold bind at 1. rewrite Hloop, Hn.
      reflexivity. }
    rewrite HM. unfold MapPages_undo. split; [|split].
    + intros ->. reflexivity.
    + intros Hpos. destruct (Z.gtb_spec (Z.of_nat k) 0) as [_|]; [|lia].
      unfold bind. destruct (RemoveMapping _ _ _ _) as [[[[b t] c'] s1]|]; reflexivity.
    + intros Hal Hin r virt' s' Hret.
      destruct (Z.gtb_spec (Z.of_nat k) 0) as [Hpos|Hz].
      * apply bind_inv in Hret. destruct Hret as (virt1 & s1 & Hu & Hret).
        apply bind_inv in Hu. destruct Hu as ([[b t] c'] & s2 & Hw & Hu).
        unfold ret in Hu. inv Hu. unfold bind, emit, ret in Hret. inv Hret.
        split; [reflexivity|]. intros a s3 Hrange.
        assert (Hsp : 0 < table_span top_level) by (destruct top_level; reflexivity).
        pose proof (Z.mod_pos_bound vaddr (table_span top_level) Hsp) as Hmod.
        assert (Hsmall : wrap64 (Z.of_nat k * PAGE_SIZE) = Z.of_nat k * PAGE_SIZE).
        { apply wrap64_small. change PAGE_SIZE with 4096 in *.
          assert (table_span top_level <= 2 ^ 48) by (destruct top_level; vm_compute; discriminate).
          change (2 ^ 48) with 281474976710656 in *.
          change (2 ^ 64) with 18446744073709551616. lia. }
        assert (Hok : cursor_ok {| paddr := 0; vaddr := vaddr;
                                   size := wrap64 (Z.of_nat k * PAGE_SIZE) |})
          by (apply start_cursor_ok; assumption).
        pose proof (RemoveMapping_reach top_level _ _ _ _ _ _ _ Hw Hok) as Hc'.
        apply QueryVaddr_not_found.
        refine (RemoveMapping_unmaps top_level _ _ _ _ _ _ _ Hw Hok a (locked s3) _).
        rewrite Hc'. unfold reach. cbn [size].
        repeat match goal with
               | |- context [?p (Build_MappingCursor ?x ?y ?z)] =>
                   change (p (Build_MappingCursor x y z)) with y
               end.
        rewrite Hsmall.
        change PAGE_SIZE with 4096 in *. lia.
      * unfold bind, emit, ret in Hret. inv Hret. split; [reflexivity|].
        intros a s3 Hrange. change PAGE_SIZE with 4096 in *. lia.
Qed.

(** ** Further properties of the walks *)

(** X1.  After UnmapPages(v, n) returned, on a valid page-aligned [v],
    QueryVaddr answers NotFound at every address of the range, up to the
    end of the top-level table. *)
Theorem X1_unmap_then_query_not_found v n virt s r virt' s' :
  check_vaddr v = true -> 0 <= v < 2 ^ 64 -> v mod PAGE_SIZE = 0 ->
  UnmapPages v n virt s = Some ((r, virt'), s') ->
  forall a s2,
    v <= a < v + Z.min (if n =? 0 then 0 else wrap64 (n * PAGE_SIZE))
                       (table_span top_level - v mod table_span top_level) ->
    QueryVaddr a virt' s2 = Some ((ZX_ERR_NOT_FOUND, 0, 0, virt'), unlocked (locked s2)).
Proof.
  intros Hchk Hv Hal H a s2 Ha. unfold UnmapPages in H. rewrite Hchk in H. cbn [negb] in H.
  assert (Hsp : 0 < table_span top_level) by (destruct top_level; reflexivity).
  pose proof (Z.mod_pos_bound v (table_span top_level) Hsp) as Hm.
  destruct (n =? 0); [lia|].
  apply bind_inv in H. destruct H as ([] & s0 & Hlock & H).
  apply bind_inv in H. destruct H as ([[b t] c'] & s3 & Hw & H).
  unfold bind, emit, ret in H. inv H.
  assert (Hok : cursor_ok {| paddr := 0; vaddr := v; size := wrap64 (n * PAGE_SIZE) |})
    by (apply start_cursor_ok; assumption).
  pose proof (RemoveMapping_reach top_level _ _ _ _ _ _ _ Hw Hok) as Hc'.
  apply QueryVaddr_not_found.
  refine (RemoveMapping_unmaps top_level _ _ _ _ _ _ _ Hw Hok a (locked s2) _).
  rewrite Hc'. unfold reach. cbn [vaddr size]. lia.
Qed.


(** X3.  A mapping walk that answers ZX_OK on a range that ends within
    its table mapped all of it: nothing is left in the cursor (the
    [result.size == 0] that MapPagesContiguous asserts). *)
Theorem X3_map_walk_consumes_range level table f c s t' c' s' :
  cursor_ok c ->
  size c <= table_span level - vaddr c mod table_span level ->
  AddMapping level table f c s = Some ((ZX_OK, t', c'), s') ->
  size c' = 0 /\ vaddr c' = wrap64 (vaddr c + size c).
Proof.
  intros Hok Hin H.
  destruct (AddMapping_moves level _ _ _ _ _ _ _ _ H Hok) as (Hpos & _).
  destruct (Hpos eq_refl) as [Hv Hs]. rewrite Hv, Hs.
  unfold reach. cbn [vaddr size]. rewrite Z.min_l by lia. split; [lia|auto].
Qed.

Lemma AddMappingL0_status table f c s st t c' s' :
  AddMappingL0 table f c s = Some ((st, t, c'), s') ->
  st = ZX_OK \/ st = ZX_ERR_NO_MEMORY \/ st = ZX_ERR_ALREADY_EXISTS.
Proof.
  intros H. unfold AddMappingL0 in H.
  apply bind_inv in H. destruct H as (r & s1 & Hl & H).
  apply for_each_entry_reaches in Hl. destruct r as [fr|[st1 fr]].
  - apply leave_frame_inv in H. inv H. auto.
  - destruct Hl as (n' & fr1 & s2 & _ & _ & Hb). apply leave_frame_inv in H. inv H.
    unfold AddMappingL0_body, deref_table, read_entry in Hb. minv. auto.
Qed.

Lemma AddMapping_at_status lower remove_here level :
  (forall table f c s st t c' s', lower table f c s = Some ((st, t, c'), s') ->
     st = ZX_OK \/ st = ZX_ERR_NO_MEMORY \/ st = ZX_ERR_ALREADY_EXISTS) ->
  forall table f c s st t c' s',
    AddMapping_at lower remove_here level table f c s = Some ((st, t, c'), s') ->
    st = ZX_OK \/ st = ZX_ERR_NO_MEMORY \/ st = ZX_ERR_ALREADY_EXISTS.
Proof.
  intros Hlow table f c s st t c' s' H. unfold AddMapping_at in H.
  apply bind_inv in H. destruct H as (r & s1 & Hl & H).
  apply for_each_entry_reaches in Hl. destruct r as [fr|[st1 fr]].
  - apply leave_frame_inv in H. inv H. auto.
  - destruct Hl as (n' & fr1 & s2 & _ & _ & Hb).
    apply bind_inv in H. destruct H as ([[st2 t2] c2] & s3 & Hlf & H).
    apply leave_frame_inv in Hlf. inv Hlf.
    apply bind_inv in H. destruct H as (t3 & s4 & _ & H). unfold ret in H. inv H.
    unfold AddMapping_body, deref_table, read_entry in Hb. minv; auto.
    all: match goal with
         | H : _ (get_next_table_from_entry _) _ _ _ = Some _ |- _ => exact (Hlow _ _ _ _ _ _ _ _ H)
         end.
Qed.

Lemma AddMapping_status level table f c s st t c' s' :
  AddMapping level table f c s = Some ((st, t, c'), s') ->
  st = ZX_OK \/ st = ZX_ERR_NO_MEMORY \/ st = ZX_ERR_ALREADY_EXISTS.
Proof.
  revert table f c s st t c' s'. destruct level; unfold AddMapping;
    repeat first [exact AddMappingL0_status | refine (AddMapping_at_status _ _ _ _)].
Qed.

Lemma MapPages_loop_status n : forall idx v phys f virt s st virt' idx' s',
  MapPages_loop n idx v phys f virt s = Some ((st, virt', idx'), s') ->
  st = ZX_OK \/ st = ZX_ERR_NO_MEMORY \/ st = ZX_ERR_ALREADY_EXISTS.
Proof.
  induction n as [|k IH]; intros idx v phys f virt s st virt' idx' s' Hl;
    cbn [MapPages_loop] in Hl.
  - unfold ret in Hl. inv Hl. auto.
  - apply bind_inv in Hl. destruct Hl as (p0 & sb & _ & Hl).
    apply bind_inv in Hl. destruct Hl as ([[st1 virtb] cb] & sc & Hw & Hl).
    destruct (negb (status_is_ok st1)).
    + unfold ret in Hl. inv Hl. exact (AddMapping_status _ _ _ _ _ _ _ _ _ Hw).
    + exact (IH _ _ _ _ _ _ _ _ _ _ Hl).
Qed.

(** X4.  MapPagesContiguous answers Ok, InvalidArgs, OutOfMemory or
    AlreadyExists, and nothing else; MapPages likewise. *)
Theorem X4_map_status v p phys n f virt s r virt' s' :
  MapPagesContiguous v p n f virt s = Some ((r, virt'), s') \/
  MapPages v phys n f virt s = Some ((r, virt'), s') ->
  r = ZX_OK \/ r = ZX_ERR_INVALID_ARGS \/ r = ZX_ERR_NO_MEMORY \/ r = ZX_ERR_ALREADY_EXISTS.
Proof.
  intros [H|H].
  - unfold MapPagesContiguous in H.
    destruct (negb (check_paddr p)); [unfold ret in H; inv H; auto|].
    destruct (negb (check_vaddr v)); [unfold ret in H; inv H; auto|].
    destruct (n =? 0); [unfold ret in H; inv H; auto|].
    destruct (negb (allowed_flags f)); [unfold ret in H; inv H; auto|].
    apply bind_inv in H. destruct H as ([] & s0 & Hlock & H).
    apply bind_inv in H. destruct H as ([[st t] c'] & s3 & Hw & H).
    unfold bind, emit, ret in H. inv H.
    pose proof (AddMapping_status _ _ _ _ _ _ _ _ _ Hw). tauto.
  - unfold MapPages in H.
    destruct (negb (check_vaddr v)); [unfold ret in H; inv H; auto|].
    apply bind_inv in H. destruct H as (ok & s0 & Hp & H).
    destruct (negb ok); [unfold ret in H; inv H; auto|].
    destruct (n =? 0); [unfold ret in H; inv H; auto|].
    destruct (negb (allowed_flags f)); [unfold ret in H; inv H; auto|].
    apply bind_inv in H. destruct H as ([] & s1 & Hlock & H).
    apply bind_inv in H. destruct H as ([[st virt1] idx] & s2 & Hl & H).
    pose proof (MapPages_loop_status _ _ _ _ _ _ _ _ _ _ _ Hl) as Hst.
    destruct (negb (status_is_ok st)).
    + apply bind_inv in H. destruct H as (virt2 & s3 & _ & H).
      unfold bind, emit, ret in H. inv H. tauto.
    + unfold bind, emit, ret in H. inv H. auto.
Qed.

(** X5.  An unmap walk over a whole table, from its first byte and with
    at least its span to go, leaves every entry of the table absent. *)
Theorem X5_unmap_whole_table_empties level t c s b t' c' s' :
  cursor_ok c -> vaddr c mod table_span level = 0 -> table_span level <= size c ->
  RemoveMapping level (Some t) c s = Some ((b, t', c'), s') ->
  exists t1, t' = Some t1 /\ tbl_phys t1 = tbl_phys t /\
    forall j, (j < Z.to_nat NO_OF_PT_ENTRIES)%nat ->
      exists e, tbl_ents t1 !! j = Some e /\ IS_PAGE_PRESENT (pte_val e) = false.
Proof.
  intros Hok Hal Hsz H.
  destruct (RemoveMapping_clears level _ _ _ _ _ _ _ H Hok Hal Hsz) as (t1 & -> & Habs).
  destruct (RemoveMapping_good level) as (_ & _ & _ & Hsome & _).
  destruct (Hsome _ _ _ _ _ _ _ H Hok) as (t2 & Heq & Hph). inv Heq.
  exists t2. auto.
Qed.


End Properties.

(** The theorem at a valid UnmapPages call on an empty address space. *)
Lemma C8_validation_then_lock_witness :
  lock_held_across (mach (empty_aspace []))
    {| pages_ := 0; pmm := []; trace := [EvLock; EvUnlock] |}.
Proof.
  refine (proj1 (proj1 (proj2 (proj2 (proj2 (proj2 (proj2
            (C8_validation_then_lock (env := sample_env) 0x1000 0 1 0 []
               (virt_ (empty_aspace [])) (mach (empty_aspace []))))))))
            _ _) (ZX_OK, virt_ (empty_aspace [])) _ _).
  - vm_compute. reflexivity.
  - vm_compute. discriminate.
  - vm_compute. reflexivity.
Defined.

(** C8 as stated fails: MapPagesContiguous with count == 0 and mmu_flags
    that the flag policy rejects answers Ok, and takes no lock. *)
Lemma C8_counterexample :
  allowed_flags (PageTableEnv := sample_env) 0 = false /\
  on_aspace (MapPagesContiguous (env := sample_env) 0x1000 0x400000 0 0) (empty_aspace [])
    = Some (ZX_OK, empty_aspace []).
Proof. split; vm_compute; reflexivity. Qed.

(** The theorem at a store over a present entry of a one-entry table. *)
Lemma C1_flush_precedes_invalidation_witness :
  store_ordered (H := sample_env) StoreUnmap (new_flusher true) PT_L 0x1000
    (MkTable 0x1000 [MkEntry 0x400001 None]) 0 true
    {| pages_ := 0; pmm := []; trace := [] |}
    {| pages_ := 0; pmm := [];
       trace := [EvStore 0xffffff8000001000 0; EvClflush 0xffffff8000001000;
                 EvTlbInvalidate PT_L 0x1000 false true] |}
    {| dirty_line_ := 0; perform_invalidations_ := true |}.
Proof.
  apply (C1_flush_precedes_invalidation (env := sample_env) StoreUnmap (new_flusher true)
           PT_L 0x1000 (MkTable 0x1000 [MkEntry 0x400001 None]) 0 true
           {| pages_ := 0; pmm := []; trace := [] |} _
           (MkTable 0x1000 [MkEntry 0 None])).
  vm_compute. reflexivity.
Defined.

(** C4.  The walk at the failing input: with the allocator out of memory,
    UnmapPages(0x3ff000, 2) splits the large page at [0x200000, 0x400000),
    the split fails, and the walker, instead of going on to the next index,
    recurses into the table of the entry it has just cleared: a null table,
    which it dereferences. *)
Lemma C4_split_failure_recurses_into_null_table :
  outcome (one_large_page [Some 0x100000; Some 0x101000]) = Some (ZX_OK, 2) /\
  and_then (one_large_page [Some 0x100000; Some 0x101000])
    (on_aspace (UnmapPages (env := sample_env) 0x3ff000 2)) = None.
Proof. split; vm_compute; reflexivity. Qed.


(** C7 as stated fails, twice.  ProtectPages over the first page of a
    large page splits it: a page table is created and [pages_] goes from 2
    to 3.  And with no frame left for the split, ProtectPages over the
    second page of the large page, whose arguments pass the checks, gives
    no status back: the walk goes on into the table of an entry that has
    none. *)
Lemma C7_counterexample :
  outcome (one_large_page sample_frames) = Some (ZX_OK, 2) /\
  outcome (and_then (one_large_page sample_frames)
             (on_aspace (ProtectPages (env := sample_env) 0x200000 1
                           ARCH_MMU_FLAG_PERM_READ)))
  = Some (ZX_OK, 3) /\
  outcome (one_large_page [Some 0x100000; Some 0x101000]) = Some (ZX_OK, 2) /\
  check_vaddr (PageTableEnv := sample_env) 0x201000 = true /\
  allowed_flags (PageTableEnv := sample_env) ARCH_MMU_FLAG_PERM_READ = true /\
  and_then (one_large_page [Some 0x100000; Some 0x101000])
    (on_aspace (ProtectPages (env := sample_env) 0x201000 1 ARCH_MMU_FLAG_PERM_READ))
  = None.
Proof. repeat split; vm_compute; reflexivity. Qed.

(** The theorem at an unmap walk over one page of an empty PT table. *)
Lemma C10_cursor_stays_within_witness :
  cursor_within {| paddr := 0; vaddr := 0x201000; size := 0x1000 |}
                {| paddr := 0; vaddr := 0x202000; size := 0 |}.
Proof.
  refine (proj1 (proj2 (proj2 (proj2
            (C10_cursor_stays_within (env := sample_env) PD_L 0 (Some pd_with_empty_pt)
               {| paddr := 0; vaddr := 0x201000; size := 0x1000 |}
               {| pages_ := 1; pmm := []; trace := [] |} _))))
            false (Some pd_with_empty_pt) _ {| pages_ := 1; pmm := []; trace := [] |} _).
  - unfold cursor_ok. cbn [vaddr size]. vm_compute. intuition discriminate.
  - vm_compute. reflexivity.
Defined.

(** The theorem at a MapPages call of two pages whose second page needs a
    table that the allocator cannot give: the first page was mapped, the
    call answers OutOfMemory under the lock, and the first page is unmapped
    again. *)
Lemma C9_MapPages_page_by_page_witness :
  exists virt' s',
    MapPages (env := sample_env) 0x1ff000 [0x400000; 0x500000] 2 RW
      (virt_ (empty_aspace [Some 0x100000; Some 0x101000; Some 0x102000]))
      (mach (empty_aspace [Some 0x100000; Some 0x101000; Some 0x102000]))
      = Some ((ZX_ERR_NO_MEMORY, virt'), s') /\
    lock_held_across (mach (empty_aspace [Some 0x100000; Some 0x101000; Some 0x102000])) s' /\
    QueryVaddr (env := sample_env) 0x1ff000 virt' (mach (empty_aspace []))
      = Some ((ZX_ERR_NOT_FOUND, 0, 0, virt'),
              unlocked (locked (mach (empty_aspace [])))).
Proof.
  pose proof (C9_MapPages_page_by_page (env := sample_env) 0x1ff000
                [0x400000; 0x500000] 2 RW
                (virt_ (empty_aspace [Some 0x100000; Some 0x101000; Some 0x102000]))
                (mach (empty_aspace [Some 0x100000; Some 0x101000; Some 0x102000])))
    as HC9.
  destruct HC9 as (Hlock & _ & Hfail).
  { vm_compute. intuition discriminate. }
  { vm_compute. reflexivity. }
  { vm_compute. reflexivity. }
  { reflexivity. }
  { vm_compute. reflexivity. }
  set (virt0 := virt_ (empty_aspace [Some 0x100000; Some 0x101000; Some 0x102000])) in *.
  set (s0 := mach (empty_aspace [Some 0x100000; Some 0x101000; Some 0x102000])) in *.
  set (x := AddMapping (env := sample_env) (top_level (PageTableEnv := sample_env)) virt0 RW
              (nth_page_cursor 0x1ff000 0x400000 0) (locked s0)).
  assert (A1 : option_map (fun r => fst (fst (fst r))) x = Some ZX_OK)
    by (vm_compute; reflexivity).
  assert (A2 : match x with
               | Some ((_, virt1, _), s1) =>
                   option_map (fun r => fst (fst (fst r)))
                     (AddMapping (env := sample_env) (top_level (PageTableEnv := sample_env))
                        virt1 RW (nth_page_cursor 0x1ff000 0x500000 1) s1)
               | None => None
               end = Some ZX_ERR_NO_MEMORY)
    by (vm_compute; reflexivity).
  destruct x as [[[[st0 virt1] c0] s1]|] eqn:E0; [|discriminate A1].
  cbn in A1. injection A1 as ->.
  destruct (AddMapping (env := sample_env) (top_level (PageTableEnv := sample_env)) virt1 RW
              (nth_page_cursor 0x1ff000 0x500000 1) s1) as [[[[st1 virt2] c1] s2]|] eqn:E1;
    [|discriminate A2].
  cbn in A2. injection A2 as ->.
  destruct (Hfail 1%nat virt1 s1 0x500000 ZX_ERR_NO_MEMORY virt2 c1 s2) as (_ & _ & Hun).
  { vm_compute. lia. }
  { eapply (maps_more (H := sample_env)); [apply maps_none | reflexivity | exact E0]. }
  { reflexivity. }
  { exact E1. }
  { discriminate. }
  destruct (MapPages (env := sample_env) 0x1ff000 [0x400000; 0x500000] 2 RW virt0 s0)
    as [[[r virt'] s']|] eqn:E; [|vm_compute in E; discriminate E].
  destruct (Hun eq_refl ltac:(vm_compute; discriminate) r virt' s' eq_refl) as [-> Hq].
  exists virt', s'. split; [reflexivity|]. split; [exact (Hlock _ _ eq_refl)|].
  apply Hq. vm_compute. intuition discriminate.
Defined.

(** The theorem at scenario 1 of the specification: one page mapped at
    0x1000 onto 0x400000, read and write. *)
Lemma C5_query_after_map_witness :
  exists pa mmu virt' s2,
    QueryVaddr (env := sample_env) 0x1000 virt' (mach (empty_aspace []))
      = Some ((ZX_OK, pa, mmu, virt'), s2) /\
    pa = 0x400000 /\ mmu = RW.
Proof.
  destruct (MapPages (env := sample_env) 0x1000 [0x400000] 1 RW
              (virt_ (empty_aspace [Some 0x100000; Some 0x101000; Some 0x102000])) (mach (empty_aspace [Some 0x100000; Some 0x101000; Some 0x102000])))
    as [[[st virt'] s']|] eqn:E; [|vm_compute in E; discriminate E].
  assert (Hst : st = ZX_OK).
  { pose proof E as E2. vm_compute in E2. injection E2 as <- _ _. reflexivity. }
  subst st.
  destruct (C5_query_after_map (env := sample_env) 0x1000 0x400000 RW
              (virt_ (empty_aspace [Some 0x100000; Some 0x101000; Some 0x102000])) (mach (empty_aspace [Some 0x100000; Some 0x101000; Some 0x102000]))
              virt' s' (mach (empty_aspace [])))
    as (pa & mmu & HQ & Hpa & Hmmu & _).
  - vm_compute. reflexivity.
  - unfold frames_aligned. cbn [mach empty_aspace pmm].
    repeat (constructor; [intros pa H; injection H as <-; reflexivity|]). constructor.
  - left. exact E.
  - exists pa, mmu, virt', (unlocked (locked (mach (empty_aspace [])))).
    split; [exact HQ|]. split; [rewrite Hpa | rewrite Hmmu]; vm_compute; reflexivity.
Defined.

(** The theorem at a root table whose entry 1 points at an empty table:
    the first UnmapPages walks that table and keeps it, the second finds
    the same. *)
Lemma C6_unmap_twice_witness :
  exists s2,
    UnmapPages (env := sample_env) 0x8000000000 1 (Some pd_with_empty_pt)
      {| pages_ := 1; pmm := []; trace := [EvLock; EvUnlock] |}
      = Some ((ZX_OK, Some pd_with_empty_pt), s2) /\
    pages_ s2 = 1 /\ pmm s2 = [] /\
    trace s2 = [EvLock; EvUnlock; EvLock; EvUnlock].
Proof.
  refine (proj2 (C6_unmap_twice (env := sample_env) 0x8000000000 1 (Some pd_with_empty_pt)
                   {| pages_ := 1; pmm := []; trace := [] |} ZX_OK (Some pd_with_empty_pt)
                   {| pages_ := 1; pmm := []; trace := [EvLock; EvUnlock] |} _ _ _ _)).
  - vm_compute. reflexivity.
  - vm_compute. intuition discriminate.
  - vm_compute. reflexivity.
  - vm_compute. reflexivity.
Defined.

(** The flag policy of the sample address space is the one the count of
    the page tables relies on. *)
Lemma sample_env_policy :
  Z.land (intermediate_flags (PageTableEnv := sample_env)) X86_MMU_PG_PS = 0 /\
  (forall f, IS_LARGE_PAGE f = true ->
             IS_LARGE_PAGE (split_flags (PageTableEnv := sample_env) PDP_L f) = true) /\
  (forall v, check_vaddr (PageTableEnv := sample_env) v = true ->
             0 <= v < 2 ^ 64 /\ v mod PAGE_SIZE = 0).
Proof.
  split; [reflexivity|]. split; [intros f H; exact H|].
  intros v H. cbn [check_vaddr sample_env] in H.
  apply andb_true_iff in H. destruct H as [H _].
  apply andb_true_iff in H. destruct H as [H Hal].
  apply andb_true_iff in H. destruct H as [H0 H1].
  apply Z.leb_le in H0. apply Z.ltb_lt in H1. apply Z.eqb_eq in Hal.
  split; [lia|]. change (PAGE_SIZE - 1) with (Z.ones 12) in Hal.
  rewrite Z.land_ones in Hal by lia. exact Hal.
Qed.

(** The theorem at scenarios 2 and 3 of the specification, run one after
    the other: a 2 MiB large page is mapped, its first page is
    re-protected, which splits it, and the whole range is unmapped. *)
Lemma C3_pages_counts_tables_witness :
  exists pt',
    run_calls (H := sample_env)
      [CallMapPagesContiguous 0x200000 0x800000 512 RW;
       CallProtectPages 0x200000 1 ARCH_MMU_FLAG_PERM_READ;
       CallUnmapPages 0x200000 512]
      (empty_aspace sample_frames) = Some pt' /\
    pages_counted (H := sample_env) pt'.
Proof.
  destruct (run_calls (H := sample_env)
              [CallMapPagesContiguous 0x200000 0x800000 512 RW;
               CallProtectPages 0x200000 1 ARCH_MMU_FLAG_PERM_READ;
               CallUnmapPages 0x200000 512]
              (empty_aspace sample_frames)) as [pt'|] eqn:E;
    [|vm_compute in E; discriminate E].
  exists pt'. split; [reflexivity|].
  refine (C3_pages_counts_tables (env := sample_env)
            (proj1 sample_env_policy) (proj1 (proj2 sample_env_policy))
            (proj2 (proj2 sample_env_policy))
            [CallMapPagesContiguous 0x200000 0x800000 512 RW;
             CallProtectPages 0x200000 1 ARCH_MMU_FLAG_PERM_READ;
             CallUnmapPages 0x200000 512]
            (empty_aspace sample_frames) pt' _ _ E).
  - unfold frames_aligned, empty_aspace, sample_frames. cbn [mach pmm map seq].
    repeat (constructor; [intros pa H; injection H as <-; reflexivity|]). constructor.
  - unfold pages_counted. cbn [mach virt_ empty_aspace pages_ count_from].
    symmetry. apply count_tables_zero.
Defined.

(** The theorem at scenario 3 of the specification: the 2 MiB range at
    0x200000 is mapped by one large page and ProtectPages goes over its
    first page.  The large page is split: one frame is allocated, none is
    freed, and [pages_] goes from 2 to 3. *)
Lemma C7_protect_allocates_or_keeps_witness :
  exists pt virt' s' evs,
    one_large_page sample_frames = Some (ZX_OK, pt) /\
    ProtectPages (env := sample_env) 0x200000 1 ARCH_MMU_FLAG_PERM_READ
      (virt_ pt) (mach pt) = Some ((ZX_OK, virt'), s') /\
    pages_ (mach pt) = 2 /\ pages_ s' = 3 /\
    trace s' = trace (mach pt) ++ evs /\
    wrap64 (pages_ s') = wrap64 (pages_ (mach pt) + allocated evs - freed evs) /\
    existsb is_alloc evs = true.
Proof.
  set (before := one_large_page sample_frames).
  assert (H1 : outcome before = Some (ZX_OK, 2)) by (vm_compute; reflexivity).
  assert (H2 : outcome (and_then before
                 (on_aspace (ProtectPages (env := sample_env) 0x200000 1
                               ARCH_MMU_FLAG_PERM_READ))) = Some (ZX_OK, 3))
    by (vm_compute; reflexivity).
  destruct before as [[st pt]|]; [|discriminate H1].
  cbn [outcome option_map fst snd] in H1. injection H1 as -> Hp.
  cbn [and_then] in H2. unfold on_aspace in H2.
  destruct (ProtectPages (env := sample_env) 0x200000 1 ARCH_MMU_FLAG_PERM_READ
              (virt_ pt) (mach pt)) as [[[r virt'] s']|] eqn:E; [|discriminate H2].
  cbn [outcome option_map fst snd mach] in H2. injection H2 as -> Hp'.
  destruct (C7_protect_allocates_or_keeps (env := sample_env) 0x200000 1
              ARCH_MMU_FLAG_PERM_READ (virt_ pt) (mach pt) ZX_OK virt' s' E)
    as (_ & _ & evs & Ht & Hacc & Hq).
  exists pt, virt', s', evs. repeat split; try assumption.
  destruct (existsb is_alloc evs); [reflexivity|].
  destruct (Hq eq_refl) as (Hsame & _). rewrite Hp, Hp' in Hsame. discriminate Hsame.
Defined.


(** The theorem at a page mapped at 0x1000 and then unmapped: QueryVaddr
    finds nothing there. *)
Lemma X1_unmap_then_query_not_found_witness :
  exists pt virt' s',
    on_aspace (MapPages (env := sample_env) 0x1000 [0x400000] 1 RW)
      (empty_aspace sample_frames) = Some (ZX_OK, pt) /\
    UnmapPages (env := sample_env) 0x1000 1 (virt_ pt) (mach pt) = Some ((ZX_OK, virt'), s') /\
    QueryVaddr (env := sample_env) 0x1000 virt' s'
      = Some ((ZX_ERR_NOT_FOUND, 0, 0, virt'), unlocked (locked s')).
Proof.
  set (before := on_aspace (MapPages (env := sample_env) 0x1000 [0x400000] 1 RW)
                   (empty_aspace sample_frames)).
  assert (H1 : option_map fst before = Some ZX_OK) by (vm_compute; reflexivity).
  assert (H2 : option_map fst
                 (and_then before (on_aspace (UnmapPages (env := sample_env) 0x1000 1)))
               = Some ZX_OK) by (vm_compute; reflexivity).
  destruct before as [[st pt]|]; [|discriminate H1].
  cbn [option_map fst] in H1. injection H1 as ->.
  cbn [and_then] in H2. unfold on_aspace in H2.
  destruct (UnmapPages (env := sample_env) 0x1000 1 (virt_ pt) (mach pt))
    as [[[r virt'] s']|] eqn:E; [|discriminate H2].
  cbn [option_map fst] in H2. injection H2 as ->.
  exists pt, virt', s'. split; [reflexivity|]. split; [exact E|].
  refine (X1_unmap_then_query_not_found (env := sample_env) 0x1000 1 (virt_ pt) (mach pt)
            ZX_OK virt' s' _ _ _ E 0x1000 s' _).
  - vm_compute. reflexivity.
  - vm_compute. intuition discriminate.
  - vm_compute. reflexivity.
  - vm_compute. intuition discriminate.
Defined.


(** The theorem at a mapping walk of one page below a PD table whose
    entry 1 points at an empty PT table. *)
Lemma X3_map_walk_consumes_range_witness :
  exists t' c' s',
    AddMapping (env := sample_env) PD_L (Some pd_with_empty_pt) RW
      {| paddr := 0x400000; vaddr := 0x201000; size := 0x1000 |}
      {| pages_ := 1; pmm := []; trace := [] |} = Some ((ZX_OK, t', c'), s') /\
    size c' = 0 /\ vaddr c' = wrap64 (0x201000 + 0x1000).
Proof.
  set (x := AddMapping (env := sample_env) PD_L (Some pd_with_empty_pt) RW
              {| paddr := 0x400000; vaddr := 0x201000; size := 0x1000 |}
              {| pages_ := 1; pmm := []; trace := [] |}).
  assert (H1 : option_map (fun r => fst (fst (fst r))) x = Some ZX_OK)
    by (vm_compute; reflexivity).
  destruct x as [[[[st t'] c'] s']|] eqn:E; [|discriminate H1].
  cbn [option_map fst] in H1. injection H1 as ->.
  exists t', c', s'. split; [reflexivity|].
  refine (X3_map_walk_consumes_range (env := sample_env) PD_L (Some pd_with_empty_pt) RW
            {| paddr := 0x400000; vaddr := 0x201000; size := 0x1000 |}
            {| pages_ := 1; pmm := []; trace := [] |} t' c' s' _ _ E).
  - unfold cursor_ok. cbn [vaddr size]. vm_compute. intuition discriminate.
  - vm_compute. discriminate.
Defined.

(** The theorem at scenario 6 of the specification, where the allocator
    fails on its third call. *)
Lemma X4_map_status_witness :
  exists r virt' s',
    MapPagesContiguous (env := sample_env) 0x1000 0x400000 1024 RW
      (virt_ (empty_aspace [Some 0x100000; Some 0x101000; None; Some 0x102000]))
      (mach (empty_aspace [Some 0x100000; Some 0x101000; None; Some 0x102000]))
      = Some ((r, virt'), s') /\
    (r = ZX_OK \/ r = ZX_ERR_INVALID_ARGS \/ r = ZX_ERR_NO_MEMORY \/
     r = ZX_ERR_ALREADY_EXISTS).
Proof.
  destruct (MapPagesContiguous (env := sample_env) 0x1000 0x400000 1024 RW
              (virt_ (empty_aspace [Some 0x100000; Some 0x101000; None; Some 0x102000]))
              (mach (empty_aspace [Some 0x100000; Some 0x101000; None; Some 0x102000])))
    as [[[r virt'] s']|] eqn:E; [|vm_compute in E; discriminate E].
  exists r, virt', s'. split; [reflexivity|].
  exact (X4_map_status (env := sample_env) 0x1000 0x400000 [] 1024 RW _ _ r virt' s'
           (or_introl E)).
Defined.

(** The theorem at an unmap walk over the whole of a PD table whose entry 1
    points at an empty PT table. *)
Lemma X5_unmap_whole_table_empties_witness :
  exists b t' c' s',
    RemoveMapping (env := sample_env) PD_L (Some pd_with_empty_pt)
      {| paddr := 0; vaddr := 0; size := 0x40000000 |}
      {| pages_ := 1; pmm := []; trace := [] |} = Some ((b, t', c'), s') /\
    exists t1, t' = Some t1 /\ tbl_phys t1 = 0x2000 /\
      forall j, (j < Z.to_nat NO_OF_PT_ENTRIES)%nat ->
        exists e, tbl_ents t1 !! j = Some e /\ IS_PAGE_PRESENT (pte_val e) = false.
Proof.
  destruct (RemoveMapping (env := sample_env) PD_L (Some pd_with_empty_pt)
              {| paddr := 0; vaddr := 0; size := 0x40000000 |}
              {| pages_ := 1; pmm := []; trace := [] |}) as [[[[b t'] c'] s']|] eqn:E;
    [|vm_compute in E; discriminate E].
  exists b, t', c', s'. split; [reflexivity|].
  refine (X5_unmap_whole_table_empties (env := sample_env) PD_L pd_with_empty_pt
            {| paddr := 0; vaddr := 0; size := 0x40000000 |}
            {| pages_ := 1; pmm := []; trace := [] |} b t' c' s' _ _ _ E).
  - unfold cursor_ok. cbn [vaddr size]. vm_compute. intuition discriminate.
  - vm_compute. reflexivity.
  - vm_compute. discriminate.
Defined.

